(** * BLonD longitudinal phase-space utilities: a shallow embedding

  This development embeds the functions of [trackers/utilities.py]
  (potential-well extraction, total voltage, Hamiltonian, separatrix,
  in-bucket test, trajectory frequency tracker and the phase/time
  normalisation helpers) and proves properties of them.

  Numbers.  The array code of the potential-well extractor and of the
  tracker only adds, subtracts, multiplies, divides and compares; it is
  embedded over the rationals [Q], so that every definition runs.  The
  closed-form physics (cosine, sine, pi, square root, floor) is embedded
  over the reals [R].  In both cases the arithmetic is exact: the rounding
  of IEEE doubles is not part of the model. *)

From Stdlib Require Import String List Bool Arith ZArith QArith Qminmax Qabs Lia.
From Stdlib Require Import Reals Lra.
From Stdlib Require Lqa.
From Stdlib Require DecimalString.
From Stdlib Require Import Permutation.
Import ListNotations.

(* ================================================================== *)
(** * Python outcomes *)

Module Py.

(** The exceptions the embedded code can raise. *)
Inductive exn : Type :=
| RuntimeError (msg : string)
| ValueError (msg : string)
| IndexError
| ZeroDivisionError
| UnboundLocalError (var : string).

(** A call either returns a value or raises. *)
Inductive outcome (A : Type) : Type :=
| Return (a : A)
| Raise (e : exn).
Arguments Return {A} a.
Arguments Raise {A} e.

Definition bind {A B : Type} (m : outcome A) (k : A -> outcome B) : outcome B :=
  match m with
  | Return a => k a
  | Raise e => Raise e
  end.

Definition raises {A : Type} (m : outcome A) : bool :=
  match m with
  | Return _ => false
  | Raise _ => true
  end.

(** What a call writes besides its result: [print] lines and calls to
    [warnings.warn].  The process-wide display filter
    ([warnings.filterwarnings]) is not modelled: the list records the
    calls. *)
Inductive diagnostic : Type :=
| Printed (text : string)
| Warned (text : string).

End Py.

Declare Scope py_scope.
Delimit Scope py_scope with py.
Notation "x <- m ;; k" := (Py.bind m (fun x => k))
(at level 61, m at next level, right associativity) : py_scope.
Notation "' p <- m ;; k" := (Py.bind m (fun p => k))
(at level 61, p pattern, m at next level, right associativity) : py_scope.

(* ================================================================== *)
(** * The NumPy operations used on one-dimensional arrays *)

Module Np.
Import Py.
Local Open Scope Q_scope.
Local Open Scope py_scope.

Definition Qltb (a b : Q) : bool := negb (Qle_bool b a).
Definition Qgtb (a b : Q) : bool := Qltb b a.

(** [a[i]] for a non-negative [i]. *)
Definition item {A : Type} (a : list A) (i : nat) : outcome A :=
  match nth_error a i with
  | Some v => Return v
  | None => Raise IndexError
  end.

(** [a[-1]]. *)
Definition last_item {A : Type} (a : list A) : outcome A :=
  match rev a with
  | v :: _ => Return v
  | [] => Raise IndexError
  end.

(** [a[idx]] for an array [idx] of non-negative indices. *)
Fixpoint take {A : Type} (a : list A) (idx : list nat) : outcome (list A) :=
  match idx with
  | [] => Return []
  | i :: idx' =>
      v <- item a i ;;
      vs <- take a idx' ;;
      Return (v :: vs)
  end.

(** [a[mask]] for a boolean array [mask] of the length of [a]. *)
Fixpoint select {A : Type} (mask : list bool) (a : list A) : list A :=
  match mask, a with
  | m :: mask', v :: a' =>
      if m then v :: select mask' a' else select mask' a'
  | _, _ => []
  end.

(** The product of two boolean arrays of one length is their
    conjunction. *)
Fixpoint mask_and (m1 m2 : list bool) : list bool :=
  match m1, m2 with
  | b1 :: m1', b2 :: m2' => (b1 && b2) :: mask_and m1' m2'
  | _, _ => []
  end.

(** [np.where(mask)[0]]: the positions of the true entries. *)
Fixpoint where_from (i : nat) (mask : list bool) : list nat :=
  match mask with
  | [] => []
  | m :: mask' =>
      if m then i :: where_from (S i) mask' else where_from (S i) mask'
  end.
Definition where_true (mask : list bool) : list nat := where_from 0 mask.

(** [np.unique] on indices: the distinct elements in increasing order. *)
Definition unique (l : list nat) : list nat :=
  filter (fun i => existsb (Nat.eqb i) l) (seq 0 (S (list_max l))).

(** [np.diff]. *)
Fixpoint diff (a : list Q) : list Q :=
  match a with
  | v0 :: ((v1 :: _) as a') => (v1 - v0) :: diff a'
  | _ => []
  end.

(** [a[0:-1]]. *)
Definition but_last {A : Type} (a : list A) : list A := removelast a.

(** [a[1:]]. *)
Definition but_first {A : Type} (a : list A) : list A := tl a.

(** The segment search of [np.interp] for a sample [x] that is not below
    [xp[0]]: the segment [xp[j] <= x < xp[j+1]] gives
    [slope*(x - xp[j]) + fp[j]], and a sample at or beyond the last
    abscissa gives [fp[-1]].  NumPy finds the segment by bisection, which
    for the non-decreasing [xp] it requires is the segment found here. *)
Fixpoint interp_from (xp fp : list Q) (x : Q) : Q :=
  match xp, fp with
  | x0 :: ((x1 :: _) as xp'), y0 :: ((y1 :: _) as fp') =>
      if Qltb x x1
      then (y1 - y0) / (x1 - x0) * (x - x0) + y0
      else interp_from xp' fp' x
  | _, y0 :: _ => y0
  | _, [] => 0
  end.

Definition interp1 (xp fp : list Q) (x : Q) : Q :=
  match xp, fp with
  | x0 :: _, y0 :: _ => if Qltb x x0 then y0 else interp_from xp fp x
  | _, _ => 0
  end.

(** [np.interp(x, xp, fp)] with the default [left] and [right]. *)
Definition interp (x xp fp : list Q) : outcome (list Q) :=
  match xp with
  | [] => Raise (ValueError "array of sample points is empty")
  | _ :: _ =>
      if Nat.eqb (length xp) (length fp)
      then Return (map (interp1 xp fp) x)
      else Raise (ValueError "fp and xp are not of the same length.")
  end.

(** The test [a/b < 0] on doubles.  Division by zero does not raise in
    NumPy: a negative number over zero is minus infinity, which is below
    zero; a positive number over zero is plus infinity and zero over zero
    is not-a-number, which are not. *)
Definition quotient_negative (a b : Q) : bool :=
  if Qeq_bool b 0 then Qltb a 0 else Qltb (a / b) 0.

Fixpoint quotients_negative (num den : list Q) : list bool :=
  match num, den with
  | a :: num', b :: den' => quotient_negative a b :: quotients_negative num' den'
  | _, _ => []
  end.

(** [np.min] and [np.max] of a non-empty array. *)
Definition amin (a : list Q) : outcome Q :=
  match a with
  | [] => Raise (ValueError "zero-size array to reduction operation minimum which has no identity")
  | v :: a' => Return (fold_left Qmin a' v)
  end.

Definition amax (a : list Q) : outcome Q :=
  match a with
  | [] => Raise (ValueError "zero-size array to reduction operation maximum which has no identity")
  | v :: a' => Return (fold_left Qmax a' v)
  end.

(** [np.mean] of a non-empty array. *)
Definition mean (a : list Q) : Q :=
  fold_left Qplus a 0 / inject_Z (Z.of_nat (length a)).

End Np.

(* ================================================================== *)
(** * Potential-well extractor *)

Module PotentialWell.
Import Py Np.
Local Open Scope Q_scope.
Local Open Scope py_scope.
Local Open Scope string_scope.

(** The positions and the values of the extrema, as [minmax_location]
    returns them: [[min_x, max_x], [min_values, max_values]]. *)
Definition extrema : Type := (list Q * list Q) * (list Q * list Q).

(** [(x[idx + 1] + x[idx]) / 2]. *)
Definition midpoints (x : list Q) (idx : list nat) : outcome (list Q) :=
  right <- take x (map S idx) ;;
  left <- take x idx ;;
  Return (map (fun p => (fst p + snd p) / 2) (combine right left)).

Definition minmax_location (x f : list Q) : outcome extrema :=
  let f_derivative := diff f in
  x0 <- item x 0 ;;
  x1 <- item x 1 ;;
  let x_derivative := map (fun v => v + (x1 - x0) / 2) (but_last x) in
  f_derivative <- interp x x_derivative f_derivative ;;
  let f_derivative_second := diff f_derivative in
  f_derivative_second <- interp x x_derivative f_derivative_second ;;
  let f_derivative_zeros :=
    unique (where_true (map (fun d => Qeq_bool d 0) f_derivative)
            ++ where_true (quotients_negative (but_first f_derivative)
                                         (but_last f_derivative))) in
  second_at_zeros <- take f_derivative_second f_derivative_zeros ;;
  let minima := select (map (fun s => Qgtb s 0) second_at_zeros) f_derivative_zeros in
  let maxima := select (map (fun s => Qltb s 0) second_at_zeros) f_derivative_zeros in
  min_x_position <- midpoints x minima ;;
  max_x_position <- midpoints x maxima ;;
  min_values <- interp min_x_position x f ;;
  max_values <- interp max_x_position x f ;;
  Return ((min_x_position, max_x_position), (min_values, max_values)).

Definition no_minima_message : string :=
  "The potential well has no minima...".
Definition more_minima_message : string :=
  "The potential well has more minima than maxima, and only one maximum".
(** The messages that the source continues over several lines keep the
    indentation of the continuation lines. *)
Definition not_well_defined_message : string :=
  "The potential well is not well defined.                                     " ++
  "You may reconsider the options to calculate                                     " ++
  "the potential well as the main harmonic is                                     " ++
  "probably not the expected one.".
Definition no_maximum_warning : string :=
  "Warning: The maximum of the potential well could not be found...                 " ++
  "You may reconsider the options to calculate the potential well                 " ++
  "as the main harmonic is probably not the expected one.                 " ++
  "You may also increase the percentage of margin to compute                 " ++
  "the potentiel well. The full potential well will be taken".

(** The pair [(time_potential_sep, potential_well_sep)]. *)
Definition cut : Type := list Q * list Q.

Definition keep (saved_indexes : list bool) (time_potential potential_array : list Q)
  : cut :=
  (select saved_indexes time_potential, select saved_indexes potential_array).

(** The final [return time_potential_sep, potential_well_sep].  The two
    names are locals that only some branches assign; [None] stands for the
    path on which they are unassigned. *)
Definition return_sep (sep : option cut) : outcome cut :=
  match sep with
  | Some r => Return r
  | None => Raise (UnboundLocalError "time_potential_sep")
  end.

(** The branch [n_maxima == 1]. *)
Definition cut_one_maximum (time_potential potential_array : list Q)
    (min_time_positions max_time_positions max_potential_values : list Q)
  : outcome cut :=
  min0 <- item min_time_positions 0 ;;
  max0 <- item max_time_positions 0 ;;
  maxv0 <- item max_potential_values 0 ;;
  if Qgtb min0 max0 then
    let saved_indexes :=
      mask_and (map (fun p => Qltb p maxv0) potential_array)
               (map (fun t => Qgtb t max0) time_potential) in
    p_last <- last_item potential_array ;;
    p_first <- item potential_array 0 ;;
    if Qltb p_last p_first
    then Raise (RuntimeError not_well_defined_message)
    else return_sep (Some (keep saved_indexes time_potential potential_array))
  else
    let saved_indexes :=
      mask_and (map (fun p => Qltb p maxv0) potential_array)
               (map (fun t => Qltb t max0) time_potential) in
    p_last <- last_item potential_array ;;
    p_first <- item potential_array 0 ;;
    if Qgtb p_last p_first
    then Raise (RuntimeError not_well_defined_message)
    else return_sep (Some (keep saved_indexes time_potential potential_array)).

(** The branch [n_maxima == 2]. *)
Definition cut_two_maxima (time_potential potential_array : list Q)
    (min_time_positions max_time_positions max_potential_values : list Q)
  : outcome cut :=
  lower_maximum_value <- amin max_potential_values ;;
  higher_maximum_value <- amax max_potential_values ;;
  let lower_maximum_time :=
    select (map (fun v => Qeq_bool v lower_maximum_value) max_potential_values)
           max_time_positions in
  let higher_maximum_time :=
    select (map (fun v => Qeq_bool v higher_maximum_value) max_potential_values)
           max_time_positions in
  let below := map (fun p => Qltb p lower_maximum_value) potential_array in
  if Nat.eqb (length lower_maximum_time) 2 then
    t0 <- item lower_maximum_time 0 ;;
    t1 <- item lower_maximum_time 1 ;;
    let saved_indexes :=
      mask_and (mask_and below (map (fun t => Qgtb t t0) time_potential))
               (map (fun t => Qltb t t1) time_potential) in
    return_sep (Some (keep saved_indexes time_potential potential_array))
  else
    min0 <- item min_time_positions 0 ;;
    lower_time <- item lower_maximum_time 0 ;;
    higher_time <- item higher_maximum_time 0 ;;
    if Qgtb min0 lower_time then
      let saved_indexes :=
        mask_and (mask_and below (map (fun t => Qgtb t lower_time) time_potential))
                 (map (fun t => Qltb t higher_time) time_potential) in
      return_sep (Some (keep saved_indexes time_potential potential_array))
    else
      let saved_indexes :=
        mask_and (mask_and below (map (fun t => Qltb t lower_time) time_potential))
                 (map (fun t => Qgtb t higher_time) time_potential) in
      return_sep (Some (keep saved_indexes time_potential potential_array)).

(** The branch [n_maxima > 2].  [np.min([left_max_value, right_max_value])]
    is taken over the two selections together; selections of different
    lengths do not form an array. *)
Definition cut_many_maxima (time_potential potential_array : list Q)
    (max_time_positions max_potential_values : list Q)
  : outcome cut :=
  left_max_time <- amin max_time_positions ;;
  right_max_time <- amax max_time_positions ;;
  let left_max_value :=
    select (map (fun t => Qeq_bool t left_max_time) max_time_positions)
           max_potential_values in
  let right_max_value :=
    select (map (fun t => Qeq_bool t right_max_time) max_time_positions)
           max_potential_values in
  if Nat.eqb (length left_max_value) (length right_max_value) then
    separatrix_value <- amin (left_max_value ++ right_max_value) ;;
    let saved_indexes :=
      mask_and (mask_and (map (fun t => Qgtb t left_max_time) time_potential)
                         (map (fun t => Qltb t right_max_time) time_potential))
               (map (fun p => Qltb p separatrix_value) potential_array) in
    return_sep (Some (keep saved_indexes time_potential potential_array))
  else
    Raise (ValueError "setting an array element with a sequence.").

(** The body of [potential_well_cut] after the call of
    [minmax_location]. *)
Definition cut_from_extrema (time_potential potential_array : list Q)
    (minmax : extrema) : list diagnostic * outcome cut :=
  let '((min_time_positions, max_time_positions), (_, max_potential_values)) := minmax in
  let n_minima := length min_time_positions in
  let n_maxima := length max_time_positions in
  if Nat.eqb n_minima 0 then
    ([], Raise (RuntimeError no_minima_message))
  else if Nat.ltb n_maxima n_minima && Nat.eqb n_maxima 1 then
    ([], Raise (RuntimeError more_minima_message))
  else if Nat.eqb n_maxima 0 then
    ([Printed no_maximum_warning], return_sep None)
  else if Nat.eqb n_maxima 1 then
    ([], cut_one_maximum time_potential potential_array
           min_time_positions max_time_positions max_potential_values)
  else if Nat.eqb n_maxima 2 then
    ([], cut_two_maxima time_potential potential_array
           min_time_positions max_time_positions max_potential_values)
  else
    ([], cut_many_maxima time_potential potential_array
           max_time_positions max_potential_values).

Definition potential_well_cut (time_potential potential_array : list Q)
  : list diagnostic * outcome cut :=
  match minmax_location time_potential potential_array with
  | Raise e => ([], Raise e)
  | Return minmax => cut_from_extrema time_potential potential_array minmax
  end.

(** The boundary test of the one-maximum branch fails: the cut is taken to
    the right of the maximum and the last potential value is below the
    first, or it is taken to the left and the last value is above the
    first. *)
Definition boundary_inconsistent (potential_array : list Q) (min0 max0 : Q) : Prop :=
  (max0 < min0 /\ last potential_array 0 < nth 0 potential_array 0)
  \/ (min0 <= max0 /\ nth 0 potential_array 0 < last potential_array 0).

End PotentialWell.

(* ================================================================== *)
(** * Particle-trajectory frequency tracker *)

Module Tracker.
Import Py Np.
Local Open Scope Q_scope.
Local Open Scope py_scope.

(** The attributes of a [synchrotron_frequency_tracker] that
    [frequency_calculation] reads or writes.  [theta_save] and [dE_save]
    have one row per turn and one column per particle. *)
Record synchrotron_frequency_tracker : Type := {
  n_macroparticles : nat;
  timeStep : Q;
  nTurns : nat;
  theta_save : list (list Q);
  dE_save : list (list Q);
  frequency_theta_save : list Q;
  frequency_dE_save : list Q;
  max_theta_save : list Q;
  min_theta_save : list Q;
  frequency_array : list Q
}.

(** A bound of a Python slice over a sequence of length [len]. *)
Definition slice_bound (len : nat) (i : Z) : nat :=
  if (i <? 0)%Z
  then Z.to_nat (Z.max 0 (i + Z.of_nat len))
  else Nat.min (Z.to_nat i) len.

(** [a[start:stop]]. *)
Definition slice {A : Type} (a : list A) (start stop : Z) : list A :=
  let lo := slice_bound (length a) start in
  let hi := slice_bound (length a) stop in
  firstn (hi - lo) (skipn lo a).

Fixpoint for_each {A B : Type} (f : A -> outcome B) (l : list A) : outcome (list B) :=
  match l with
  | [] => Return []
  | a :: l' =>
      b <- f a ;;
      bs <- for_each f l' ;;
      Return (b :: bs)
  end.

(** [m[start:stop, i]]. *)
Definition column (m : list (list Q)) (start stop : Z) (i : nat) : outcome (list Q) :=
  for_each (fun row => item row i) (slice m start stop).

(** [a[i] = v] for [i] in range. *)
Fixpoint set_item (a : list Q) (i : nat) (v : Q) : list Q :=
  match a, i with
  | [], _ => []
  | _ :: a', O => v :: a'
  | w :: a', S i' => w :: set_item a' i' v
  end.

(** [np.zeros(n)]. *)
Definition zeros (n : nat) : list Q := repeat 0 n.

(** [np.fft.rfftfreq(n, d)]. *)
Definition rfftfreq (n : nat) (d : Q) : outcome (list Q) :=
  let nd := inject_Z (Z.of_nat n) * d in
  if Qeq_bool nd 0 then Raise ZeroDivisionError
  else Return (map (fun k => inject_Z (Z.of_nat k) * (1 / nd)) (seq 0 (S (n / 2)))).

(** Storing an array in one slot of a float array: an array of one
    element is stored as that element, any other size is refused. *)
Definition as_scalar (a : list Q) : outcome Q :=
  match a with
  | [v] => Return v
  | _ => Raise (ValueError "setting an array element with a sequence.")
  end.

(** The test of source line 335: the particle stays strictly inside the
    range of the initial ensemble. *)
Definition inside_initial_range (max_theta min_theta max_theta_range min_theta_range : Q)
  : bool :=
  Qltb max_theta max_theta_range && Qgtb min_theta min_theta_range.

(** [if start_turn is None: start_turn = 0]. *)
Definition window_start (start_turn : option Z) : Z :=
  match start_turn with
  | None => 0%Z
  | Some t => t
  end.

(** [if end_turn is None: end_turn = self.nTurns + 1]. *)
Definition window_end (self : synchrotron_frequency_tracker) (end_turn : option Z) : Z :=
  match end_turn with
  | None => Z.of_nat (nTurns self + 1)
  | Some t => t
  end.

(** The excursion [[min_theta, max_theta]] of a particle goes beyond the
    range [[min_theta_range, max_theta_range]] of the initial ensemble. *)
Definition exceeds_initial_range (max_theta min_theta max_theta_range min_theta_range : Q)
  : Prop :=
  max_theta_range < max_theta \/ min_theta < min_theta_range.

Section Spectrum.

(** [abs(np.fft.rfft(a, n))], the magnitude spectrum of [a] padded or
    cut to [n] samples.  The transform is NumPy's; its values are
    irrational in general and it is kept abstract. *)
Variable abs_rfft : list Q -> nat -> list Q.

(** [frequency_array[fft == np.max(fft)]] for the series [a] with its
    mean removed, stored in one slot. *)
Definition peak_frequency (frequency_array : list Q) (n_sampling : nat) (a : list Q)
  : outcome Q :=
  let fft := abs_rfft (map (fun v => v - mean a) a) n_sampling in
  top <- amax fft ;;
  as_scalar (select (map (fun m => Qeq_bool m top) fft) frequency_array).

(** One turn of the loop over the particles. *)
Definition particle_step (n_sampling : nat) (start_turn end_turn : Z)
    (max_theta_range min_theta_range : Q)
    (self : synchrotron_frequency_tracker) (indexParticle : nat)
  : outcome synchrotron_frequency_tracker :=
  theta <- column (theta_save self) start_turn end_turn indexParticle ;;
  max_theta <- amax theta ;;
  min_theta <- amin theta ;;
  let max_theta_save' := set_item (max_theta_save self) indexParticle max_theta in
  let min_theta_save' := set_item (min_theta_save self) indexParticle min_theta in
  if inside_initial_range max_theta min_theta max_theta_range min_theta_range then
    dE <- column (dE_save self) start_turn end_turn indexParticle ;;
    f_theta <- peak_frequency (frequency_array self) n_sampling theta ;;
    f_dE <- peak_frequency (frequency_array self) n_sampling dE ;;
    Return {| n_macroparticles := n_macroparticles self;
              timeStep := timeStep self;
              nTurns := nTurns self;
              theta_save := theta_save self;
              dE_save := dE_save self;
              frequency_theta_save :=
                set_item (frequency_theta_save self) indexParticle f_theta;
              frequency_dE_save :=
                set_item (frequency_dE_save self) indexParticle f_dE;
              max_theta_save := max_theta_save';
              min_theta_save := min_theta_save';
              frequency_array := frequency_array self |}
  else
    Return {| n_macroparticles := n_macroparticles self;
              timeStep := timeStep self;
              nTurns := nTurns self;
              theta_save := theta_save self;
              dE_save := dE_save self;
              frequency_theta_save := frequency_theta_save self;
              frequency_dE_save := frequency_dE_save self;
              max_theta_save := max_theta_save';
              min_theta_save := min_theta_save';
              frequency_array := frequency_array self |}.

(** [for indexParticle in ...]: the first exception ends the loop. *)
Fixpoint particle_loop (n_sampling : nat) (start_turn end_turn : Z)
    (max_theta_range min_theta_range : Q)
    (indexes : list nat) (self : synchrotron_frequency_tracker)
  : outcome synchrotron_frequency_tracker :=
  match indexes with
  | [] => Return self
  | indexParticle :: indexes' =>
      self' <- particle_step n_sampling start_turn end_turn
                 max_theta_range min_theta_range self indexParticle ;;
      particle_loop n_sampling start_turn end_turn
        max_theta_range min_theta_range indexes' self'
  end.

(** [frequency_calculation]; the result is the tracker after the call.
    [None] for [start_turn] or [end_turn] is Python's [None]. *)
Definition frequency_calculation (self : synchrotron_frequency_tracker)
    (n_sampling : nat) (start_turn end_turn : option Z)
  : outcome synchrotron_frequency_tracker :=
  let n := n_macroparticles self in
  first_turn <- item (theta_save self) 0 ;;
  max_theta_range <- amax first_turn ;;
  min_theta_range <- amin first_turn ;;
  frequency_array' <- rfftfreq n_sampling (timeStep self) ;;
  let start_turn := window_start start_turn in
  let end_turn := window_end self end_turn in
  particle_loop n_sampling start_turn end_turn max_theta_range min_theta_range
    (seq 0 n)
    {| n_macroparticles := n;
       timeStep := timeStep self;
       nTurns := nTurns self;
       theta_save := theta_save self;
       dE_save := dE_save self;
       frequency_theta_save := zeros n;
       frequency_dE_save := zeros n;
       max_theta_save := zeros n;
       min_theta_save := zeros n;
       frequency_array := frequency_array' |}.

(** What the call leaves for particle [i] in the tracker [self']: the
    extremes of its excursion over the window; two peak estimates, one from
    the theta series and one from the dE series, when the excursion is
    strictly inside the initial range; zeros when it reaches or passes
    either end of that range. *)
Definition particle_settled (n_sampling : nat) (start_turn end_turn : Z)
    (max_theta_range min_theta_range : Q)
    (self' : synchrotron_frequency_tracker) (i : nat) : Prop :=
  exists (theta : list Q) (max_theta min_theta : Q),
    column (theta_save self') start_turn end_turn i = Return theta
    /\ amax theta = Return max_theta
    /\ amin theta = Return min_theta
    /\ nth i (max_theta_save self') 0 = max_theta
    /\ nth i (min_theta_save self') 0 = min_theta
    /\ (max_theta < max_theta_range /\ min_theta_range < min_theta ->
        exists dE : list Q,
          column (dE_save self') start_turn end_turn i = Return dE
          /\ peak_frequency (frequency_array self') n_sampling theta
             = Return (nth i (frequency_theta_save self') 0)
          /\ peak_frequency (frequency_array self') n_sampling dE
             = Return (nth i (frequency_dE_save self') 0))
    /\ (max_theta_range <= max_theta \/ min_theta <= min_theta_range ->
        nth i (frequency_theta_save self') 0 = 0
        /\ nth i (frequency_dE_save self') 0 = 0).

End Spectrum.

(** The four result arrays have [n] slots. *)
Definition result_lengths (self : synchrotron_frequency_tracker) (n : nat) : Prop :=
  length (frequency_theta_save self) = n
  /\ length (frequency_dE_save self) = n
  /\ length (max_theta_save self) = n
  /\ length (min_theta_save self) = n.

(** Two trackers hold the same histories and frequency array. *)
Definition same_inputs (self self' : synchrotron_frequency_tracker) : Prop :=
  n_macroparticles self' = n_macroparticles self
  /\ theta_save self' = theta_save self
  /\ dE_save self' = dE_save self
  /\ frequency_array self' = frequency_array self.

(** Two trackers hold the same results for particle [i]. *)
Definition same_slot (i : nat) (self self' : synchrotron_frequency_tracker) : Prop :=
  nth i (frequency_theta_save self') 0 = nth i (frequency_theta_save self) 0
  /\ nth i (frequency_dE_save self') 0 = nth i (frequency_dE_save self) 0
  /\ nth i (max_theta_save self') 0 = nth i (max_theta_save self) 0
  /\ nth i (min_theta_save self') 0 = nth i (min_theta_save self) 0.

(** The magnitude spectrum for a transform on two samples: the series is
    cut or padded with zeros to [[a0, a1]] and its transform is
    [[a0 + a1, a0 - a1]].  It is [abs(np.fft.rfft(a, 2))]. *)
Definition abs_rfft_two_samples (a : list Q) (n : nat) : list Q :=
  let a0 := nth 0 a 0 in
  let a1 := nth 1 a 0 in
  [Qabs (a0 + a1); Qabs (a0 - a1)].

(** Three probe particles over two turns.  The outer two stay where they
    start, at the two ends of the initial range; the middle one moves. *)
Definition three_particles : synchrotron_frequency_tracker :=
  {| n_macroparticles := 3;
     timeStep := 1;
     nTurns := 2;
     theta_save := [[-1; 0; 1]; [-1; 1 # 2; 1]];
     dE_save := [[0; 0; 0]; [0; 1; 0]];
     frequency_theta_save := [];
     frequency_dE_save := [];
     max_theta_save := [];
     min_theta_save := [];
     frequency_array := [] |}.

End Tracker.

(* ================================================================== *)
(** * Phase and time normalisation *)

Module Normalization.
Local Open Scope R_scope.

(** [np.floor], with its result read as a real number. *)
Definition np_floor (x : R) : R := IZR (Zfloor x).

Definition phase_modulo_above_transition (phi : R) : R :=
  phi - 2 * PI * np_floor (phi / (2 * PI)).

Definition phase_modulo_below_transition (phi : R) : R :=
  phi - 2 * PI * np_floor (phi / (2 * PI) + 0.5).

Definition time_modulo (dt dt_offset T : R) : R :=
  dt - T * np_floor ((dt + dt_offset) / T).

End Normalization.

(* ================================================================== *)
(** * Total voltage, Hamiltonian, separatrix and the in-bucket test *)

(** The ring parameters the functions read. *)
Module GeneralParameters.
Record t : Type := {
  n_sections : nat;
  ring_circumference : R;
  charge : R;
  t_rev : nat -> R
}.
End GeneralParameters.

Module Beam.
Record t : Type := {
  beta : R;
  energy : R
}.
End Beam.

(** The programs of one RF section.  A two-dimensional array is read as
  [a i k] for [a[i,k]] (RF system [i], turn [k]) and a one-dimensional one
  as [a k]; [counter] is [counter[0]], the current turn.  [eta_tracking] is
  the method of that name; its code is not part of the sources. *)
Module RFSectionParameters.
Record t : Type := {
  n_rf : nat;
  counter : nat;
  harmonic : nat -> nat -> R;
  voltage : nat -> nat -> R;
  omega_RF : nat -> nat -> R;
  phi_RF : nat -> nat -> R;
  phi_s : nat -> R;
  eta_0 : nat -> R;
  beta : nat -> R;
  energy : nat -> R;
  charge : R;
  eta_tracking : Beam.t -> nat -> R -> R
}.
End RFSectionParameters.

Module RF.
Import Py Normalization.
Local Open Scope R_scope.

(** [scipy.constants.c]. *)
Definition c : R := 299792458.

(** What [total_voltage] hands back: an array over the turns, the integer
    of the unfinished mode, or Python's [None] when the function ends
    without a [return]. *)
Inductive value : Type :=
| Array (a : nat -> R)
| Int (z : Z)
| NoneValue.

(** What [total_voltage] writes: [print(RFsection_list[i].voltage[0])] is
    recorded by the index [i] of the section, a warning by its text. *)
Inductive report : Type :=
| PrintedVoltage (i : nat)
| Warning (text : string).

Definition harmonic_not_recognized : string :=
  "WARNING: In total_voltage, harmonic choice not recognize!".

(** The loop [for i in range(1, n_sections)] on the sections from index [i]
    on: each one is printed and added to the two sums, turn by turn. *)
Fixpoint add_sections (i : nat) (sections : list RFSectionParameters.t)
    (Vcos Vsin : nat -> R) (out : list report)
  : (nat -> R) * (nat -> R) * list report :=
  match sections with
  | [] => (Vcos, Vsin, out)
  | s :: sections' =>
      add_sections (S i) sections'
        (fun k => Vcos k + RFSectionParameters.voltage s 0 k
                           * cos (RFSectionParameters.phi_RF s 0 k))
        (fun k => Vsin k + RFSectionParameters.voltage s 0 k
                           * sin (RFSectionParameters.phi_RF s 0 k))
        (out ++ [PrintedVoltage i])
  end.

Definition total_voltage (RFsection_list : list RFSectionParameters.t)
    (harmonic : string) : list report * outcome value :=
  if String.eqb harmonic "first" then
    match RFsection_list with
    | [] => ([], Raise IndexError)
    | s0 :: others =>
        let Vcos k := RFSectionParameters.voltage s0 0 k
                      * cos (RFSectionParameters.phi_RF s0 0 k) in
        let Vsin k := RFSectionParameters.voltage s0 0 k
                      * sin (RFSectionParameters.phi_RF s0 0 k) in
        let '(Vcos, Vsin, out) := add_sections 1 others Vcos Vsin [] in
        (out, Return (Array (fun k => sqrt ((Vcos k) ^ 2 + (Vsin k) ^ 2))))
    end
  else if String.eqb harmonic "all" then
    ([], Return (Int 0))
  else
    ([Warning harmonic_not_recognized], Return NoneValue).

(** The cosine and the sine component of the first-harmonic voltage,
    summed over the sections, at turn [k]. *)
Definition first_harmonic_cos (sections : list RFSectionParameters.t) (k : nat) : R :=
  fold_right (fun s acc => RFSectionParameters.voltage s 0 k
                           * cos (RFSectionParameters.phi_RF s 0 k) + acc) 0 sections.

Definition first_harmonic_sin (sections : list RFSectionParameters.t) (k : nat) : R :=
  fold_right (fun s acc => RFSectionParameters.voltage s 0 k
                           * sin (RFSectionParameters.phi_RF s 0 k) + acc) 0 sections.

Definition hamiltonian_sections_warning : string :=
  "WARNING: The Hamiltonian is not yet properly computed for several sections!".
Definition hamiltonian_harmonics_warning : string :=
  "WARNING: The Hamiltonian will be calculated for the first harmonic only!".
Definition separatrix_sections_warning : string :=
  "WARNING: The separatrix is not yet properly computed for several sections!".
Definition is_in_separatrix_sections_warning : string :=
  "WARNING: is_in_separatrix is not yet properly computed for several sections!".
Definition is_in_separatrix_harmonics_warning : string :=
  "WARNING: is_in_separatrix will be calculated for the first harmonic only!".

Definition warn_if (b : bool) (text : string) : list diagnostic :=
  if b then [Warned text] else [].

(** [hamiltonian] at one point [(dt, dE)]; on arrays NumPy applies it
    point by point.  [total_voltage] is the optional argument, [None] when
    it is left out. *)
Definition hamiltonian (GP : GeneralParameters.t) (RFP : RFSectionParameters.t)
    (B : Beam.t) (dt dE : R) (total_voltage : option (nat -> R))
  : list diagnostic * R :=
  let warnings :=
    warn_if (1 <? GeneralParameters.n_sections GP)%nat hamiltonian_sections_warning
    ++ warn_if (1 <? RFSectionParameters.n_rf RFP)%nat hamiltonian_harmonics_warning in
  let counter := RFSectionParameters.counter RFP in
  let h0 := RFSectionParameters.harmonic RFP 0 counter in
  let V0 :=
    match total_voltage with
    | None => RFSectionParameters.voltage RFP 0 counter
    | Some tv => tv counter
    end in
  let V0 := V0 * RFSectionParameters.charge RFP in
  let c1 := RFSectionParameters.eta_tracking RFP B counter dE * c * PI
            / (GeneralParameters.ring_circumference GP * Beam.beta B * Beam.energy B) in
  let c2 := c * Beam.beta B * V0 / (h0 * GeneralParameters.ring_circumference GP) in
  let phi_s := RFSectionParameters.phi_s RFP counter in
  let phi_b := RFSectionParameters.omega_RF RFP 0 counter * dt
               + RFSectionParameters.phi_RF RFP 0 counter in
  let eta0 := RFSectionParameters.eta_0 RFP counter in
  let phi_b :=
    if Rlt_dec eta0 0 then phase_modulo_below_transition phi_b
    else if Rlt_dec 0 eta0 then phase_modulo_above_transition phi_b
    else phi_b in
  (warnings,
   c1 * dE ^ 2 + c2 * (cos phi_b - cos phi_s + (phi_b - phi_s) * sin phi_s)).

(** [np.sqrt]: not-a-number, here [None], below zero. *)
Definition np_sqrt (x : R) : option R :=
  if Rle_dec 0 x then Some (sqrt x) else None.

(** The projection of [dt] into one RF period at the head of
    [separatrix]. *)
Definition separatrix_fold (RFP : RFSectionParameters.t) (dt : R) : R :=
  let counter := RFSectionParameters.counter RFP in
  let omega_RF := RFSectionParameters.omega_RF RFP 0 counter in
  let phi_RF := RFSectionParameters.phi_RF RFP 0 counter in
  let eta0 := RFSectionParameters.eta_0 RFP counter in
  if Rlt_dec eta0 0 then
    time_modulo dt ((phi_RF - PI) / omega_RF) (2 * PI / omega_RF)
  else if Rlt_dec 0 eta0 then
    time_modulo dt (phi_RF / omega_RF) (2 * PI / omega_RF)
  else dt.

(** The quantity under the square root for a single-harmonic system, at
    the projected time [dt]. *)
Definition single_harmonic_radicand (GP : GeneralParameters.t)
    (RFP : RFSectionParameters.t) (dt : R) (total_voltage : option (nat -> R)) : R :=
  let counter := RFSectionParameters.counter RFP in
  let voltage := GeneralParameters.charge GP * RFSectionParameters.voltage RFP 0 counter in
  let omega_RF := RFSectionParameters.omega_RF RFP 0 counter in
  let phi_RF := RFSectionParameters.phi_RF RFP 0 counter in
  let eta0 := RFSectionParameters.eta_0 RFP counter in
  let beta_sq := RFSectionParameters.beta RFP counter ^ 2 in
  let energy := RFSectionParameters.energy RFP counter in
  let h0 := RFSectionParameters.harmonic RFP 0 counter in
  let V0 :=
    match total_voltage with
    | None => voltage
    | Some tv => tv counter
    end in
  let phi_s := RFSectionParameters.phi_s RFP counter in
  let phi_b := omega_RF * dt + phi_RF in
  beta_sq * energy * V0 / (PI * eta0 * h0)
  * (- cos phi_b - cos phi_s + (PI - phi_s - phi_b) * sin phi_s).

Section Separatrix.

(** The branch for several harmonics (a scan of the RF waveform for the
    unstable fixed point, then the generalised energy relation), at the
    projected time.  No property below depends on it and it is kept
    abstract. *)
Variable multi_harmonic_separatrix :
  GeneralParameters.t -> RFSectionParameters.t -> R -> option R.

(** [separatrix] at one time [dt]; on arrays NumPy applies it point by
    point.  [None] is not-a-number.  The divisions are those of [R]:
    the properties below assume the denominators differ from zero. *)
Definition separatrix (GP : GeneralParameters.t) (RFP : RFSectionParameters.t)
    (dt : R) (total_voltage : option (nat -> R)) : list diagnostic * option R :=
  let warnings :=
    warn_if (1 <? GeneralParameters.n_sections GP)%nat separatrix_sections_warning in
  let dt := separatrix_fold RFP dt in
  if Nat.eqb (RFSectionParameters.n_rf RFP) 1 then
    (warnings, np_sqrt (single_harmonic_radicand GP RFP dt total_voltage))
  else
    (warnings, multi_harmonic_separatrix GP RFP dt).

End Separatrix.

(** The RF phase of a particle at the time offset [dt], before any
    projection. *)
Definition bunch_phase (RFP : RFSectionParameters.t) (dt : R) : R :=
  let counter := RFSectionParameters.counter RFP in
  RFSectionParameters.omega_RF RFP 0 counter * dt
  + RFSectionParameters.phi_RF RFP 0 counter.

(** The time offset [dt] lies in the period [separatrix] projects to:
    phases [[0, 2*pi)] for a positive slip factor and [[pi, 3*pi)] for a
    negative one. *)
Definition in_projected_period (RFP : RFSectionParameters.t) (dt : R) : Prop :=
  let eta0 := RFSectionParameters.eta_0 RFP (RFSectionParameters.counter RFP) in
  (0 < eta0 -> 0 <= bunch_phase RFP dt < 2 * PI)
  /\ (eta0 < 0 -> PI <= bunch_phase RFP dt < 3 * PI).

(** The constant in front of the single-harmonic separatrix,
    [beta^2*E*V0/(pi*eta*h)]. *)
Definition separatrix_factor (GP : GeneralParameters.t) (RFP : RFSectionParameters.t)
    (total_voltage : option (nat -> R)) : R :=
  let counter := RFSectionParameters.counter RFP in
  let V0 :=
    match total_voltage with
    | None => GeneralParameters.charge GP * RFSectionParameters.voltage RFP 0 counter
    | Some tv => tv counter
    end in
  RFSectionParameters.beta RFP counter ^ 2 * RFSectionParameters.energy RFP counter * V0
  / (PI * RFSectionParameters.eta_0 RFP counter * RFSectionParameters.harmonic RFP 0 counter).

(** [np.fabs(a) < np.fabs(b)]. *)
Definition fabs_lt (a b : R) : bool :=
  if Rlt_dec (Rabs a) (Rabs b) then true else false.

(** The bucket-edge time of [is_in_separatrix]. *)
Definition dt_sep (RFP : RFSectionParameters.t) : R :=
  let counter := RFSectionParameters.counter RFP in
  (PI - RFSectionParameters.phi_s RFP counter
      - RFSectionParameters.phi_RF RFP 0 counter)
  / RFSectionParameters.omega_RF RFP 0 counter.

(** [is_in_separatrix] at one point.  Both calls of [hamiltonian] are
    written with [total_voltage = None] in the source. *)
Definition is_in_separatrix (GP : GeneralParameters.t) (RFP : RFSectionParameters.t)
    (B : Beam.t) (dt dE : R) (total_voltage : option (nat -> R))
  : list diagnostic * bool :=
  let warnings :=
    warn_if (1 <? GeneralParameters.n_sections GP)%nat is_in_separatrix_sections_warning
    ++ warn_if (1 <? RFSectionParameters.n_rf RFP)%nat is_in_separatrix_harmonics_warning in
  let '(w1, Hsep) := hamiltonian GP RFP B (dt_sep RFP) 0 None in
  let '(w2, H) := hamiltonian GP RFP B dt dE None in
  (warnings ++ w1 ++ w2, fabs_lt H Hsep).

(** The direct check the in-bucket test is compared with:
    [|H(dt, dE)| < |H(dt_sep, 0)|], both values computed by [hamiltonian]
    with the [total_voltage] the caller gives. *)
Definition direct_check (GP : GeneralParameters.t) (RFP : RFSectionParameters.t)
    (B : Beam.t) (dt dE : R) (total_voltage : option (nat -> R)) : bool :=
  fabs_lt (snd (hamiltonian GP RFP B dt dE total_voltage))
          (snd (hamiltonian GP RFP B (dt_sep RFP) 0 total_voltage)).

(** A ring of one section and a stationary bucket above transition:
    slip factor 1, synchronous phase [pi], unit voltage, harmonic,
    angular frequency, energy and charge, RF phase 0. *)
Definition unit_ring : GeneralParameters.t :=
  {| GeneralParameters.n_sections := 1;
     GeneralParameters.ring_circumference := 1;
     GeneralParameters.charge := 1;
     GeneralParameters.t_rev := fun _ => 1 |}.

Definition unit_beam : Beam.t :=
  {| Beam.beta := 1; Beam.energy := 1 |}.

Definition stationary_above : RFSectionParameters.t :=
  {| RFSectionParameters.n_rf := 1;
     RFSectionParameters.counter := 0;
     RFSectionParameters.harmonic := fun _ _ => 1;
     RFSectionParameters.voltage := fun _ _ => 1;
     RFSectionParameters.omega_RF := fun _ _ => 1;
     RFSectionParameters.phi_RF := fun _ _ => 0;
     RFSectionParameters.phi_s := fun _ => PI;
     RFSectionParameters.eta_0 := fun _ => 1;
     RFSectionParameters.beta := fun _ => 1;
     RFSectionParameters.energy := fun _ => 1;
     RFSectionParameters.charge := 1;
     RFSectionParameters.eta_tracking := fun _ _ _ => 1 |}.

(** A value for the branch of several harmonics where it is not taken. *)
Definition branch_not_taken : GeneralParameters.t -> RFSectionParameters.t -> R -> option R :=
  fun _ _ _ => None.

End RF.

(* ================================================================== *)
(** * Auxiliary notions for the Hamiltonian and the total voltage *)

Module Bucket.
Local Open Scope R_scope.

(** The phase [phi] lies in the interval that [hamiltonian] projects the
    bunch phase to: [[0, 2*pi)] for a positive slip factor and [[-pi, pi)]
    for a negative one; at a zero slip factor no projection is made. *)
Definition in_hamiltonian_interval (RFP : RFSectionParameters.t) (phi : R) : Prop :=
  let eta0 := RFSectionParameters.eta_0 RFP (RFSectionParameters.counter RFP) in
  (0 < eta0 -> 0 <= phi < 2 * PI) /\ (eta0 < 0 -> - PI <= phi < PI).

(** The sum of the absolute first-harmonic voltages of the sections at turn
    [k]. *)
Definition sum_abs_voltage (sections : list RFSectionParameters.t) (k : nat) : R :=
  fold_right (fun s acc => Rabs (RFSectionParameters.voltage s 0 k) + acc) 0 sections.

End Bucket.

(* ================================================================== *)
(** * Filters of the control loops: the feedback comb filter and the moving
      average *)

Module SignalProcessing.
Import Py Np.
Local Open Scope Q_scope.
Local Open Scope py_scope.

(** [comb_filter] on one sample; on arrays NumPy applies it sample by
    sample. *)
Definition comb_filter (x y a : Q) : Q := a * y + (1 - a) * x.

(** What [moving_average] prints: [print("No points", N_half)] and
    [print(x_prev)]. *)
Inductive printed : Type :=
| NoPoints (N_half : Z)
| Value (v : Q).

(** [np.cumsum] with a running total that starts at [total]. *)
Fixpoint cumsum_from (total : Q) (a : list Q) : list Q :=
  match a with
  | [] => []
  | v :: a' => (total + v) :: cumsum_from (total + v) a'
  end.

(** [np.cumsum]. *)
Definition cumsum (a : list Q) : list Q := cumsum_from 0 a.

(** [np.ones(n)] for an integer [n]: a negative size is refused. *)
Definition ones (n : Z) : outcome (list Q) :=
  if (n <? 0)%Z then Raise (ValueError "negative dimensions are not allowed")
  else Return (repeat 1 (Z.to_nat n)).

(** The difference [a - b] of two arrays: sample by sample for arrays of
    one length, a one-sample array is stretched over the other one, any
    other pair of lengths is refused. *)
Definition subtract (a b : list Q) : outcome (list Q) :=
  if Nat.eqb (length a) (length b)
  then Return (map (fun p => fst p - snd p) (combine a b))
  else match a, b with
       | [v], _ => Return (map (fun w => v - w) b)
       | _, [w] => Return (map (fun v => v - w) a)
       | _, _ => Raise (ValueError "operands could not be broadcast together")
       end.

(** [a[n:]] and [a[:-n]] for an integer [n], with Python's reading of
    negative bounds. *)
Definition from_index (a : list Q) (n : Z) : list Q :=
  Tracker.slice a n (Z.of_nat (length a)).

Definition up_to_minus (a : list Q) (n : Z) : list Q :=
  Tracker.slice a 0 (- n).

(** [moving_average(x, N, x_prev)].  [x_prev] is [None] when the argument
    is left out; [if x_prev:] takes a number for true when it is not 0.
    [int(N/2)] rounds towards zero. *)
Definition moving_average (x : list Q) (N : Z) (x_prev : option Q)
  : list printed * outcome (list Q) :=
  let truthy :=
    match x_prev with
    | None => false
    | Some v => negb (Qeq_bool v 0)
    end in
  let '(out, padded) :=
    if truthy then
      let x_prev := match x_prev with Some v => v | None => 0 end in
      let N_half := Z.quot N 2 in
      let N := (N_half * 2 + 1)%Z in
      ([NoPoints N_half; Value x_prev],
       before <- ones N_half ;;
       last <- last_item x ;;
       after <- ones N_half ;;
       Return (N, map (fun o => x_prev * o) before ++ x ++ map (fun o => last * o) after))
    else ([], Return (N, x)) in
  (out,
   '(N, x) <- padded ;;
   let cumulative_sum := cumsum (0 :: x) in
   d <- subtract (from_index cumulative_sum N) (up_to_minus cumulative_sum N) ;;
   Return (map (fun v => v / inject_Z N) d)).

(** The sum of the [N] samples of [x] from position [i] on. *)
Definition window_sum (x : list Q) (i N : nat) : Q :=
  fold_right Qplus 0 (firstn N (skipn i x)).

End SignalProcessing.

(* ================================================================== *)
(** * Conversions between polar and Cartesian (I,Q) signals, and the
      modulator *)

Module IQ.
Import Py.
Local Open Scope R_scope.

(** A complex sample, as its real (in-phase) and imaginary (quadrature)
    part.  The calls of [logger.debug] write to the log only and are left
    out. *)
Definition complex : Type := (R * R)%type.

(** [polar_to_cartesian] on one sample:
    [amplitude*(np.cos(phase) + 1j*np.sin(phase))]. *)
Definition polar_to_cartesian (amplitude phase : R) : complex :=
  (amplitude * cos phase, amplitude * sin phase).

(** [np.absolute] of a complex sample. *)
Definition np_absolute (z : complex) : R := sqrt (fst z ^ 2 + snd z ^ 2).

(** [np.arctan2(y, x)], the angle of the point [(x, y)] in [(-pi, pi]]. *)
Definition np_arctan2 (y x : R) : R :=
  if Rlt_dec 0 x then atan (y / x)
  else if Rlt_dec x 0 then
         if Rle_dec 0 y then atan (y / x) + PI else atan (y / x) - PI
       else if Rlt_dec 0 y then PI / 2
            else if Rlt_dec y 0 then - (PI / 2)
                 else 0.

(** [np.angle] of a complex sample. *)
Definition np_angle (z : complex) : R := np_arctan2 (snd z) (fst z).

(** [cartesian_to_polar] on one sample. *)
Definition cartesian_to_polar (IQ_vector : complex) : R * R :=
  (np_absolute IQ_vector, np_angle IQ_vector).

Definition modulator_not_array : string :=
  "ERROR in filters.py/demodulator: signal should be an array!".

(** [modulator] on a complex array: sample [k] is turned by the angle
    [delta*k].  The [except] branch of the source is for an input that has
    no real and imaginary part, which an array always has. *)
Definition modulator (signal : list complex) (omega_i omega_f T_sampling : R)
  : outcome (list complex) :=
  if (length signal <? 2)%nat then Raise (RuntimeError modulator_not_array)
  else
    let delta := 2 * PI * (omega_i - omega_f) * T_sampling in
    let indices := seq 0 (length signal) in
    Return (map (fun p : nat * complex =>
                   let '(k, z) := p in
                   (cos (delta * INR k) * fst z - sin (delta * INR k) * snd z,
                    sin (delta * INR k) * fst z + cos (delta * INR k) * snd z))
                (combine indices signal)).

(** [np.max] of an array of reals. *)
Definition amax (a : list R) : outcome R :=
  match a with
  | [] => Raise (ValueError "zero-size array to reduction operation maximum which has no identity")
  | v :: a' => Return (fold_left Rmax a' v)
  end.

(** [real_to_cartesian].  A sample is [None] when it is not a number:
    [np.arccos] is only defined on [[-1, 1]], and a zero amplitude divides
    by zero. *)
Definition real_to_cartesian (signal : list R) : outcome (list (option complex)) :=
  match amax signal with
  | Raise e => Raise e
  | Return amplitude =>
      Return (map (fun s =>
                     if Req_dec_T amplitude 0 then None
                     else if Rle_dec (-1) (s / amplitude) then
                            if Rle_dec (s / amplitude) 1
                            then Some (s, amplitude * sin (acos (s / amplitude)))
                            else None
                          else None)
                  signal)
  end.

(** One turn of a sample by the angle [alpha], the operation of the
    modulator on each sample. *)
Definition turned (alpha : R) (z : complex) : complex :=
  (cos alpha * fst z - sin alpha * snd z, sin alpha * fst z + cos alpha * snd z).

End IQ.

(* ================================================================== *)
(** * Frequency offsets: fixed injection frequency and phase slippage *)

Module OffsetFrequency.
Import Py Np.
Local Open Scope Q_scope.
Local Open Scope py_scope.

(** [np.where(a >= level)[0][0]]: the first position at which the array
    reaches [level]; no such position is an [IndexError]. *)
Definition first_reaching (a : list Q) (level : Q) : outcome nat :=
  item (where_true (map (fun v => Qle_bool level v) a)) 0.

(** [np.linspace(start, stop, num)]: [num] values with a constant step, the
    last one set to [stop]. *)
Definition linspace (start stop : Q) (num : Z) : outcome (list Q) :=
  if (num <? 0)%Z
  then Raise (ValueError "Number of samples must be non-negative.")
  else match Z.to_nat num with
       | O => Return []
       | 1%nat => Return [start]
       | S n =>
           let step := (stop - start) / inject_Z (Z.of_nat n) in
           Return (map (fun i => inject_Z (Z.of_nat i) * step + start) (seq 0 n)
                   ++ [stop])
       end.

(** [FixedFrequency.calculate_frequency_prog]: the value of
    [self.frequency_prog] it leaves. *)
Definition calculate_frequency_prog (end_fixed_turn end_transition_turn : nat)
    (fixed_frequency end_frequency : Q) : outcome (list Q) :=
  let fixed_frequency_prog :=
    map (fun o => o * fixed_frequency) (repeat 1 end_fixed_turn) in
  transition_frequency_prog <-
    linspace fixed_frequency end_frequency
      (Z.of_nat end_transition_turn - Z.of_nat end_fixed_turn) ;;
  Return (fixed_frequency_prog ++ transition_frequency_prog).

(** The arrays of an RF station that the offset reads and writes; each has
    one row per RF system and one column per turn, and no two of them share
    their storage. *)
Record rf_station : Type := {
  n_rf : nat;
  harmonic : list (list Q);
  omega_rf_d : list (list Q);
  omega_rf : list (list Q);
  phi_rf : list (list Q)
}.

(** A table of [rows] rows and [cols] columns. *)
Definition table (rows cols : nat) (a : list (list Q)) : Prop :=
  length a = rows /\ Forall (fun r => length r = cols) a.

(** A station whose four arrays are tables of [n_rf] rows and [cols]
    columns. *)
Definition well_shaped (station : rf_station) (cols : nat) : Prop :=
  table (n_rf station) cols (harmonic station)
  /\ table (n_rf station) cols (omega_rf_d station)
  /\ table (n_rf station) cols (omega_rf station)
  /\ table (n_rf station) cols (phi_rf station).

(** Two arrays put side by side as NumPy broadcasts them along one axis:
    entry by entry for equal lengths, a single entry against every entry of
    the other array, and an error for any other pair of lengths. *)
Definition broadcast {A B : Type} (a : list A) (b : list B) : outcome (list (A * B)) :=
  if Nat.eqb (length a) (length b) then Return (combine a b)
  else match a, b with
       | [v], _ => Return (map (fun w => (v, w)) b)
       | _, [w] => Return (map (fun v => (v, w)) a)
       | _, _ => Raise (ValueError "operands could not be broadcast together")
       end.

(** A binary operation on two-dimensional arrays, rows against rows and
    then entries against entries.  A scalar operand is the array of one row
    and one entry, a one-dimensional operand the array of one row. *)
Definition elementwise (op : Q -> Q -> Q) (a b : list (list Q)) : outcome (list (list Q)) :=
  rows <- broadcast a b ;;
  Tracker.for_each
    (fun rr : list Q * list Q =>
       entries <- broadcast (fst rr) (snd rr) ;;
       Return (map (fun e => op (fst e) (snd e)) entries))
    rows.

(** [a[:, :k]]. *)
Definition columns_before (a : list (list Q)) (k : nat) : list (list Q) :=
  map (firstn k) a.

(** [np.cumsum(a, axis=1)]. *)
Definition cumsum_rows (a : list (list Q)) : list (list Q) :=
  map SignalProcessing.cumsum a.

(** A frequency program as [set_frequency] can be given it: a sequence
    that is not an array, a one-dimensional array with one value per turn,
    or the array of the two rows [time] and [frequency]. *)
Inductive program : Type :=
| Sequence (values : list Q)
| Array (values : list Q)
| TimeFrequency (time frequency : list Q).

(** [_FrequencyOffset.set_frequency]: the values of [self.new_frequency],
    [self.end_turn] and [self.design_frequency] it leaves.  An array is read
    as [time] and [frequency] as soon as its first axis has length 2, so for
    a one-dimensional array of two values [NewFrequencyProgram[0][-1]]
    indexes a number. *)
Definition set_frequency (cycle_time : list Q) (station : rf_station)
    (NewFrequencyProgram : program) : outcome (list Q * nat * list (list Q)) :=
  new_frequency <-
    match NewFrequencyProgram with
    | Sequence values => Return values
    | Array values =>
        if Nat.eqb (length values) 2 then Raise IndexError else Return values
    | TimeFrequency time frequency =>
        last <- last_item time ;;
        end_turn <- first_reaching cycle_time last ;;
        interp (firstn end_turn cycle_time) time frequency
    end ;;
  let end_turn := length new_frequency in
  Return (new_frequency, end_turn, columns_before (omega_rf_d station) end_turn).

Section PhaseSlip.

(** The double [np.pi], a rational number. *)
Variable np_pi : Q.

(** [_FrequencyOffset.calculate_phase_slip]: the value of
    [self.phase_slippage] it leaves, from the station, [self.new_frequency],
    [self.end_turn] and [self.design_frequency].  A zero design frequency
    makes the quotient of the source infinite or not a number; the facts
    below are about design frequencies that are not zero. *)
Definition calculate_phase_slip (station : rf_station) (new_frequency : list Q)
    (end_turn : nat) (design_frequency : list (list Q)) : outcome (list (list Q)) :=
  let h := columns_before (harmonic station) end_turn in
  left <- elementwise Qmult [[2 * np_pi]] h ;;
  scaled <- elementwise Qmult h [new_frequency] ;;
  offset <- elementwise Qminus scaled design_frequency ;;
  product <- elementwise Qmult left offset ;;
  delta_phi <- elementwise Qdiv product design_frequency ;;
  Return (cumsum_rows delta_phi).

(** The phase slippage of one turn [j] of an RF system with the harmonics
    [h] and the design frequencies [d]:
    [2*pi*h*(h*f - omega_d)/omega_d]. *)
Definition turn_slip (h d f : list Q) (j : nat) : Q :=
  2 * np_pi * nth j h 0 * (nth j h 0 * nth j f 0 - nth j d 0) / nth j d 0.

End PhaseSlip.

(** [a[:, :k] = b]: the columns before [k] of every row are replaced; [b]
    must broadcast to the shape of that part. *)
Definition set_columns_before (a : list (list Q)) (k : nat) (b : list (list Q))
  : outcome (list (list Q)) :=
  rows <- broadcast a b ;;
  if Nat.eqb (length rows) (length a)
  then Tracker.for_each
         (fun rr : list Q * list Q =>
            entries <- broadcast (firstn k (fst rr)) (snd rr) ;;
            if Nat.eqb (length entries) (length (firstn k (fst rr)))
            then Return (map snd entries ++ skipn k (fst rr))
            else Raise (ValueError "could not broadcast input array"))
         rows
  else Raise (ValueError "could not broadcast input array").

(** One pass of the loop of [apply_new_frequency]:
    [phi_rf[n, end_turn:] += phase_slippage[n, -1]]. *)
Definition hold_last_slip (end_turn : nat) (phase_slippage : list (list Q))
    (phi : list (list Q)) (n : nat) : outcome (list (list Q)) :=
  row <- item phi n ;;
  slip <- item phase_slippage n ;;
  last <- last_item slip ;;
  Return (firstn n phi
          ++ [firstn end_turn row ++ map (fun v => v + last) (skipn end_turn row)]
          ++ skipn (S n) phi).

(** [_FrequencyOffset.apply_new_frequency]: the station it leaves. *)
Definition apply_new_frequency (station : rf_station) (new_frequency : list Q)
    (end_turn : nat) (phase_slippage : list (list Q)) : outcome rf_station :=
  product <-
    elementwise Qmult (columns_before (harmonic station) end_turn) [new_frequency] ;;
  omega_rf' <- set_columns_before (omega_rf station) end_turn product ;;
  shifted <-
    elementwise Qplus (columns_before (phi_rf station) end_turn) phase_slippage ;;
  phi_rf' <- set_columns_before (phi_rf station) end_turn shifted ;;
  phi_rf'' <-
    fold_left
      (fun (acc : outcome (list (list Q))) (n : nat) =>
         phi <- acc ;;
         hold_last_slip end_turn phase_slippage phi n)
      (seq 0 (n_rf station)) (Return phi_rf') ;;
  Return {| n_rf := n_rf station;
            harmonic := harmonic station;
            omega_rf_d := omega_rf_d station;
            omega_rf := omega_rf';
            phi_rf := phi_rf'' |}.

(** The attributes of a [FixedFrequency] object after its construction. *)
Record fixed_frequency : Type := {
  end_fixed_turn : nat;
  end_transition_turn : nat;
  end_frequency : Q;
  frequency_prog : list Q;
  new_frequency : list Q;
  end_turn : nat;
  design_frequency : list (list Q);
  phase_slippage : list (list Q);
  rf_station_after : rf_station
}.

(** [FixedFrequency.__init__], with the cycle time of the ring. *)
Definition FixedFrequency_init (np_pi : Q) (cycle_time : list Q) (station : rf_station)
    (FixedFrequency FixedDuration TransitionDuration : Q) : outcome fixed_frequency :=
  end_fixed_turn <- first_reaching cycle_time FixedDuration ;;
  end_transition_turn <-
    first_reaching cycle_time (FixedDuration + TransitionDuration) ;;
  first_system <- item (omega_rf_d station) 0 ;;
  end_frequency <- item first_system end_transition_turn ;;
  frequency_prog <-
    calculate_frequency_prog end_fixed_turn end_transition_turn
      FixedFrequency end_frequency ;;
  set <- set_frequency cycle_time station (Array frequency_prog) ;;
  let '(new_frequency, end_turn, design_frequency) := set in
  phase_slippage <-
    calculate_phase_slip np_pi station new_frequency end_turn design_frequency ;;
  station' <- apply_new_frequency station new_frequency end_turn phase_slippage ;;
  Return {| end_fixed_turn := end_fixed_turn;
            end_transition_turn := end_transition_turn;
            end_frequency := end_frequency;
            frequency_prog := frequency_prog;
            new_frequency := new_frequency;
            end_turn := end_turn;
            design_frequency := design_frequency;
            phase_slippage := phase_slippage;
            rf_station_after := station' |}.

(** A ring of six turns of one time unit and a station of one RF system of
    harmonic 2. *)
Definition six_turns : list Q := [0; 1; 2; 3; 4; 5].

Definition one_system : rf_station :=
  {| n_rf := 1;
     harmonic := [[2; 2; 2; 2; 2; 2]];
     omega_rf_d := [[10; 12; 14; 16; 18; 20]];
     omega_rf := [[10; 12; 14; 16; 18; 20]];
     phi_rf := [[0; 0; 0; 0; 0; 0]] |}.

End OffsetFrequency.

(* ================================================================== *)
(** * Pre-processing of RF data: interpolation to every turn *)

Module RFOptions.
Import Py Np.
Local Open Scope Q_scope.
Local Open Scope py_scope.

(** The two interpolation schemes that [PreprocessRFParams.__init__]
    lets through. *)
Inductive scheme : Type := linear | cubic.

(** The attributes of a [PreprocessRFParams] object that [preprocess]
    reads.  [figname] is a string: the constructor stores
    [str(figname)]. *)
Record PreprocessRFParams : Type := {
  interpolation : scheme;
  smoothing : Q;
  plot : bool;
  figdir : string;
  figname : string;
  sampling : nat
}.

(** What the plotting part of [preprocess] leaves outside the program:
    the call of [fig_folder] and the figures saved.  The drawing calls in
    between only change the figure. *)
Inductive event : Type :=
| FigFolder (dir : string)
| SaveFig (fign : string).

Definition arrays_do_not_match : string :=
  ("ERROR: number of time and data arrays in" ++ " PreprocessRFParams do not match!")%string.

(** ["%d" % i]. *)
Definition decimal (i : nat) : string := DecimalString.NilEmpty.string_of_uint (Nat.to_uint i).

Section Preprocess.

(** [splev(cumulative_time, splrep(time, data, s = smoothing))], the
    smoothing spline of SciPy. *)
Variable spline : Q -> list Q -> list Q -> list Q -> outcome (list Q).

Variable self : PreprocessRFParams.

(** The interpolation loop of [preprocess] from index [i] on, on what is
    left of [time_arrays] and [data_arrays] there. *)
Fixpoint interpolate_from (cumulative_time : list Q)
    (time_arrays data_arrays : list (list Q)) : outcome (list (list Q)) :=
  match time_arrays with
  | [] => Return []
  | time :: time_arrays' =>
      match data_arrays with
      | [] => Raise IndexError
      | data :: data_arrays' =>
          if negb (Nat.eqb (length time) (length data))
          then Raise (RuntimeError arrays_do_not_match)
          else
            interpolated <-
              match interpolation self with
              | linear => interp cumulative_time time data
              | cubic => spline (smoothing self) time data cumulative_time
              end ;;
            rest <- interpolate_from cumulative_time time_arrays' data_arrays' ;;
            Return (interpolated :: rest)
      end
  end.

(** The plotting loop of [preprocess] over the indices [indices]: a
    decimation of 0 is a slice of step 0, and the label of the plot is the
    character [self.figname[i]]. *)
Fixpoint plot_from (indices : list nat) : list event * outcome unit :=
  match indices with
  | [] => ([], Return tt)
  | i :: indices' =>
      if Nat.eqb (sampling self) 0
      then ([], Raise (ValueError "slice step cannot be zero"))
      else match String.get i (figname self) with
           | None => ([], Raise IndexError)
           | Some _ =>
               let fign :=
                 (figdir self ++ "/preprocess_" ++ figname self
                  ++ "_" ++ decimal i ++ ".png")%string in
               let '(events, result) := plot_from indices' in
               (SaveFig fign :: events, result)
           end
  end.

(** [PreprocessRFParams.preprocess], with the cycle time of the ring. *)
Definition preprocess (cycle_time : list Q) (time_arrays data_arrays : list (list Q))
  : list event * outcome (list (list Q)) :=
  let cumulative_time := cycle_time in
  match interpolate_from cumulative_time time_arrays data_arrays with
  | Raise e => ([], Raise e)
  | Return data_interp =>
      if plot self
      then let '(events, result) := plot_from (seq 0 (length time_arrays)) in
           (FigFolder (figdir self) :: events,
            _ <- result ;; Return data_interp)
      else ([], Return data_interp)
  end.

End Preprocess.

(** The default object, [PreprocessRFParams()]. *)
Definition default_options : PreprocessRFParams :=
  {| interpolation := linear;
     smoothing := 0;
     plot := false;
     figdir := "fig";
     figname := "['data']";
     sampling := 1 |}.

End RFOptions.

(* ================================================================== *)
(** * Properties of the phase and time normalisation *)

Module NormalizationFacts.
Import Normalization.
Local Open Scope R_scope.

Lemma np_floor_bound (x : R) : np_floor x <= x < np_floor x + 1.
Proof. exact (Zfloor_bound x). Qed.

Lemma np_floor_unit (x : R) : 0 <= x < 1 -> np_floor x = 0.
Proof.
  intros Hx. unfold np_floor.
  rewrite (Zfloor_eq 0 x); [reflexivity | simpl; lra].
Qed.

Lemma np_floor_int (z : Z) (x : R) : IZR z <= x < IZR z + 1 -> np_floor x = IZR z.
Proof. intros Hx. unfold np_floor. now rewrite (Zfloor_eq z x). Qed.

(** Folding by a positive period [P]: [x - P*floor(x/P)] lies in
    [[0, P)]. *)
Lemma fold_range (P x : R) : 0 < P -> 0 <= x - P * np_floor (x / P) < P.
Proof.
  intros HP.
  destruct (np_floor_bound (x / P)) as [Hlo Hhi].
  assert (Hx : x = x / P * P) by (field; lra).
  split.
  - rewrite Hx at 1. nra.
  - rewrite Hx at 1. nra.
Qed.

Lemma above_range (phi : R) : 0 <= phase_modulo_above_transition phi < 2 * PI.
Proof.
  unfold phase_modulo_above_transition.
  apply fold_range. pose proof PI_RGT_0. lra.
Qed.

Lemma below_range (phi : R) : - PI <= phase_modulo_below_transition phi < PI.
Proof.
  unfold phase_modulo_below_transition.
  pose proof PI_RGT_0 as Hpi.
  destruct (np_floor_bound (phi / (2 * PI) + 0.5)) as [Hlo Hhi].
  assert (Hphi : phi = phi / (2 * PI) * (2 * PI)) by (field; lra).
  split.
  - rewrite Hphi at 1. nra.
  - rewrite Hphi at 1. nra.
Qed.

(** A phase already in [[0, 2*pi)] is left alone. *)
Lemma above_fixed (phi : R) :
  0 <= phi < 2 * PI -> phase_modulo_above_transition phi = phi.
Proof.
  intros Hphi. unfold phase_modulo_above_transition.
  pose proof PI_RGT_0 as Hpi.
  rewrite np_floor_unit; [lra |].
  split.
  - apply Rmult_le_pos; [lra |]. left. apply Rinv_0_lt_compat. lra.
  - apply (Rmult_lt_reg_r (2 * PI)); [lra |].
    replace (phi / (2 * PI) * (2 * PI)) with phi by (field; lra). lra.
Qed.

(** A phase already in [[-pi, pi)] is left alone. *)
Lemma below_fixed (phi : R) :
  - PI <= phi < PI -> phase_modulo_below_transition phi = phi.
Proof.
  intros Hphi. unfold phase_modulo_below_transition.
  pose proof PI_RGT_0 as Hpi.
  rewrite np_floor_unit; [lra |].
  assert (Hq : phi / (2 * PI) + 0.5 = (phi + PI) / (2 * PI)).
  { replace 0.5 with (1 / 2) by lra. field. lra. }
  rewrite Hq. split.
  - apply Rmult_le_pos; [lra |]. left. apply Rinv_0_lt_compat. lra.
  - apply (Rmult_lt_reg_r (2 * PI)); [lra |].
    replace ((phi + PI) / (2 * PI) * (2 * PI)) with (phi + PI) by (field; lra). lra.
Qed.

(** The floor of [x + 1/2] is the floor of [x] or one more. *)
Lemma np_floor_half (x : R) :
  np_floor (x + 0.5) = np_floor x \/ np_floor (x + 0.5) = np_floor x + 1.
Proof.
  destruct (np_floor_bound x) as [Hlo Hhi].
  destruct (Rlt_dec x (np_floor x + 0.5)) as [Hlt | Hge].
  - left. unfold np_floor in *. apply np_floor_int. lra.
  - right. unfold np_floor in *. rewrite <- plus_IZR.
    apply np_floor_int. rewrite plus_IZR. lra.
Qed.





End NormalizationFacts.


(* ================================================================== *)
(** * Properties of the total voltage *)

Module TotalVoltageFacts.
Import Py RF.
Local Open Scope R_scope.

(** The loop adds the components of the remaining sections to the two sums
    and prints one line per section. *)
Lemma add_sections_sums (sections : list RFSectionParameters.t) :
  forall (i : nat) (Vcos Vsin : nat -> R) (out : list report),
    (forall k, fst (fst (add_sections i sections Vcos Vsin out)) k
               = Vcos k + first_harmonic_cos sections k)
    /\ (forall k, snd (fst (add_sections i sections Vcos Vsin out)) k
                  = Vsin k + first_harmonic_sin sections k)
    /\ snd (add_sections i sections Vcos Vsin out)
       = out ++ map PrintedVoltage (seq i (length sections)).
Proof.
  induction sections as [| s sections IH]; intros i Vcos Vsin out.
  - cbn. repeat split; intros; try ring. now rewrite app_nil_r.
  - cbn [add_sections first_harmonic_cos first_harmonic_sin fold_right length seq map].
    destruct (IH (S i)
                (fun k => Vcos k + RFSectionParameters.voltage s 0 k
                                   * cos (RFSectionParameters.phi_RF s 0 k))
                (fun k => Vsin k + RFSectionParameters.voltage s 0 k
                                   * sin (RFSectionParameters.phi_RF s 0 k))
                (out ++ [PrintedVoltage i])) as (Hc & Hs & Ho).
    repeat split.
    + intros k. rewrite Hc. unfold first_harmonic_cos. ring.
    + intros k. rewrite Hs. unfold first_harmonic_sin. ring.
    + rewrite Ho, <- app_assoc. reflexivity.
Qed.

Lemma mode_first : String.eqb "first" "first" = true.
Proof. reflexivity. Qed.

(** The mode ['all'] returns the integer 0 and writes nothing: no print and
    no warning; an unknown mode name does not raise: it warns and the
    function ends without a value.  So the statement that ['all'] emits a
    diagnostic and that other names fail with an error does not hold. *)
Lemma total_voltage_all_is_silent_unknown_does_not_raise :
  ~ (fst (total_voltage [stationary_above] "all") <> [])
  /\ ~ (exists e : exn, snd (total_voltage [stationary_above] "second") = Raise e).
Proof.
  split.
  - intros H. apply H. reflexivity.
  - intros [e H]. cbv in H. discriminate H.
Qed.

(** C2, as the code has it.  With mode ['first'] and at least one section,
    [total_voltage] returns, turn by turn, the quadrature combination
    [sqrt (Vcos^2 + Vsin^2)] of the first-harmonic cosine and sine
    components summed over the sections, after printing the voltage of
    every section but the first.  With mode ['all'] it returns the integer 0
    and writes nothing.  With any other mode name it raises nothing: it
    issues one warning and returns [None]. *)
Theorem total_voltage_modes
    (s0 : RFSectionParameters.t) (others RFsection_list : list RFSectionParameters.t)
    (harmonic : string) :
  harmonic <> "first"%string -> harmonic <> "all"%string ->
  (exists Vtot : nat -> R,
      total_voltage (s0 :: others) "first"
      = (map PrintedVoltage (seq 1 (length others)), Return (Array Vtot))
      /\ forall k, Vtot k = sqrt (first_harmonic_cos (s0 :: others) k ^ 2
                                  + first_harmonic_sin (s0 :: others) k ^ 2))
  /\ total_voltage RFsection_list "all" = ([], Return (Int 0))
  /\ total_voltage RFsection_list harmonic
     = ([Warning harmonic_not_recognized], Return NoneValue).
Proof.
  intros Hfirst Hall. split; [| split].
  - unfold total_voltage. rewrite mode_first.
    pose proof (add_sections_sums others 1
                  (fun k => RFSectionParameters.voltage s0 0 k
                            * cos (RFSectionParameters.phi_RF s0 0 k))
                  (fun k => RFSectionParameters.voltage s0 0 k
                            * sin (RFSectionParameters.phi_RF s0 0 k))
                  []) as (Hc & Hs & Ho).
    destruct (add_sections 1 others _ _ []) as [[Vcos Vsin] out] eqn:Hloop.
    cbn [fst snd] in Hc, Hs, Ho.
    eexists. split.
    + rewrite Ho. reflexivity.
    + intros k. cbv beta. rewrite Hc, Hs. reflexivity.
  - reflexivity.
  - unfold total_voltage.
    destruct (String.eqb harmonic "first") eqn:E1.
    + apply String.eqb_eq in E1. contradiction.
    + destruct (String.eqb harmonic "all") eqn:E2.
      * apply String.eqb_eq in E2. contradiction.
      * reflexivity.
Qed.

Lemma total_voltage_modes_witness :
  "second"%string <> "first"%string /\ "second"%string <> "all"%string
  /\ total_voltage [stationary_above] "second"
     = ([Warning harmonic_not_recognized], Return NoneValue).
Proof.
  split; [discriminate | split; [discriminate |]].
  apply (total_voltage_modes stationary_above [] [stationary_above] "second");
    discriminate.
Defined.

End TotalVoltageFacts.


(* ================================================================== *)
(** * Properties of the separatrix and of the in-bucket test *)

Module BucketFacts.
Import Py Normalization NormalizationFacts RF.
Local Open Scope R_scope.

(** [time_modulo] moves the RF phase by a whole number of turns: for a
    non-zero angular frequency, the phase at the projected time is the
    folded phase. *)
Lemma time_modulo_phase (omega phi_RF shift dt : R) :
  omega <> 0 ->
  omega * time_modulo dt ((phi_RF - shift) / omega) (2 * PI / omega) + phi_RF
  = (omega * dt + phi_RF)
    - 2 * PI * np_floor ((omega * dt + phi_RF - shift) / (2 * PI)).
Proof.
  intros Homega. pose proof PI_RGT_0 as Hpi. unfold time_modulo.
  replace ((dt + (phi_RF - shift) / omega) / (2 * PI / omega))
    with ((omega * dt + phi_RF - shift) / (2 * PI)) by (field; lra).
  field. exact Homega.
Qed.

(** A time offset inside the projected period is left in place. *)
Lemma separatrix_fold_in_period (RFP : RFSectionParameters.t) (dt : R) :
  RFSectionParameters.omega_RF RFP 0 (RFSectionParameters.counter RFP) <> 0 ->
  in_projected_period RFP dt ->
  bunch_phase RFP (separatrix_fold RFP dt) = bunch_phase RFP dt.
Proof.
  intros Homega [Habove Hbelow]. pose proof PI_RGT_0 as Hpi.
  unfold separatrix_fold, bunch_phase in *. cbv zeta in *.
  set (omega := RFSectionParameters.omega_RF RFP 0 (RFSectionParameters.counter RFP)) in *.
  set (phi := RFSectionParameters.phi_RF RFP 0 (RFSectionParameters.counter RFP)) in *.
  destruct (Rlt_dec (RFSectionParameters.eta_0 RFP (RFSectionParameters.counter RFP)) 0)
    as [Hneg | Hnneg].
  - specialize (Hbelow Hneg).
    rewrite (time_modulo_phase omega phi PI dt Homega).
    rewrite np_floor_unit; [ring |].
    split.
    + apply Rmult_le_pos; [lra |]. left. apply Rinv_0_lt_compat. lra.
    + apply (Rmult_lt_reg_r (2 * PI)); [lra |].
      replace ((omega * dt + phi - PI) / (2 * PI) * (2 * PI))
        with (omega * dt + phi - PI) by (field; lra).
      lra.
  - destruct (Rlt_dec 0 (RFSectionParameters.eta_0 RFP (RFSectionParameters.counter RFP)))
      as [Hpos | Hnpos]; [| reflexivity].
    specialize (Habove Hpos).
    replace (phi / omega) with ((phi - 0) / omega) by (field; exact Homega).
    rewrite (time_modulo_phase omega phi 0 dt Homega).
    rewrite np_floor_unit; [ring |].
    split.
    + apply Rmult_le_pos; [lra |]. left. apply Rinv_0_lt_compat. lra.
    + apply (Rmult_lt_reg_r (2 * PI)); [lra |].
      replace ((omega * dt + phi - 0) / (2 * PI) * (2 * PI))
        with (omega * dt + phi - 0) by (field; lra).
      lra.
Qed.

(** The radicand in terms of the factor and of the bunch phase. *)
Lemma single_harmonic_radicand_eq (GP : GeneralParameters.t)
    (RFP : RFSectionParameters.t) (dt : R) (total_voltage : option (nat -> R)) :
  single_harmonic_radicand GP RFP dt total_voltage
  = separatrix_factor GP RFP total_voltage
    * (- cos (bunch_phase RFP dt)
       - cos (RFSectionParameters.phi_s RFP (RFSectionParameters.counter RFP))
       + (PI - RFSectionParameters.phi_s RFP (RFSectionParameters.counter RFP)
             - bunch_phase RFP dt)
         * sin (RFSectionParameters.phi_s RFP (RFSectionParameters.counter RFP))).
Proof. reflexivity. Qed.

Lemma np_sqrt_0 : np_sqrt 0 = Some 0.
Proof.
  unfold np_sqrt. destruct (Rle_dec 0 0) as [_ | H]; [| lra].
  now rewrite sqrt_0.
Qed.




(** Without a [total_voltage] the in-bucket test is the direct check, and a
    [total_voltage] that is given does not change its answer. *)
Lemma is_in_separatrix_without_total_voltage (GP : GeneralParameters.t)
    (RFP : RFSectionParameters.t) (B : Beam.t) (dt dE : R)
    (total_voltage : option (nat -> R)) :
  snd (is_in_separatrix GP RFP B dt dE total_voltage)
  = direct_check GP RFP B dt dE None.
Proof.
  unfold is_in_separatrix, direct_check.
  destruct (hamiltonian GP RFP B (dt_sep RFP) 0 None) as [w1 Hsep].
  destruct (hamiltonian GP RFP B dt dE None) as [w2 H].
  reflexivity.
Qed.

(** The Hamiltonian of the stationary bucket above transition, for a phase
    already in [[0, 2*pi)]. *)
Lemma hamiltonian_stationary_above (dt : R) (total_voltage : option (nat -> R)) :
  0 <= dt < 2 * PI ->
  snd (hamiltonian unit_ring stationary_above unit_beam dt 0 total_voltage)
  = c * match total_voltage with None => 1 | Some tv => tv 0%nat end
    * (cos dt + 1).
Proof.
  intros Hdt. pose proof PI_RGT_0 as Hpi.
  unfold hamiltonian. cbn.
  destruct (Rlt_dec 1 0) as [H10 | _]; [lra |].
  destruct (Rlt_dec 0 1) as [_ | H01]; [| lra].
  replace (1 * dt + 0) with dt by ring.
  rewrite above_fixed by exact Hdt.
  rewrite cos_PI, sin_PI.
  destruct total_voltage as [tv |]; field.
Qed.

(** C4 at a concrete point.  In the stationary bucket above transition, for
    the particle at the synchronous phase ([dt = pi], [dE = 0]) and the
    caller's total voltage 0, the direct check with that total voltage
    answers no ([0 < 0] fails), while [is_in_separatrix] answers yes: it
    evaluates both Hamiltonians with the voltage of the section. *)
Theorem is_in_separatrix_drops_total_voltage :
  snd (is_in_separatrix unit_ring stationary_above unit_beam PI 0 (Some (fun _ => 0)))
  = true
  /\ direct_check unit_ring stationary_above unit_beam PI 0 (Some (fun _ => 0)) = false.
Proof.
  pose proof PI_RGT_0 as Hpi.
  assert (Hsep : dt_sep stationary_above = 0).
  { unfold dt_sep. cbn. field. }
  assert (Hc : 0 < c) by (unfold c; lra).
  split.
  - rewrite is_in_separatrix_without_total_voltage.
    unfold direct_check. rewrite Hsep.
    rewrite !hamiltonian_stationary_above by lra.
    rewrite cos_PI, cos_0.
    unfold fabs_lt.
    destruct (Rlt_dec (Rabs (c * 1 * (-1 + 1))) (Rabs (c * 1 * (1 + 1)))) as [_ | Hn];
      [reflexivity |].
    exfalso. apply Hn.
    replace (c * 1 * (-1 + 1)) with 0 by ring.
    rewrite Rabs_R0, Rabs_pos_eq; lra.
  - unfold direct_check. rewrite Hsep.
    rewrite !hamiltonian_stationary_above by lra.
    unfold fabs_lt.
    destruct (Rlt_dec (Rabs (c * 0 * (cos PI + 1))) (Rabs (c * 0 * (cos 0 + 1))))
      as [Hlt | _]; [| reflexivity].
    exfalso.
    replace (c * 0 * (cos PI + 1)) with 0 in Hlt by ring.
    replace (c * 0 * (cos 0 + 1)) with 0 in Hlt by ring.
    lra.
Qed.

End BucketFacts.


(* ================================================================== *)
(** * Properties of the potential-well extractor *)

Module PotentialWellFacts.
Import Py Np PotentialWell.
Local Open Scope Q_scope.

Lemma Qltb_lt (a b : Q) : Qltb a b = true <-> a < b.
Proof.
  unfold Qltb. rewrite negb_true_iff. split.
  - intros H. apply Qnot_le_lt. intros Hle.
    apply Qle_bool_iff in Hle. congruence.
  - intros H. destruct (Qle_bool b a) eqn:E; [| reflexivity].
    apply Qle_bool_iff in E. exfalso. exact (Qlt_not_le _ _ H E).
Qed.

Lemma Qltb_ge (a b : Q) : Qltb a b = false <-> b <= a.
Proof.
  unfold Qltb. rewrite negb_false_iff. apply Qle_bool_iff.
Qed.

Lemma bind_Return {A B : Type} (m : outcome A) (k : A -> outcome B) (b : B) :
  bind m k = Return b -> exists a, m = Return a /\ k a = Return b.
Proof. destruct m as [a | e]; cbn; [eauto | discriminate]. Qed.

(** Inversion of a chain of binds that returned. *)
Ltac returned H :=
  repeat match type of H with
         | context [bind ?m _] =>
             let E := fresh "E" in
             destruct m eqn:E; cbn [bind] in H; [| discriminate H]
         end.

Lemma select_nil {A : Type} (mask : list bool) : select mask (@nil A) = [].
Proof. destruct mask as [| [] mask]; reflexivity. Qed.

(** Selecting in two arrays with one mask keeps the samples paired. *)
Lemma select_combine {A B : Type} (mask : list bool) :
  forall (a : list A) (b : list B),
    combine (select mask a) (select mask b) = select mask (combine a b).
Proof.
  induction mask as [| m mask IH]; intros a b; [reflexivity |].
  destruct a as [| v a], b as [| w b], m; cbn [select combine];
    rewrite ?select_nil, ?combine_nil, ?IH; reflexivity.
Qed.

(** What a cut keeps: the samples on which both tests hold. *)
Lemma In_select_mask (f g : Q -> bool) (t p : Q) :
  forall time pot : list Q,
    In (t, p) (select (mask_and (map f pot) (map g time)) (combine time pot))
    <-> In (t, p) (combine time pot) /\ f p = true /\ g t = true.
Proof.
  induction time as [| t0 time IH]; intros pot.
  - cbn. rewrite select_nil. cbn. tauto.
  - destruct pot as [| p0 pot]; [cbn; tauto |].
    cbn [map mask_and combine select].
    destruct (f p0) eqn:Ef, (g t0) eqn:Eg; cbn [andb In]; rewrite IH;
      intuition congruence.
Qed.

Lemma diff_length (a : list Q) : length (diff a) = pred (length a).
Proof.
  induction a as [| v0 [| v1 a] IH]; [reflexivity | reflexivity |].
  change (diff (v0 :: v1 :: a)) with ((v1 - v0) :: diff (v1 :: a)).
  cbn [length] in *. now rewrite IH.
Qed.

Lemma but_last_length {A : Type} (a : list A) : length (but_last a) = pred (length a).
Proof.
  unfold but_last. rewrite removelast_firstn_len, length_firstn. lia.
Qed.

Lemma interp_Return (x xp fp r : list Q) :
  interp x xp fp = Return r ->
  r = map (interp1 xp fp) x /\ length xp = length fp /\ xp <> [].
Proof.
  unfold interp. destruct xp as [| x0 xp]; [discriminate |].
  destruct (Nat.eqb (length (x0 :: xp)) (length fp)) eqn:E; [| discriminate].
  intros H. injection H as <-. apply Nat.eqb_eq in E.
  repeat split; [exact E | discriminate].
Qed.

Lemma item_Return {A : Type} (a : list A) (i : nat) (v : A) :
  item a i = Return v -> nth_error a i = Some v.
Proof.
  unfold item. destruct (nth_error a i); [| discriminate].
  now intros H; injection H as ->.
Qed.

(** When [minmax_location] returns, the two inputs have one length, at
    least 2, and there is one value for each position. *)
Lemma minmax_location_shape (x f min_x max_x min_v max_v : list Q) :
  minmax_location x f = Return ((min_x, max_x), (min_v, max_v)) ->
  length min_v = length min_x /\ length max_v = length max_x
  /\ length f = length x /\ (2 <= length x)%nat.
Proof.
  unfold minmax_location. intros H. returned H.
  injection H as <- <- <- <-.
  repeat match goal with
         | E : interp _ _ _ = Return _ |- _ => apply interp_Return in E; destruct E as (-> & ? & ?)
         end.
  apply item_Return in E0.
  assert (Hx : (1 < length x)%nat) by (apply nth_error_Some; congruence).
  match goal with
  | H : length (map _ (but_last x)) = length (diff f) |- _ =>
      rewrite length_map, but_last_length, diff_length in H
  end.
  rewrite !length_map.
  repeat split; lia.
Qed.

Lemma item_0 {A : Type} (a : list A) (d : A) :
  a <> [] -> item a 0 = Return (nth 0 a d).
Proof. destruct a; [congruence | reflexivity]. Qed.

Lemma last_item_last {A : Type} (a : list A) (d : A) :
  a <> [] -> last_item a = Return (last a d).
Proof.
  intros Ha. unfold last_item.
  destruct (exists_last Ha) as (a' & v & ->).
  rewrite rev_app_distr, last_last. reflexivity.
Qed.


Lemma item_Raise {A : Type} (a : list A) (i : nat) (e : exn) :
  item a i = Raise e -> e = IndexError.
Proof.
  unfold item. destruct (nth_error a i); [discriminate |].
  now intros H; injection H as <-.
Qed.

Lemma last_item_Raise {A : Type} (a : list A) (e : exn) :
  last_item a = Raise e -> e = IndexError.
Proof.
  unfold last_item. destruct (rev a); [| discriminate].
  now intros H; injection H as <-.
Qed.

Lemma amin_Raise (a : list Q) (e : exn) :
  amin a = Raise e -> exists msg, e = ValueError msg.
Proof.
  unfold amin. destruct a; [| discriminate].
  intros H; injection H as <-. eauto.
Qed.

Lemma amax_Raise (a : list Q) (e : exn) :
  amax a = Raise e -> exists msg, e = ValueError msg.
Proof.
  unfold amax. destruct a; [| discriminate].
  intros H; injection H as <-. eauto.
Qed.

(** Case analysis on the binds and tests of a branch whose outcome is the
    hypothesis [H]; the exceptions of the array operations are named. *)
Ltac branch_cases H :=
  repeat match type of H with
         | context [bind ?m _] =>
             let E := fresh "E" in
             destruct m eqn:E; cbn [bind] in H
         | context [if ?b then _ else _] =>
             let E := fresh "E" in
             destruct b eqn:E
         end;
  repeat match goal with
         | E : item _ _ = Raise _ |- _ => apply item_Raise in E; subst
         | E : last_item _ = Raise _ |- _ => apply last_item_Raise in E; subst
         | E : amin _ = Raise _ |- _ => apply amin_Raise in E; destruct E as [? ->]
         | E : amax _ = Raise _ |- _ => apply amax_Raise in E; destruct E as [? ->]
         end;
  try discriminate H.

(** The only [RuntimeError] of the one-maximum branch is the one of the
    boundary test. *)
Lemma cut_one_maximum_RuntimeError (time pot min_x max_x max_v : list Q) (msg : string) :
  cut_one_maximum time pot min_x max_x max_v = Raise (RuntimeError msg) ->
  msg = not_well_defined_message.
Proof.
  unfold cut_one_maximum, return_sep. intros H. branch_cases H;
    now injection H as <-.
Qed.

Lemma cut_two_maxima_no_RuntimeError (time pot min_x max_x max_v : list Q) (msg : string) :
  cut_two_maxima time pot min_x max_x max_v <> Raise (RuntimeError msg).
Proof.
  unfold cut_two_maxima, return_sep. intros H. branch_cases H.
Qed.

Lemma cut_many_maxima_no_RuntimeError (time pot max_x max_v : list Q) (msg : string) :
  cut_many_maxima time pot max_x max_v <> Raise (RuntimeError msg).
Proof.
  unfold cut_many_maxima, return_sep. intros H. branch_cases H.
Qed.

(** C1, on the code.  When [minmax_location] finds at least one minimum and
    no maximum, [potential_well_cut] prints its warning (which ends with
    the words that the full potential well will be taken) and then fails at
    its [return]: the two result variables were never assigned.  The input
    range is not returned. *)
Theorem potential_well_cut_no_maximum
    (time_potential potential_array min_x max_x min_v max_v : list Q) :
  minmax_location time_potential potential_array
  = Return ((min_x, max_x), (min_v, max_v)) ->
  (1 <= length min_x)%nat ->
  length max_x = 0%nat ->
  potential_well_cut time_potential potential_array
  = ([Printed no_maximum_warning], Raise (UnboundLocalError "time_potential_sep")).
Proof.
  intros Hminmax Hmin Hmax.
  unfold potential_well_cut. rewrite Hminmax. unfold cut_from_extrema.
  destruct min_x as [| m min_x]; [cbn in Hmin; lia |].
  destruct max_x as [| M max_x]; [reflexivity | discriminate Hmax].
Qed.

(** A parabola sampled at five points: one minimum, no maximum. *)
Lemma potential_well_cut_no_maximum_witness :
  exists min_x max_x min_v max_v : list Q,
    minmax_location [0; 1; 2; 3; 4] [4; 1; 0; 1; 4]
    = Return ((min_x, max_x), (min_v, max_v))
    /\ (1 <= length min_x)%nat
    /\ length max_x = 0%nat
    /\ potential_well_cut [0; 1; 2; 3; 4] [4; 1; 0; 1; 4]
       = ([Printed no_maximum_warning], Raise (UnboundLocalError "time_potential_sep")).
Proof.
  do 4 eexists.
  split; [vm_compute; reflexivity |].
  split; [cbn; lia |].
  split; [reflexivity |].
  eapply potential_well_cut_no_maximum.
  - vm_compute. reflexivity.
  - cbn. lia.
  - reflexivity.
Defined.

(** The one-maximum branch, case by case. *)
Lemma cut_one_maximum_cases (time pot : list Q) (min0 max0 maxv0 : Q)
    (min_x max_x max_v : list Q) :
  pot <> [] ->
  cut_one_maximum time pot (min0 :: min_x) (max0 :: max_x) (maxv0 :: max_v)
  = if Qgtb min0 max0 then
      if Qltb (last pot 0) (nth 0 pot 0)
      then Raise (RuntimeError not_well_defined_message)
      else Return (keep (mask_and (map (fun p => Qltb p maxv0) pot)
                                  (map (fun t => Qgtb t max0) time)) time pot)
    else
      if Qgtb (last pot 0) (nth 0 pot 0)
      then Raise (RuntimeError not_well_defined_message)
      else Return (keep (mask_and (map (fun p => Qltb p maxv0) pot)
                                  (map (fun t => Qltb t max0) time)) time pot).
Proof.
  intros Hpot. unfold cut_one_maximum. cbn [item nth_error bind].
  rewrite (last_item_last pot 0 Hpot), (item_0 pot 0 Hpot). cbn [bind return_sep].
  reflexivity.
Qed.




(** A third configuration aborts with a [RuntimeError]: one minimum and
    one maximum are detected (so the minima count is neither zero nor above
    the maxima count), and the boundary test of the one-maximum branch
    fails. *)
Lemma potential_well_cut_third_fatal_configuration :
  exists min_x max_x min_v max_v : list Q,
    minmax_location [0; 1; 2; 3; 4; 5] [1; 0; 1; 4; 5; 4]
    = Return ((min_x, max_x), (min_v, max_v))
    /\ ~ (length min_x = 0%nat
          \/ ((length max_x < length min_x)%nat /\ length max_x = 1%nat))
    /\ potential_well_cut [0; 1; 2; 3; 4; 5] [1; 0; 1; 4; 5; 4]
       = ([], Raise (RuntimeError not_well_defined_message)).
Proof.
  do 4 eexists.
  split; [vm_compute; reflexivity |].
  split; [cbn; lia |].
  vm_compute. reflexivity.
Qed.

(** C6, as the code has it.  With no minimum detected,
    [potential_well_cut] raises the error that the well has no minima; with
    more minima than maxima and exactly one maximum it raises the error of
    that name; neither returns a cut.  These are not the only fatal
    configurations: every [RuntimeError] of the call is one of these two or
    the boundary error of the branch with one minimum and one maximum. *)
Theorem potential_well_cut_runtime_errors
    (time_potential potential_array min_x max_x min_v max_v : list Q) :
  minmax_location time_potential potential_array
  = Return ((min_x, max_x), (min_v, max_v)) ->
  (length min_x = 0%nat ->
   potential_well_cut time_potential potential_array
   = ([], Raise (RuntimeError no_minima_message)))
  /\ ((length max_x < length min_x)%nat /\ length max_x = 1%nat ->
      potential_well_cut time_potential potential_array
      = ([], Raise (RuntimeError more_minima_message)))
  /\ (forall msg : string,
         snd (potential_well_cut time_potential potential_array)
         = Raise (RuntimeError msg) ->
         (msg = no_minima_message /\ length min_x = 0%nat)
         \/ (msg = more_minima_message
             /\ (length max_x < length min_x)%nat /\ length max_x = 1%nat)
         \/ (msg = not_well_defined_message
             /\ length min_x = 1%nat /\ length max_x = 1%nat)).
Proof.
  intros Hminmax.
  unfold potential_well_cut. rewrite Hminmax. unfold cut_from_extrema.
  split; [| split].
  - intros Hmin. destruct min_x; [reflexivity | discriminate Hmin].
  - intros [Hlt Hone].
    destruct min_x as [| m min_x]; [cbn in Hlt; lia |].
    cbn [length Nat.eqb].
    apply Nat.ltb_lt in Hlt. cbn [length] in Hlt. rewrite Hlt, Hone. reflexivity.
  - intros msg.
    destruct min_x as [| m min_x].
    { cbn. intros [= <-]. left. split; reflexivity. }
    cbn [length Nat.eqb].
    destruct (Nat.ltb (length max_x) (S (length min_x))) eqn:Elt;
      destruct (Nat.eqb (length max_x) 1) eqn:Eone; cbn [andb].
    + cbn. intros [= <-]. right. left.
      apply Nat.ltb_lt in Elt. apply Nat.eqb_eq in Eone. repeat split; assumption.
    + destruct (Nat.eqb (length max_x) 0); [cbn; discriminate |].
      destruct (Nat.eqb (length max_x) 2); cbn [snd]; intros H; exfalso.
      * exact (cut_two_maxima_no_RuntimeError _ _ _ _ _ _ H).
      * exact (cut_many_maxima_no_RuntimeError _ _ _ _ _ H).
    + apply Nat.eqb_eq in Eone. apply Nat.ltb_ge in Elt.
      rewrite Eone. cbn [Nat.eqb snd]. intros H.
      apply cut_one_maximum_RuntimeError in H.
      right. right.
      split; [exact H | split; [cbn [length]; lia | reflexivity]].
    + destruct (Nat.eqb (length max_x) 0); [cbn; discriminate |].
      destruct (Nat.eqb (length max_x) 2); cbn [snd]; intros H; exfalso.
      * exact (cut_two_maxima_no_RuntimeError _ _ _ _ _ _ H).
      * exact (cut_many_maxima_no_RuntimeError _ _ _ _ _ H).
Qed.

(** A monotone potential has no minimum. *)
Lemma potential_well_cut_runtime_errors_witness :
  exists min_x max_x min_v max_v : list Q,
    minmax_location [0; 1; 2; 3] [0; 1; 2; 3]
    = Return ((min_x, max_x), (min_v, max_v))
    /\ length min_x = 0%nat
    /\ potential_well_cut [0; 1; 2; 3] [0; 1; 2; 3]
       = ([], Raise (RuntimeError no_minima_message)).
Proof.
  do 4 eexists.
  split; [vm_compute; reflexivity |].
  split; [reflexivity |].
  eapply potential_well_cut_runtime_errors.
  - vm_compute. reflexivity.
  - reflexivity.
Defined.

End PotentialWellFacts.


(* ================================================================== *)
(** * Properties of the frequency tracker *)

Module TrackerFacts.
Import Py Np Tracker PotentialWellFacts.
Local Open Scope Q_scope.

Lemma set_item_length (a : list Q) :
  forall (i : nat) (v : Q), length (set_item a i v) = length a.
Proof.
  induction a as [| w a IH]; intros [| i] v; cbn; auto.
Qed.

Lemma nth_set_item_same (a : list Q) :
  forall (i : nat) (v d : Q), (i < length a)%nat -> nth i (set_item a i v) d = v.
Proof.
  induction a as [| w a IH]; intros [| i] v d Hi; cbn in *; try lia.
  - reflexivity.
  - apply IH. lia.
Qed.

Lemma nth_set_item_other (a : list Q) :
  forall (i j : nat) (v d : Q), i <> j -> nth i (set_item a j v) d = nth i a d.
Proof.
  induction a as [| w a IH]; intros [| i] [| j] v d Hij; cbn; try reflexivity.
  - congruence.
  - apply IH. congruence.
Qed.

Lemma inside_initial_range_true (max_theta min_theta max_range min_range : Q) :
  inside_initial_range max_theta min_theta max_range min_range = true
  <-> max_theta < max_range /\ min_range < min_theta.
Proof.
  unfold inside_initial_range, Qgtb.
  rewrite andb_true_iff, !Qltb_lt. tauto.
Qed.

Lemma inside_initial_range_false (max_theta min_theta max_range min_range : Q) :
  inside_initial_range max_theta min_theta max_range min_range = false
  <-> max_range <= max_theta \/ min_theta <= min_range.
Proof.
  unfold inside_initial_range, Qgtb.
  rewrite andb_false_iff, !Qltb_ge. tauto.
Qed.

Section Loop.

Variable abs_rfft : list Q -> nat -> list Q.
Variable n_sampling : nat.
Variables start_turn end_turn : Z.
Variables max_theta_range min_theta_range : Q.

(** What is settled for a particle only depends on the histories, on the
    frequency array and on the slot of the particle. *)
Lemma particle_settled_transport (self self' : synchrotron_frequency_tracker) (i : nat) :
  same_inputs self self' -> same_slot i self self' ->
  particle_settled abs_rfft n_sampling start_turn end_turn
    max_theta_range min_theta_range self i ->
  particle_settled abs_rfft n_sampling start_turn end_turn
    max_theta_range min_theta_range self' i.
Proof.
  intros (_ & Ht & Hd & Hf) (Hft & Hfd & Hmax & Hmin).
  unfold particle_settled.
  rewrite Ht, Hd, Hf, Hft, Hfd, Hmax, Hmin. exact (fun H => H).
Qed.

(** One turn of the loop settles its particle and leaves the others. *)
Lemma particle_step_settles (self self' : synchrotron_frequency_tracker) (k n : nat) :
  particle_step abs_rfft n_sampling start_turn end_turn
    max_theta_range min_theta_range self k = Return self' ->
  result_lengths self n -> (k < n)%nat ->
  nth k (frequency_theta_save self) 0 = 0 ->
  nth k (frequency_dE_save self) 0 = 0 ->
  same_inputs self self'
  /\ result_lengths self' n
  /\ particle_settled abs_rfft n_sampling start_turn end_turn
       max_theta_range min_theta_range self' k
  /\ forall i : nat, i <> k -> same_slot i self self'.
Proof.
  unfold particle_step. intros H (L1 & L2 & L3 & L4) Hk Z1 Z2.
  destruct (column (theta_save self) start_turn end_turn k) as [theta |] eqn:Etheta;
    cbn [bind] in H; [| discriminate H].
  destruct (amax theta) as [max_theta |] eqn:Emax; cbn [bind] in H; [| discriminate H].
  destruct (amin theta) as [min_theta |] eqn:Emin; cbn [bind] in H; [| discriminate H].
  destruct (inside_initial_range max_theta min_theta max_theta_range min_theta_range)
    eqn:Einside.
  - destruct (column (dE_save self) start_turn end_turn k) as [dE |] eqn:EdE;
      cbn [bind] in H; [| discriminate H].
    destruct (peak_frequency abs_rfft (frequency_array self) n_sampling theta)
      as [f_theta |] eqn:Eft; cbn [bind] in H; [| discriminate H].
    destruct (peak_frequency abs_rfft (frequency_array self) n_sampling dE)
      as [f_dE |] eqn:Efd; cbn [bind] in H; [| discriminate H].
    injection H as <-.
    split; [repeat split |]. split; [| split].
    + unfold result_lengths. cbn. rewrite !set_item_length. auto.
    + exists theta, max_theta, min_theta. cbn.
      rewrite !nth_set_item_same by lia.
      do 3 (split; [assumption |]). do 2 (split; [reflexivity |]). split.
      * intros _. exists dE. auto.
      * intros Hout. apply inside_initial_range_false in Hout. congruence.
    + intros i Hi. unfold same_slot. cbn.
      rewrite !nth_set_item_other by exact Hi. auto.
  - injection H as <-.
    split; [repeat split |]. split; [| split].
    + unfold result_lengths. cbn. rewrite !set_item_length. auto.
    + exists theta, max_theta, min_theta. cbn.
      rewrite !nth_set_item_same by lia.
      do 3 (split; [assumption |]). do 2 (split; [reflexivity |]). split.
      * intros Hin. apply inside_initial_range_true in Hin. congruence.
      * intros _. split; assumption.
    + intros i Hi. unfold same_slot. cbn.
      rewrite !nth_set_item_other by exact Hi. auto.
Qed.

(** The loop over the particles [k, k+1, ..., k+m-1]: it settles each of
    them and leaves the slots of the others. *)
Lemma particle_loop_settles (m : nat) :
  forall (k n : nat) (self self' : synchrotron_frequency_tracker),
    particle_loop abs_rfft n_sampling start_turn end_turn
      max_theta_range min_theta_range (seq k m) self = Return self' ->
    result_lengths self n -> (k + m <= n)%nat ->
    (forall i : nat, (k <= i)%nat ->
       nth i (frequency_theta_save self) 0 = 0
       /\ nth i (frequency_dE_save self) 0 = 0) ->
    same_inputs self self'
    /\ (forall i : nat, (k <= i < k + m)%nat ->
          particle_settled abs_rfft n_sampling start_turn end_turn
            max_theta_range min_theta_range self' i)
    /\ forall i : nat, (i < k)%nat -> same_slot i self self'.
Proof.
  induction m as [| m IH]; intros k n self self' H Hlen Hkm Hzero.
  - cbn in H. injection H as <-.
    split; [repeat split |]. split; [intros i Hi; lia |].
    intros i _. repeat split.
  - cbn [seq particle_loop] in H.
    destruct (particle_step abs_rfft n_sampling start_turn end_turn
                max_theta_range min_theta_range self k) as [self1 |] eqn:Estep;
      cbn [bind] in H; [| discriminate H].
    destruct (Hzero k (Nat.le_refl k)) as [Z1 Z2].
    destruct (particle_step_settles self self1 k n Estep Hlen ltac:(lia) Z1 Z2)
      as (Hin1 & Hlen1 & Hset1 & Hslot1).
    destruct (IH (S k) n self1 self' H Hlen1 ltac:(lia)) as (Hin2 & Hset2 & Hslot2).
    { intros i Hi. destruct (Hslot1 i ltac:(lia)) as (E1 & E2 & _).
      rewrite E1, E2. apply Hzero. lia. }
    assert (Hin : same_inputs self self').
    { destruct Hin1 as (A1 & A2 & A3 & A4), Hin2 as (B1 & B2 & B3 & B4).
      repeat split; congruence. }
    split; [exact Hin | split].
    + intros i Hi. destruct (Nat.eq_dec i k) as [-> | Hne].
      * apply (particle_settled_transport self1 self' k Hin2); [| exact Hset1].
        apply Hslot2. lia.
      * apply Hset2. lia.
    + intros i Hi.
      destruct (Hslot1 i ltac:(lia)) as (A1 & A2 & A3 & A4).
      destruct (Hslot2 i ltac:(lia)) as (B1 & B2 & B3 & B4).
      repeat split; congruence.
Qed.

End Loop.

Lemma nth_zeros (n i : nat) : nth i (zeros n) 0 = 0.
Proof.
  unfold zeros. destruct (Nat.lt_ge_cases i n) as [Hi | Hi].
  - now rewrite nth_repeat_lt.
  - apply nth_overflow. now rewrite repeat_length.
Qed.

(** C7, as the code has it.  When [frequency_calculation] returns, the
    range of the initial ensemble is that of the first turn, the histories
    are unchanged, and for every particle: if its excursion over the
    analysis window stays strictly inside that range, its two frequencies
    are the peak estimates of its theta series and of its dE series; if its
    excursion reaches or passes either end of the range, its two
    frequencies are left at zero. *)
Theorem frequency_calculation_lost_particles
    (abs_rfft : list Q -> nat -> list Q)
    (self self' : synchrotron_frequency_tracker)
    (n_sampling : nat) (start_turn end_turn : option Z) :
  frequency_calculation abs_rfft self n_sampling start_turn end_turn = Return self' ->
  exists (first_turn : list Q) (max_theta_range min_theta_range : Q),
    item (theta_save self) 0 = Return first_turn
    /\ amax first_turn = Return max_theta_range
    /\ amin first_turn = Return min_theta_range
    /\ theta_save self' = theta_save self
    /\ dE_save self' = dE_save self
    /\ forall i : nat, (i < n_macroparticles self)%nat ->
         particle_settled abs_rfft n_sampling
           (window_start start_turn) (window_end self end_turn)
           max_theta_range min_theta_range self' i.
Proof.
  unfold frequency_calculation. intros H.
  destruct (item (theta_save self) 0) as [first_turn |] eqn:Efirst;
    cbn [bind] in H; [| discriminate H].
  destruct (amax first_turn) as [max_range |] eqn:Emax;
    cbn [bind] in H; [| discriminate H].
  destruct (amin first_turn) as [min_range |] eqn:Emin;
    cbn [bind] in H; [| discriminate H].
  destruct (rfftfreq n_sampling (timeStep self)) as [fa |] eqn:Efa;
    cbn [bind] in H; [| discriminate H].
  exists first_turn, max_range, min_range.
  split; [reflexivity |]. split; [exact Emax |]. split; [exact Emin |].
  apply (particle_loop_settles abs_rfft n_sampling _ _ max_range min_range
           (n_macroparticles self) 0 (n_macroparticles self)) in H.
  - destruct H as ((_ & Ht & Hd & _) & Hset & _). cbn in Ht, Hd.
    split; [exact Ht | split; [exact Hd |]].
    intros i Hi. apply Hset. lia.
  - unfold result_lengths, zeros. cbn. rewrite !repeat_length. auto.
  - lia.
  - intros i _. cbn. split; apply nth_zeros.
Qed.


(** The three probe particles with a transform on two samples: the middle
    particle gets its two estimates, the outer ones are settled as lost. *)
Lemma frequency_calculation_lost_particles_witness :
  exists self' : synchrotron_frequency_tracker,
    frequency_calculation abs_rfft_two_samples three_particles 2 None None
    = Return self'
    /\ frequency_theta_save self' = [0; 1 # 2; 0]
    /\ frequency_dE_save self' = [0; 1 # 2; 0]
    /\ exists (first_turn : list Q) (max_theta_range min_theta_range : Q),
        item (theta_save three_particles) 0 = Return first_turn
        /\ amax first_turn = Return max_theta_range
        /\ amin first_turn = Return min_theta_range
        /\ theta_save self' = theta_save three_particles
        /\ dE_save self' = dE_save three_particles
        /\ forall i : nat, (i < n_macroparticles three_particles)%nat ->
             particle_settled abs_rfft_two_samples 2
               (window_start None) (window_end three_particles None)
               max_theta_range min_theta_range self' i.
Proof.
  eexists.
  split; [vm_compute; reflexivity |].
  split; [reflexivity |].
  split; [reflexivity |].
  apply (frequency_calculation_lost_particles
           abs_rfft_two_samples three_particles _ 2 None None).
  vm_compute. reflexivity.
Defined.

(** The last of the three probe particles stays at the upper end of the
    initial range, [theta = 1], over both turns.  Its excursion does not
    exceed the range [[-1, 1]] of the initial ensemble, and yet the test of
    the loop counts it as lost and both its frequencies are left at zero. *)
Lemma particle_lost_without_exceeding :
  exists self' : synchrotron_frequency_tracker,
    frequency_calculation abs_rfft_two_samples three_particles 2 None None
    = Return self'
    /\ amax [-1; 0; 1] = Return 1
    /\ amin [-1; 0; 1] = Return (-1)
    /\ column (theta_save three_particles) 0 3 2 = Return [1; 1]
    /\ amax [1; 1] = Return 1
    /\ amin [1; 1] = Return 1
    /\ ~ exceeds_initial_range 1 1 1 (-1)
    /\ inside_initial_range 1 1 1 (-1) = false
    /\ nth 2 (frequency_theta_save self') 0 = 0
    /\ nth 2 (frequency_dE_save self') 0 = 0.
Proof.
  eexists.
  split; [vm_compute; reflexivity |].
  repeat (split; [reflexivity |]).
  split.
  - unfold exceeds_initial_range. intros [H | H]; discriminate H.
  - repeat split; reflexivity.
Qed.

End TrackerFacts.


(* ================================================================== *)
(** * Further properties of the potential-well extractor *)

Module ExtremaFacts.
Import Py Np PotentialWell PotentialWellFacts.
Local Open Scope Q_scope.

Lemma take_Raise {A : Type} (a : list A) (idx : list nat) (e : exn) :
  take a idx = Raise e -> e = IndexError.
Proof.
  induction idx as [| i idx IH]; cbn [take]; [discriminate |].
  destruct (item a i) eqn:Ei; cbn [bind].
  - destruct (take a idx) eqn:Et; cbn [bind]; [discriminate |].
    intros [= <-]. now apply IH.
  - intros [= <-]. now apply item_Raise in Ei.
Qed.

Lemma midpoints_Raise (x : list Q) (idx : list nat) (e : exn) :
  midpoints x idx = Raise e -> e = IndexError.
Proof.
  unfold midpoints.
  destruct (take x (map S idx)) eqn:E1; cbn [bind].
  - destruct (take x idx) eqn:E2; cbn [bind]; [discriminate |].
    intros [= <-]. now apply take_Raise in E2.
  - intros [= <-]. now apply take_Raise in E1.
Qed.

Lemma interp_same_length (x xp fp : list Q) :
  xp <> [] -> length xp = length fp ->
  interp x xp fp = Return (map (interp1 xp fp) x).
Proof.
  intros Hne Hlen. unfold interp.
  destruct xp as [| x0 xp]; [congruence |].
  rewrite Hlen, Nat.eqb_refl. reflexivity.
Qed.

Lemma interp_other_length (x xp fp : list Q) :
  xp <> [] -> length xp <> length fp ->
  exists msg, interp x xp fp = Raise (ValueError msg).
Proof.
  intros Hne Hlen. unfold interp.
  destruct xp as [| x0 xp]; [congruence |].
  apply Nat.eqb_neq in Hlen. rewrite Hlen. eauto.
Qed.

(** [minmax_location] needs two arrays of one length, at least 2.  With
    fewer than two abscissae it raises [IndexError]; with two or more
    abscissae and a function array of another length it raises
    [ValueError]; with arrays of one length the only exception left is
    [IndexError]; and when it returns there is one value for each
    position. *)
Theorem minmax_location_errors (x f : list Q) :
  ((length x < 2)%nat -> minmax_location x f = Raise IndexError)
  /\ ((2 <= length x)%nat -> length f <> length x ->
      exists msg : string, minmax_location x f = Raise (ValueError msg))
  /\ ((2 <= length x)%nat -> length f = length x ->
      forall e : exn, minmax_location x f = Raise e -> e = IndexError)
  /\ (forall min_x max_x min_v max_v : list Q,
         minmax_location x f = Return ((min_x, max_x), (min_v, max_v)) ->
         (2 <= length x)%nat /\ length f = length x
         /\ length min_v = length min_x /\ length max_v = length max_x).
Proof.
  split; [| split; [| split]].
  - intros Hx. unfold minmax_location.
    destruct x as [| x0 [| x1 x]]; cbn in *; try reflexivity. lia.
  - intros Hx Hf. unfold minmax_location.
    destruct x as [| x0 [| x1 x]]; cbn [length] in Hx; try lia.
    cbn [item nth_error bind].
    destruct (interp_other_length (x0 :: x1 :: x)
                (map (fun v => v + (x1 - x0) / 2) (but_last (x0 :: x1 :: x)))
                (diff f)) as [msg Hmsg].
    + cbn. discriminate.
    + rewrite length_map, but_last_length, diff_length. cbn [length] in *. lia.
    + rewrite Hmsg. cbn [bind]. eauto.
  - intros Hx Hf e. unfold minmax_location.
    destruct x as [| x0 [| x1 x]]; cbn [length] in Hx; try lia.
    cbn [item nth_error bind].
    assert (Hd : map (fun v => v + (x1 - x0) / 2) (but_last (x0 :: x1 :: x)) <> [])
      by (cbn; discriminate).
    rewrite interp_same_length;
      [| exact Hd | rewrite length_map, but_last_length, diff_length; congruence].
    cbn [bind].
    rewrite interp_same_length;
      [| exact Hd
       | rewrite length_map, but_last_length, diff_length, length_map; reflexivity].
    cbn [bind].
    intros H.
    repeat match type of H with
           | context [bind ?m _] =>
               let E := fresh "E" in
               destruct m eqn:E; cbn [bind] in H
           end;
      try discriminate H; injection H as <-;
      repeat match goal with
             | E : take _ _ = Raise _ |- _ => apply take_Raise in E
             | E : midpoints _ _ = Raise _ |- _ => apply midpoints_Raise in E
             | E : interp _ (_ :: _) _ = Raise _ |- _ =>
                 rewrite interp_same_length in E by (congruence || discriminate)
             end;
      congruence.
  - intros min_x max_x min_v max_v H.
    destruct (minmax_location_shape _ _ _ _ _ _ H) as (A & B & C & D). auto.
Qed.

Lemma minmax_location_errors_witness :
  minmax_location [1] [1] = Raise IndexError
  /\ (exists msg : string, minmax_location [0; 1; 2] [0; 1] = Raise (ValueError msg))
  /\ minmax_location [0; 1; 2; 3] [4; 1; 0; 0] = Raise IndexError.
Proof.
  split; [| split].
  - apply (minmax_location_errors [1] [1]). cbn. lia.
  - apply (minmax_location_errors [0; 1; 2] [0; 1]); cbn; [lia | discriminate].
  - destruct (minmax_location_errors [0; 1; 2; 3] [4; 1; 0; 0]) as (_ & _ & H & _).
    destruct (minmax_location [0; 1; 2; 3] [4; 1; 0; 0]) as [r | e] eqn:E.
    + vm_compute in E. discriminate E.
    + f_equal. apply H; [cbn; lia | reflexivity | reflexivity].
Defined.


Lemma mask_and_length (m1 m2 : list bool) :
  length (mask_and m1 m2) = Nat.min (length m1) (length m2).
Proof.
  revert m2. induction m1 as [| b1 m1 IH]; intros [| b2 m2]; cbn; auto.
Qed.

(** The samples kept by a mask are the samples at the positions where the
    mask holds. *)
Lemma In_select_nth {A : Type} (v : A) :
  forall (mask : list bool) (a : list A),
    In v (select mask a)
    <-> exists i : nat, nth_error mask i = Some true /\ nth_error a i = Some v.
Proof.
  induction mask as [| m mask IH]; intros a.
  - cbn. split; [tauto | intros (i & H & _); destruct i; discriminate H].
  - destruct a as [| w a].
    + cbn. split; [tauto | intros (i & _ & H); destruct i; discriminate H].
    + cbn [select]. destruct m; cbn [In]; rewrite IH; split.
      * intros [-> | (i & H1 & H2)]; [exists 0%nat | exists (S i)]; auto.
      * intros ([| i] & H1 & H2); cbn in H1, H2; [left; congruence | right; eauto].
      * intros (i & H1 & H2). exists (S i). auto.
      * intros ([| i] & H1 & H2); cbn in H1, H2; [discriminate H1 | eauto].
Qed.

Lemma nth_error_mask_and (m1 m2 : list bool) (i : nat) :
  nth_error (mask_and m1 m2) i = Some true
  <-> nth_error m1 i = Some true /\ nth_error m2 i = Some true.
Proof.
  revert m2 i. induction m1 as [| b1 m1 IH]; intros [| b2 m2] [| i]; cbn;
    try (split; [discriminate | intros [H1 H2]; discriminate]).
  - destruct b1, b2; cbn; split; try discriminate; try tauto;
      intros [H1 H2]; discriminate.
  - apply IH.
Qed.

Lemma nth_error_map_true {A : Type} (f : A -> bool) (a : list A) (i : nat) :
  nth_error (map f a) i = Some true
  <-> exists v : A, nth_error a i = Some v /\ f v = true.
Proof.
  rewrite nth_error_map. destruct (nth_error a i) as [v |]; cbn; split.
  - intros [= H]. eauto.
  - intros (w & [= <-] & H). now rewrite H.
  - discriminate.
  - intros (w & H & _). discriminate H.
Qed.

Lemma nth_error_combine {A B : Type} (a : list A) (b : list B) (i : nat) (v : A) (w : B) :
  nth_error (combine a b) i = Some (v, w)
  <-> nth_error a i = Some v /\ nth_error b i = Some w.
Proof.
  revert b i. induction a as [| v0 a IH]; intros [| w0 b] [| i]; cbn;
    try (split; [discriminate | intros [H1 H2]; discriminate]).
  - split; [intros [= -> ->]; auto | intros [[= ->] [= ->]]; reflexivity].
  - apply IH.
Qed.

(** A sample of a cut, for a mask that is the conjunction of three tests on
    the two arrays. *)
Lemma In_keep (mask : list bool) (time pot : list Q) (t p : Q) :
  In (t, p) (combine (fst (keep mask time pot)) (snd (keep mask time pot)))
  <-> exists i : nat,
      nth_error mask i = Some true
      /\ nth_error time i = Some t /\ nth_error pot i = Some p.
Proof.
  unfold keep. cbn [fst snd]. rewrite select_combine, In_select_nth.
  split; intros (i & H1 & H2); exists i.
  - apply nth_error_combine in H2. tauto.
  - split; [tauto |]. apply nth_error_combine. tauto.
Qed.

(** Every branch that returns hands back one mask applied to both
    arrays. *)
Lemma cut_one_maximum_keep (time pot min_x max_x max_v : list Q) (r : cut) :
  cut_one_maximum time pot min_x max_x max_v = Return r ->
  exists mask : list bool,
    length mask = Nat.min (length pot) (length time) /\ r = keep mask time pot.
Proof.
  unfold cut_one_maximum, return_sep. intros H. branch_cases H;
    injection H as <-; eexists; (split; [| reflexivity]);
    rewrite ?mask_and_length, ?length_map; reflexivity.
Qed.

Lemma cut_two_maxima_keep (time pot min_x max_x max_v : list Q) (r : cut) :
  cut_two_maxima time pot min_x max_x max_v = Return r ->
  exists mask : list bool,
    length mask = Nat.min (length pot) (length time) /\ r = keep mask time pot.
Proof.
  unfold cut_two_maxima, return_sep. intros H. branch_cases H;
    injection H as <-; eexists; (split; [| reflexivity]);
    rewrite ?mask_and_length, ?length_map; lia.
Qed.

Lemma cut_many_maxima_keep (time pot max_x max_v : list Q) (r : cut) :
  cut_many_maxima time pot max_x max_v = Return r ->
  exists mask : list bool,
    length mask = Nat.min (length pot) (length time) /\ r = keep mask time pot.
Proof.
  unfold cut_many_maxima, return_sep. intros H. branch_cases H;
    injection H as <-; eexists; (split; [| reflexivity]);
    rewrite ?mask_and_length, ?length_map; lia.
Qed.

Lemma select_length_same {A B : Type} (mask : list bool) :
  forall (a : list A) (b : list B),
    length a = length b -> length (select mask a) = length (select mask b).
Proof.
  induction mask as [| m mask IH]; intros [| v a] [| w b] H; cbn in *;
    try reflexivity; try discriminate H.
  destruct m; cbn; auto.
Qed.

(** Whatever the number of extrema, a cut that [potential_well_cut] returns
    is one boolean mask applied to the time array and to the potential
    array: the two returned arrays have one length, they pair each kept
    time with its own potential value, and they keep the order of the
    input.  The inputs have one length themselves. *)
Theorem potential_well_cut_is_a_selection
    (time_potential potential_array ts ps : list Q) :
  snd (potential_well_cut time_potential potential_array) = Return (ts, ps) ->
  length potential_array = length time_potential
  /\ length ts = length ps
  /\ exists saved_indexes : list bool,
      length saved_indexes = length time_potential
      /\ ts = select saved_indexes time_potential
      /\ ps = select saved_indexes potential_array.
Proof.
  unfold potential_well_cut.
  destruct (minmax_location time_potential potential_array)
    as [[[min_x max_x] [min_v max_v]] | e] eqn:Hminmax; [| discriminate].
  destruct (minmax_location_shape _ _ _ _ _ _ Hminmax) as (_ & _ & Hlen & _).
  unfold cut_from_extrema.
  intros H.
  assert (Hkeep : exists mask : list bool,
             length mask = Nat.min (length potential_array) (length time_potential)
             /\ (ts, ps) = keep mask time_potential potential_array).
  { repeat match type of H with
           | context [if ?b then _ else _] => destruct b
           end; cbn [snd return_sep] in H; try discriminate H.
    - now apply cut_one_maximum_keep in H.
    - now apply cut_two_maxima_keep in H.
    - now apply cut_many_maxima_keep in H. }
  destruct Hkeep as (mask & Hmask & Heq). unfold keep in Heq.
  injection Heq as -> ->.
  split; [exact Hlen | split].
  - apply select_length_same. congruence.
  - exists mask. rewrite Hmask, Hlen, Nat.min_id. auto.
Qed.

Lemma potential_well_cut_is_a_selection_witness :
  length [0; 3; 1; 0; 1; 4] = length [0; 1; 2; 3; 4; 5]
  /\ length [2; 3; 4] = length [1; 0; 1]
  /\ exists saved_indexes : list bool,
      length saved_indexes = length [0; 1; 2; 3; 4; 5]
      /\ [2; 3; 4] = select saved_indexes [0; 1; 2; 3; 4; 5]
      /\ [1; 0; 1] = select saved_indexes [0; 3; 1; 0; 1; 4].
Proof.
  apply (potential_well_cut_is_a_selection [0; 1; 2; 3; 4; 5] [0; 3; 1; 0; 1; 4]).
  vm_compute. reflexivity.
Defined.


Lemma Qeq_bool_false (a b : Q) : ~ a == b -> Qeq_bool a b = false.
Proof.
  intros H. destruct (Qeq_bool a b) eqn:E; [| reflexivity].
  apply Qeq_bool_iff in E. contradiction.
Qed.

Lemma Qeq_bool_true (a b : Q) : a == b -> Qeq_bool a b = true.
Proof. apply Qeq_bool_iff. Qed.

(** Unfolding of a sample of a cut into the tests of its mask. *)
Ltac sample_tests H :=
  apply In_keep in H;
  let i := fresh "i" in
  let Hm := fresh "Hm" in
  let Ht := fresh "Ht" in
  let Hp := fresh "Hp" in
  destruct H as (i & Hm & Ht & Hp);
  repeat match goal with
         | H : nth_error (mask_and _ _) _ = Some true |- _ =>
             apply nth_error_mask_and in H; destruct H
         | H : nth_error (map _ _) _ = Some true |- _ =>
             apply nth_error_map_true in H; destruct H as (? & ? & ?)
         end;
  repeat match goal with
         | H1 : nth_error ?l ?i = Some ?a, H2 : nth_error ?l ?i = Some ?b |- _ =>
             assert (a = b) by congruence; subst a; clear H1
         end;
  unfold Qgtb in *;
  repeat match goal with
         | H : Qltb _ _ = true |- _ => apply Qltb_lt in H
         end.

(** With two maxima and at least one minimum [potential_well_cut] always
    returns, and every sample it returns is a sample of the input that lies
    strictly below the potential value of both maxima and strictly between
    the positions of the two maxima. *)
Theorem potential_well_cut_two_maxima
    (time_potential potential_array min_x max_x min_v max_v : list Q) :
  minmax_location time_potential potential_array
  = Return ((min_x, max_x), (min_v, max_v)) ->
  (1 <= length min_x)%nat ->
  length max_x = 2%nat ->
  exists (m1 m2 v1 v2 : Q) (ts ps : list Q),
    max_x = [m1; m2] /\ max_v = [v1; v2]
    /\ potential_well_cut time_potential potential_array = ([], Return (ts, ps))
    /\ forall t p : Q,
        In (t, p) (combine ts ps) ->
        In (t, p) (combine time_potential potential_array)
        /\ p < v1 /\ p < v2
        /\ Qmin m1 m2 < t /\ t < Qmax m1 m2.
Proof.
  intros Hminmax Hmin Htwo.
  destruct (minmax_location_shape _ _ _ _ _ _ Hminmax) as (_ & Hv & _ & _).
  destruct max_x as [| m1 [| m2 [| ? ?]]]; try discriminate Htwo.
  destruct max_v as [| v1 [| v2 [| ? ?]]]; try discriminate Hv.
  destruct min_x as [| min0 min_x]; [cbn in Hmin; lia |].
  exists m1, m2, v1, v2.
  unfold potential_well_cut. rewrite Hminmax. unfold cut_from_extrema.
  cbn [length Nat.eqb]. rewrite andb_false_r.
  unfold cut_two_maxima. cbn [amin amax fold_left bind map select].
  pose proof (Q.le_min_l v1 v2) as Hl1. pose proof (Q.le_min_r v1 v2) as Hl2.
  pose proof (Q.le_min_l m1 m2) as Hm1. pose proof (Q.le_min_r m1 m2) as Hm2.
  pose proof (Q.le_max_l m1 m2) as HM1. pose proof (Q.le_max_r m1 m2) as HM2.
  assert (Hsample :
            forall (mask : list bool) (t p : Q),
              In (t, p) (combine (fst (keep mask time_potential potential_array))
                                 (snd (keep mask time_potential potential_array))) ->
              In (t, p) (combine time_potential potential_array)).
  { intros mask t p H. apply In_keep in H. destruct H as (i & _ & Ht & Hp).
    apply (nth_error_In _ i). apply nth_error_combine. auto. }
  destruct (Q_dec v1 v2) as [[Hlt | Hgt] | Heq].
  - (* the first maximum is the lower one *)
    rewrite (Qeq_bool_true v1 (Qmin v1 v2)) by (symmetry; apply Q.min_l; Lqa.lra).
    rewrite (Qeq_bool_false v2 (Qmin v1 v2)) by (rewrite Q.min_l; Lqa.lra).
    rewrite (Qeq_bool_false v1 (Qmax v1 v2)) by (rewrite Q.max_r; Lqa.lra).
    rewrite (Qeq_bool_true v2 (Qmax v1 v2)) by (symmetry; apply Q.max_r; Lqa.lra).
    cbn [length Nat.eqb item nth_error bind return_sep].
    destruct (Qgtb min0 m1); eexists; eexists;
      (split; [reflexivity | split; [reflexivity | split; [reflexivity |]]]);
      intros t p H; (split; [exact (Hsample _ t p H) |]);
      sample_tests H; repeat split; Lqa.lra.
  - (* the second maximum is the lower one *)
    rewrite (Qeq_bool_false v1 (Qmin v1 v2)) by (rewrite Q.min_r; Lqa.lra).
    rewrite (Qeq_bool_true v2 (Qmin v1 v2)) by (symmetry; apply Q.min_r; Lqa.lra).
    rewrite (Qeq_bool_true v1 (Qmax v1 v2)) by (symmetry; apply Q.max_l; Lqa.lra).
    rewrite (Qeq_bool_false v2 (Qmax v1 v2)) by (rewrite Q.max_l; Lqa.lra).
    cbn [length Nat.eqb item nth_error bind return_sep].
    destruct (Qgtb min0 m2); eexists; eexists;
      (split; [reflexivity | split; [reflexivity | split; [reflexivity |]]]);
      intros t p H; (split; [exact (Hsample _ t p H) |]);
      sample_tests H; repeat split; Lqa.lra.
  - (* the two maxima are tied *)
    rewrite (Qeq_bool_true v1 (Qmin v1 v2)) by (symmetry; apply Q.min_l; Lqa.lra).
    rewrite (Qeq_bool_true v2 (Qmin v1 v2)) by (symmetry; apply Q.min_r; Lqa.lra).
    cbn [length Nat.eqb item nth_error bind return_sep].
    eexists; eexists;
      (split; [reflexivity | split; [reflexivity | split; [reflexivity |]]]);
      intros t p H; (split; [exact (Hsample _ t p H) |]);
      sample_tests H; repeat split; Lqa.lra.
Qed.

Lemma potential_well_cut_two_maxima_witness :
  exists min_x max_x min_v max_v : list Q,
    minmax_location [0; 1; 2; 3; 4; 5; 6] [0; 2; 0; -1; 0; 3; 0]
    = Return ((min_x, max_x), (min_v, max_v))
    /\ (1 <= length min_x)%nat
    /\ length max_x = 2%nat
    /\ exists (m1 m2 v1 v2 : Q) (ts ps : list Q),
        max_x = [m1; m2] /\ max_v = [v1; v2]
        /\ potential_well_cut [0; 1; 2; 3; 4; 5; 6] [0; 2; 0; -1; 0; 3; 0]
           = ([], Return (ts, ps))
        /\ forall t p : Q,
            In (t, p) (combine ts ps) ->
            In (t, p) (combine [0; 1; 2; 3; 4; 5; 6] [0; 2; 0; -1; 0; 3; 0])
            /\ p < v1 /\ p < v2
            /\ Qmin m1 m2 < t /\ t < Qmax m1 m2.
Proof.
  do 4 eexists.
  split; [vm_compute; reflexivity |].
  split; [cbn; lia |].
  split; [reflexivity |].
  eapply potential_well_cut_two_maxima.
  - vm_compute. reflexivity.
  - cbn. lia.
  - reflexivity.
Defined.


Lemma fold_left_Qmin_le (l : list Q) :
  forall init : Q,
    fold_left Qmin l init <= init
    /\ forall v : Q, In v l -> fold_left Qmin l init <= v.
Proof.
  induction l as [| w l IH]; intros init; cbn [fold_left].
  - split; [Lqa.lra | intros v []].
  - destruct (IH (Qmin init w)) as [H1 H2].
    pose proof (Q.le_min_l init w). pose proof (Q.le_min_r init w).
    split; [Lqa.lra |].
    intros v [<- | Hv]; [Lqa.lra | auto].
Qed.

Lemma fold_left_Qmax_ge (l : list Q) :
  forall init : Q,
    init <= fold_left Qmax l init
    /\ forall v : Q, In v l -> v <= fold_left Qmax l init.
Proof.
  induction l as [| w l IH]; intros init; cbn [fold_left].
  - split; [Lqa.lra | intros v []].
  - destruct (IH (Qmax init w)) as [H1 H2].
    pose proof (Q.le_max_l init w). pose proof (Q.le_max_r init w).
    split; [Lqa.lra |].
    intros v [<- | Hv]; [Lqa.lra | auto].
Qed.

(** [np.min] is a lower bound and [np.max] an upper bound. *)
Lemma amin_le (a : list Q) (m v : Q) : amin a = Return m -> In v a -> m <= v.
Proof.
  destruct a as [| w a]; [discriminate |]. cbn [amin]. intros [= <-].
  destruct (fold_left_Qmin_le a w) as [H1 H2].
  intros [<- | Hv]; auto.
Qed.

Lemma amax_ge (a : list Q) (m v : Q) : amax a = Return m -> In v a -> v <= m.
Proof.
  destruct a as [| w a]; [discriminate |]. cbn [amax]. intros [= <-].
  destruct (fold_left_Qmax_ge a w) as [H1 H2].
  intros [<- | Hv]; auto.
Qed.

(** With more than two maxima and at least one minimum, every sample that
    [potential_well_cut] returns lies strictly between the leftmost and the
    rightmost maximum position and strictly below the potential value of
    the maxima at those two positions. *)
Theorem potential_well_cut_many_maxima
    (time_potential potential_array min_x max_x min_v max_v ts ps : list Q) :
  minmax_location time_potential potential_array
  = Return ((min_x, max_x), (min_v, max_v)) ->
  (1 <= length min_x)%nat ->
  (2 < length max_x)%nat ->
  snd (potential_well_cut time_potential potential_array) = Return (ts, ps) ->
  exists left_max_time right_max_time : Q,
    amin max_x = Return left_max_time
    /\ amax max_x = Return right_max_time
    /\ forall t p : Q,
        In (t, p) (combine ts ps) ->
        In (t, p) (combine time_potential potential_array)
        /\ left_max_time < t /\ t < right_max_time
        /\ forall (j : nat) (m v : Q),
            nth_error max_x j = Some m -> nth_error max_v j = Some v ->
            m == left_max_time \/ m == right_max_time ->
            p < v.
Proof.
  intros Hminmax Hmin Hmany.
  unfold potential_well_cut. rewrite Hminmax. unfold cut_from_extrema.
  destruct min_x as [| min0 min_x]; [cbn in Hmin; lia |].
  destruct max_x as [| m1 [| m2 [| m3 max_x]]]; cbn [length] in Hmany; try lia.
  cbn [length Nat.eqb]. rewrite andb_false_r. cbn [snd].
  unfold cut_many_maxima.
  destruct (amin (m1 :: m2 :: m3 :: max_x)) as [L |] eqn:EL; [| discriminate].
  destruct (amax (m1 :: m2 :: m3 :: max_x)) as [R |] eqn:ER; [| discriminate].
  cbn [bind].
  set (left_max_value :=
         select (map (fun t => Qeq_bool t L) (m1 :: m2 :: m3 :: max_x)) max_v).
  set (right_max_value :=
         select (map (fun t => Qeq_bool t R) (m1 :: m2 :: m3 :: max_x)) max_v).
  destruct (Nat.eqb (length left_max_value) (length right_max_value));
    [| discriminate].
  destruct (amin (left_max_value ++ right_max_value)) as [s |] eqn:Es;
    cbn [bind return_sep]; [| discriminate].
  intros [= <- <-]. exists L, R. split; [reflexivity | split; [reflexivity |]].
  intros t p H.
  split.
  { apply In_keep in H. destruct H as (i & _ & Ht & Hp).
    apply (nth_error_In _ i). apply nth_error_combine. auto. }
  sample_tests H.
  split; [assumption | split; [assumption |]].
  intros j m v Hm Hv Hend.
  assert (Hin : In v (left_max_value ++ right_max_value)).
  { apply in_or_app. destruct Hend as [Hend | Hend]; [left | right];
      apply In_select_nth; exists j; (split; [| exact Hv]);
      apply nth_error_map_true; exists m; (split; [exact Hm |]);
      now apply Qeq_bool_true. }
  pose proof (amin_le _ _ _ Es Hin). Lqa.lra.
Qed.

Lemma potential_well_cut_many_maxima_witness :
  exists min_x max_x min_v max_v : list Q,
    minmax_location [0; 1; 2; 3; 4; 5; 6; 7; 8; 9; 10] [0; 2; 0; -1; 0; 3; 0; -1; 0; 2; 0]
    = Return ((min_x, max_x), (min_v, max_v))
    /\ (1 <= length min_x)%nat
    /\ (2 < length max_x)%nat
    /\ snd (potential_well_cut [0; 1; 2; 3; 4; 5; 6; 7; 8; 9; 10]
                               [0; 2; 0; -1; 0; 3; 0; -1; 0; 2; 0])
       = Return ([2; 3; 4; 6; 7; 8], [0; -1; 0; 0; -1; 0])
    /\ exists left_max_time right_max_time : Q,
        amin max_x = Return left_max_time
        /\ amax max_x = Return right_max_time
        /\ forall t p : Q,
            In (t, p) (combine [2; 3; 4; 6; 7; 8] [0; -1; 0; 0; -1; 0]) ->
            left_max_time < t /\ t < right_max_time.
Proof.
  do 4 eexists.
  split; [vm_compute; reflexivity |].
  split; [cbn; lia |].
  split; [cbn; lia |].
  split; [vm_compute; reflexivity |].
  edestruct (potential_well_cut_many_maxima
               [0; 1; 2; 3; 4; 5; 6; 7; 8; 9; 10] [0; 2; 0; -1; 0; 3; 0; -1; 0; 2; 0])
    as (L & R & HL & HR & H).
  - vm_compute. reflexivity.
  - cbn. lia.
  - cbn. lia.
  - vm_compute. reflexivity.
  - exists L, R. split; [exact HL | split; [exact HR |]].
    intros t p Htp. destruct (H t p Htp) as (_ & H1 & H2 & _). auto.
Defined.

(** A value of [np.interp] lies between two of the ordinates. *)
Lemma segment_between (x0 x1 y0 y1 x : Q) :
  x0 <= x -> x < x1 ->
  (y0 <= (y1 - y0) / (x1 - x0) * (x - x0) + y0 <= y1)
  \/ (y1 <= (y1 - y0) / (x1 - x0) * (x - x0) + y0 <= y0).
Proof.
  intros H0 H1.
  assert (Hd : 0 < x1 - x0) by Lqa.lra.
  set (s := (y1 - y0) / (x1 - x0)).
  assert (Hs : s * (x1 - x0) == y1 - y0).
  { unfold s. field. Lqa.lra. }
  destruct (Qlt_le_dec y1 y0) as [Hy | Hy].
  - right. assert (s <= 0).
    { unfold s. apply Qle_shift_div_r; [exact Hd | Lqa.lra]. }
    split; Lqa.nra.
  - left. assert (0 <= s).
    { unfold s. apply Qle_shift_div_l; [exact Hd | Lqa.lra]. }
    split; Lqa.nra.
Qed.

Lemma interp_from_between (xp : list Q) :
  forall (fp : list Q) (x : Q),
    length xp = length fp -> fp <> [] ->
    match xp with x0 :: _ => x0 <= x | [] => True end ->
    exists lo hi : Q,
      In lo fp /\ In hi fp /\ lo <= interp_from xp fp x <= hi.
Proof.
  induction xp as [| x0 xp IH]; intros fp x Hlen Hne Hx.
  - destruct fp; [congruence | discriminate Hlen].
  - destruct fp as [| y0 fp]; [congruence |].
    destruct xp as [| x1 xp], fp as [| y1 fp]; try discriminate Hlen.
    + cbn. exists y0, y0. repeat split; auto; Lqa.lra.
    + cbn [interp_from].
      destruct (Qltb x x1) eqn:E.
      * apply Qltb_lt in E.
        destruct (segment_between x0 x1 y0 y1 x Hx E) as [H | H].
        -- exists y0, y1. cbn. tauto.
        -- exists y1, y0. cbn. tauto.
      * apply Qltb_ge in E.
        destruct (IH (y1 :: fp) x) as (lo & hi & Hlo & Hhi & Hb).
        -- cbn in *. lia.
        -- discriminate.
        -- exact E.
        -- exists lo, hi. cbn in *. tauto.
Qed.

Lemma interp1_between (xp fp : list Q) (x : Q) :
  length xp = length fp -> fp <> [] ->
  exists lo hi : Q, In lo fp /\ In hi fp /\ lo <= interp1 xp fp x <= hi.
Proof.
  intros Hlen Hne. unfold interp1.
  destruct xp as [| x0 xp], fp as [| y0 fp]; try congruence; try discriminate Hlen.
  destruct (Qltb x x0) eqn:E.
  - exists y0, y0. cbn. repeat split; auto; Lqa.lra.
  - apply Qltb_ge in E. apply interp_from_between; auto.
Qed.

Lemma minmax_location_values (x f min_x max_x min_v max_v : list Q) :
  minmax_location x f = Return ((min_x, max_x), (min_v, max_v)) ->
  min_v = map (interp1 x f) min_x /\ max_v = map (interp1 x f) max_x.
Proof.
  unfold minmax_location. intros H. returned H.
  injection H as <- <- <- <-.
  repeat match goal with
         | E : interp _ _ _ = Return _ |- _ =>
             apply interp_Return in E; destruct E as (-> & ? & ?)
         end.
  split; reflexivity.
Qed.

(** The potential values that [minmax_location] reports at the minima and
    maxima are interpolated: each of them lies between two values of the
    sampled function, so none is below the smallest or above the largest
    sample. *)
Theorem minmax_location_values_in_range (x f min_x max_x min_v max_v : list Q) :
  minmax_location x f = Return ((min_x, max_x), (min_v, max_v)) ->
  forall v : Q,
    In v (min_v ++ max_v) ->
    exists lo hi : Q, In lo f /\ In hi f /\ lo <= v <= hi.
Proof.
  intros H v Hv.
  destruct (minmax_location_values _ _ _ _ _ _ H) as [-> ->].
  destruct (minmax_location_shape _ _ _ _ _ _ H) as (_ & _ & Hlen & Hx).
  assert (Hne : f <> []) by (intros ->; cbn in Hlen; lia).
  apply in_app_or in Hv.
  destruct Hv as [Hv | Hv]; apply in_map_iff in Hv; destruct Hv as (p & <- & _);
    apply interp1_between; congruence.
Qed.

Lemma minmax_location_values_in_range_witness :
  exists min_x max_x min_v max_v : list Q,
    minmax_location [0; 1; 2; 3; 4; 5] [0; 3; 1; 0; 1; 4]
    = Return ((min_x, max_x), (min_v, max_v))
    /\ forall v : Q,
        In v (min_v ++ max_v) ->
        exists lo hi : Q, In lo [0; 3; 1; 0; 1; 4] /\ In hi [0; 3; 1; 0; 1; 4]
                          /\ lo <= v <= hi.
Proof.
  do 4 eexists.
  split; [vm_compute; reflexivity |].
  eapply (minmax_location_values_in_range [0; 1; 2; 3; 4; 5] [0; 3; 1; 0; 1; 4]).
  vm_compute. reflexivity.
Defined.

End ExtremaFacts.


(* ================================================================== *)
(** * Further properties of the normalisation helpers *)

Module PeriodicityFacts.
Import Normalization NormalizationFacts.
Local Open Scope R_scope.

Lemma np_floor_add_int (x : R) (k : Z) : np_floor (x + IZR k) = np_floor x + IZR k.
Proof. unfold np_floor. now rewrite Zfloor_addz, plus_IZR. Qed.

Lemma time_modulo_shift (dt dt_offset T : R) (k : Z) :
  T <> 0 ->
  time_modulo (dt + IZR k * T) dt_offset T = time_modulo dt dt_offset T.
Proof.
  intros HT. unfold time_modulo.
  replace ((dt + IZR k * T + dt_offset) / T) with ((dt + dt_offset) / T + IZR k)
    by (field; lra).
  rewrite np_floor_add_int. ring.
Qed.

Lemma phase_modulo_shift (phi : R) (k : Z) :
  phase_modulo_above_transition (phi + 2 * PI * IZR k)
  = phase_modulo_above_transition phi
  /\ phase_modulo_below_transition (phi + 2 * PI * IZR k)
     = phase_modulo_below_transition phi.
Proof.
  pose proof PI_RGT_0 as Hpi.
  unfold phase_modulo_above_transition, phase_modulo_below_transition.
  replace ((phi + 2 * PI * IZR k) / (2 * PI)) with (phi / (2 * PI) + IZR k)
    by (field; lra).
  replace (phi / (2 * PI) + IZR k + 0.5) with (phi / (2 * PI) + 0.5 + IZR k) by ring.
  rewrite !np_floor_add_int. split; ring.
Qed.




End PeriodicityFacts.


(* ================================================================== *)
(** * Further properties of the Hamiltonian, the separatrix and the total
      voltage *)

Module BucketPeriodFacts.
Import Py Normalization NormalizationFacts PeriodicityFacts RF.
Local Open Scope R_scope.

(** The RF period of the first harmonic at the current turn. *)
Lemma bunch_phase_shift (RFP : RFSectionParameters.t) (dt : R) (k : Z) :
  RFSectionParameters.omega_RF RFP 0 (RFSectionParameters.counter RFP) <> 0 ->
  bunch_phase RFP
    (dt + IZR k * (2 * PI / RFSectionParameters.omega_RF RFP 0
                              (RFSectionParameters.counter RFP)))
  = bunch_phase RFP dt + 2 * PI * IZR k.
Proof. intros Homega. unfold bunch_phase. field. exact Homega. Qed.

Lemma hamiltonian_shift (GP : GeneralParameters.t) (RFP : RFSectionParameters.t)
    (B : Beam.t) (dt dE : R) (total_voltage : option (nat -> R)) (k : Z) :
  let counter := RFSectionParameters.counter RFP in
  RFSectionParameters.omega_RF RFP 0 counter <> 0 ->
  RFSectionParameters.eta_0 RFP counter <> 0 ->
  hamiltonian GP RFP B
    (dt + IZR k * (2 * PI / RFSectionParameters.omega_RF RFP 0 counter)) dE total_voltage
  = hamiltonian GP RFP B dt dE total_voltage.
Proof.
  intros counter Homega Heta.
  pose proof (bunch_phase_shift RFP dt k Homega) as Hshift.
  unfold bunch_phase in Hshift. fold counter in Hshift.
  unfold hamiltonian. fold counter. cbv zeta.
  rewrite Hshift.
  destruct (phase_modulo_shift
              (RFSectionParameters.omega_RF RFP 0 counter * dt
               + RFSectionParameters.phi_RF RFP 0 counter) k) as [Ha Hb].
  destruct (Rlt_dec (RFSectionParameters.eta_0 RFP counter) 0) as [Hneg | Hnneg].
  - rewrite Hb. reflexivity.
  - destruct (Rlt_dec 0 (RFSectionParameters.eta_0 RFP counter)) as [Hpos | Hnpos].
    + rewrite Ha. reflexivity.
    + exfalso. lra.
Qed.






(** The projection at the head of [separatrix] does not see whole RF
    periods. *)
Lemma separatrix_fold_periodic (RFP : RFSectionParameters.t) (dt : R) (k : Z) :
  let counter := RFSectionParameters.counter RFP in
  0 < RFSectionParameters.omega_RF RFP 0 counter ->
  RFSectionParameters.eta_0 RFP counter <> 0 ->
  separatrix_fold RFP
    (dt + IZR k * (2 * PI / RFSectionParameters.omega_RF RFP 0 counter))
  = separatrix_fold RFP dt.
Proof.
  intros counter Homega Heta. pose proof PI_RGT_0 as Hpi.
  assert (HT : 0 < 2 * PI / RFSectionParameters.omega_RF RFP 0 counter).
  { apply Rdiv_lt_0_compat; lra. }
  unfold separatrix_fold. fold counter. cbv zeta.
  destruct (Rlt_dec (RFSectionParameters.eta_0 RFP counter) 0) as [Hneg | Hnneg].
  - apply time_modulo_shift. lra.
  - destruct (Rlt_dec 0 (RFSectionParameters.eta_0 RFP counter)) as [Hpos | Hnpos].
    + apply time_modulo_shift. lra.
    + exfalso. lra.
Qed.





End BucketPeriodFacts.

Module TotalVoltageMoreFacts.
Import Py RF Bucket TotalVoltageFacts.
Local Open Scope R_scope.

(** The array returned in mode ['first'], turn by turn. *)
Lemma total_voltage_first_value
    (s0 : RFSectionParameters.t) (others : list RFSectionParameters.t)
    (Vtot : nat -> R) (k : nat) :
  snd (total_voltage (s0 :: others) "first") = Return (Array Vtot) ->
  Vtot k = sqrt (first_harmonic_cos (s0 :: others) k ^ 2
                 + first_harmonic_sin (s0 :: others) k ^ 2).
Proof.
  unfold total_voltage. rewrite mode_first.
  pose proof (add_sections_sums others 1
                (fun k => RFSectionParameters.voltage s0 0 k
                          * cos (RFSectionParameters.phi_RF s0 0 k))
                (fun k => RFSectionParameters.voltage s0 0 k
                          * sin (RFSectionParameters.phi_RF s0 0 k))
                []) as (Hc & Hs & _).
  destruct (add_sections 1 others _ _ []) as [[Vcos Vsin] out].
  cbn [fst snd] in *. intros [= <-]. rewrite Hc, Hs. reflexivity.
Qed.

(** The length of the sum of two plane vectors is at most the sum of their
    lengths. *)
Lemma quadrature_triangle (a b c d : R) :
  sqrt ((a + c) ^ 2 + (b + d) ^ 2) <= sqrt (a ^ 2 + b ^ 2) + sqrt (c ^ 2 + d ^ 2).
Proof.
  pose proof (Rgeom.triangle (a + c) (b + d) 0 0 c d) as H.
  unfold Rgeom.dist_euc in H.
  replace (a + c - 0) with (a + c) in H by ring.
  replace (b + d - 0) with (b + d) in H by ring.
  replace (a + c - c) with a in H by ring.
  replace (b + d - d) with b in H by ring.
  replace (c - 0) with c in H by ring.
  replace (d - 0) with d in H by ring.
  rewrite !Rsqr_pow2 in H. exact H.
Qed.

Lemma quadrature_single (V phi : R) :
  sqrt ((V * cos phi) ^ 2 + (V * sin phi) ^ 2) = Rabs V.
Proof.
  replace ((V * cos phi) ^ 2 + (V * sin phi) ^ 2)
    with (Rsqr V * (Rsqr (sin phi) + Rsqr (cos phi))) by (unfold Rsqr; ring).
  rewrite sin2_cos2, Rmult_1_r. apply sqrt_Rsqr_abs.
Qed.

Lemma quadrature_sum_bound (sections : list RFSectionParameters.t) (k : nat) :
  sqrt (first_harmonic_cos sections k ^ 2 + first_harmonic_sin sections k ^ 2)
  <= sum_abs_voltage sections k.
Proof.
  induction sections as [| s sections IH].
  - cbn. replace (0 * (0 * 1) + 0 * (0 * 1)) with 0 by ring.
    rewrite sqrt_0. lra.
  - cbn [first_harmonic_cos first_harmonic_sin sum_abs_voltage fold_right].
    fold (first_harmonic_cos sections k). fold (first_harmonic_sin sections k).
    fold (sum_abs_voltage sections k).
    eapply Rle_trans; [apply quadrature_triangle |].
    rewrite quadrature_single. lra.
Qed.



Lemma first_harmonic_sums_permutation (l l' : list RFSectionParameters.t) (k : nat) :
  Permutation l l' ->
  first_harmonic_cos l k = first_harmonic_cos l' k
  /\ first_harmonic_sin l k = first_harmonic_sin l' k.
Proof.
  induction 1 as [| s l l' _ [IHc IHs] | s s' l | l l' l'' _ [IH1c IH1s] _ [IH2c IH2s]];
    cbn [first_harmonic_cos first_harmonic_sin fold_right] in *.
  - split; reflexivity.
  - fold (first_harmonic_cos l k) (first_harmonic_cos l' k)
         (first_harmonic_sin l k) (first_harmonic_sin l' k).
    rewrite IHc, IHs. split; reflexivity.
  - split; ring.
  - split; congruence.
Qed.



End TotalVoltageMoreFacts.


(* ================================================================== *)
(** * Further properties of the frequency tracker *)

Module TrackerMoreFacts.
Import Py Np Tracker PotentialWellFacts ExtremaFacts TrackerFacts.
Local Open Scope Q_scope.

Section Results.

Variable abs_rfft : list Q -> nat -> list Q.

(** The loop keeps the number of slots of the result arrays. *)
Lemma particle_loop_lengths (n_sampling : nat) (start_turn end_turn : Z)
    (max_theta_range min_theta_range : Q) (m : nat) :
  forall (k n : nat) (self self' : synchrotron_frequency_tracker),
    particle_loop abs_rfft n_sampling start_turn end_turn
      max_theta_range min_theta_range (seq k m) self = Return self' ->
    result_lengths self n -> (k + m <= n)%nat ->
    (forall i : nat, (k <= i)%nat ->
       nth i (frequency_theta_save self) 0 = 0
       /\ nth i (frequency_dE_save self) 0 = 0) ->
    result_lengths self' n.
Proof.
  induction m as [| m IH]; intros k n self self' H Hlen Hkm Hzero.
  - cbn in H. now injection H as <-.
  - cbn [seq particle_loop] in H.
    destruct (particle_step abs_rfft n_sampling start_turn end_turn
                max_theta_range min_theta_range self k) as [self1 |] eqn:Estep;
      cbn [bind] in H; [| discriminate H].
    destruct (Hzero k (Nat.le_refl k)) as [Z1 Z2].
    destruct (particle_step_settles abs_rfft n_sampling start_turn end_turn
                max_theta_range min_theta_range self self1 k n Estep Hlen
                ltac:(lia) Z1 Z2) as (_ & Hlen1 & _ & Hslot1).
    apply (IH (S k) n self1 self' H Hlen1 ltac:(lia)).
    intros i Hi. destruct (Hslot1 i ltac:(lia)) as (E1 & E2 & _).
    rewrite E1, E2. apply Hzero. lia.
Qed.

(** What [frequency_calculation] has computed when it returns. *)
Lemma frequency_calculation_returns
    (self self' : synchrotron_frequency_tracker)
    (n_sampling : nat) (start_turn end_turn : option Z) :
  frequency_calculation abs_rfft self n_sampling start_turn end_turn = Return self' ->
  exists (first_turn : list Q) (max_theta_range min_theta_range : Q),
    item (theta_save self) 0 = Return first_turn
    /\ amax first_turn = Return max_theta_range
    /\ amin first_turn = Return min_theta_range
    /\ rfftfreq n_sampling (timeStep self) = Return (frequency_array self')
    /\ theta_save self' = theta_save self
    /\ result_lengths self' (n_macroparticles self)
    /\ forall i : nat, (i < n_macroparticles self)%nat ->
         particle_settled abs_rfft n_sampling
           (window_start start_turn) (window_end self end_turn)
           max_theta_range min_theta_range self' i.
Proof.
  unfold frequency_calculation. intros H.
  destruct (item (theta_save self) 0) as [first_turn |] eqn:Efirst;
    cbn [bind] in H; [| discriminate H].
  destruct (amax first_turn) as [max_range |] eqn:Emax;
    cbn [bind] in H; [| discriminate H].
  destruct (amin first_turn) as [min_range |] eqn:Emin;
    cbn [bind] in H; [| discriminate H].
  destruct (rfftfreq n_sampling (timeStep self)) as [fa |] eqn:Efa;
    cbn [bind] in H; [| discriminate H].
  exists first_turn, max_range, min_range.
  split; [reflexivity |]. split; [exact Emax |]. split; [exact Emin |].
  assert (Hlen0 : result_lengths
                    {| n_macroparticles := n_macroparticles self;
                       timeStep := timeStep self;
                       nTurns := nTurns self;
                       theta_save := theta_save self;
                       dE_save := dE_save self;
                       frequency_theta_save := zeros (n_macroparticles self);
                       frequency_dE_save := zeros (n_macroparticles self);
                       max_theta_save := zeros (n_macroparticles self);
                       min_theta_save := zeros (n_macroparticles self);
                       frequency_array := fa |} (n_macroparticles self)).
  { unfold result_lengths, zeros. cbn. rewrite !repeat_length. auto. }
  assert (Hz0 : forall i : nat, (0 <= i)%nat ->
                  nth i (zeros (n_macroparticles self)) 0 = 0
                  /\ nth i (zeros (n_macroparticles self)) 0 = 0).
  { intros i _. split; apply nth_zeros. }
  pose proof (particle_loop_lengths n_sampling _ _ max_range min_range
                (n_macroparticles self) 0 (n_macroparticles self) _ _ H Hlen0
                ltac:(lia) Hz0) as Hlen.
  apply (particle_loop_settles abs_rfft n_sampling _ _ max_range min_range
           (n_macroparticles self) 0 (n_macroparticles self)) in H;
    [| exact Hlen0 | lia | exact Hz0].
  destruct H as ((_ & Ht & _ & Hf) & Hset & _). cbn in Ht, Hf.
  split; [now rewrite Hf |]. split; [exact Ht |]. split; [exact Hlen |].
  intros i Hi. apply Hset. lia.
Qed.

Lemma for_each_head {A B : Type} (f : A -> outcome B) (a : A) (l : list A) (r : list B) :
  for_each f (a :: l) = Return r ->
  exists (b : B) (r' : list B), f a = Return b /\ r = b :: r'.
Proof.
  cbn [for_each]. destruct (f a) as [b |]; cbn [bind]; [| discriminate].
  destruct (for_each f l) as [r' |]; cbn [bind]; [| discriminate].
  intros [= <-]. eauto.
Qed.

(** A window that starts at turn 0 and is not empty holds the first turn:
    the series of a particle starts with its initial coordinate. *)
Lemma column_from_first_turn (m : list (list Q)) (first_turn : list Q)
    (stop : Z) (i : nat) (theta : list Q) :
  item m 0 = Return first_turn ->
  column m 0 stop i = Return theta -> theta <> [] ->
  exists (v : Q) (theta' : list Q),
    nth_error first_turn i = Some v /\ theta = v :: theta'.
Proof.
  intros Hfirst Hcol Hne.
  destruct m as [| row0 m]; [discriminate Hfirst |].
  cbn in Hfirst. injection Hfirst as ->.
  unfold column, slice in Hcol.
  change (slice_bound (length (first_turn :: m)) 0) with 0%nat in Hcol.
  rewrite Nat.sub_0_r in Hcol. cbn [skipn] in Hcol.
  destruct (slice_bound (length (first_turn :: m)) stop) as [| hi].
  - cbn in Hcol. injection Hcol as <-. congruence.
  - cbn [firstn] in Hcol.
    apply for_each_head in Hcol. destruct Hcol as (v & theta' & Hv & ->).
    apply item_Return in Hv. eauto.
Qed.

(** With a window that starts at turn 0 (the default), the outermost
    particles of the initial ensemble are always counted as lost: a
    particle whose initial coordinate is the largest or the smallest of the
    first turn keeps both frequencies at zero, whatever its motion. *)
Theorem outermost_particles_are_lost
    (self self' : synchrotron_frequency_tracker)
    (n_sampling : nat) (start_turn end_turn : option Z)
    (first_turn : list Q) (max_theta_range min_theta_range v : Q) (i : nat) :
  frequency_calculation abs_rfft self n_sampling start_turn end_turn = Return self' ->
  window_start start_turn = 0%Z ->
  item (theta_save self) 0 = Return first_turn ->
  amax first_turn = Return max_theta_range ->
  amin first_turn = Return min_theta_range ->
  (i < n_macroparticles self)%nat ->
  nth_error first_turn i = Some v ->
  v == max_theta_range \/ v == min_theta_range ->
  nth i (frequency_theta_save self') 0 = 0
  /\ nth i (frequency_dE_save self') 0 = 0.
Proof.
  intros H Hstart Hfirst Hmax Hmin Hi Hv Hend.
  destruct (frequency_calculation_returns _ _ _ _ _ H)
    as (ft & M & m & Hft & HM & Hm & _ & Ht & _ & Hset).
  rewrite Hfirst in Hft. injection Hft as <-.
  rewrite Hmax in HM. injection HM as <-.
  rewrite Hmin in Hm. injection Hm as <-.
  destruct (Hset i Hi) as (theta & mx & mn & Hcol & Hmx & Hmn & _ & _ & _ & Hlost).
  rewrite Ht, Hstart in Hcol.
  assert (Hne : theta <> []) by (intros ->; discriminate Hmx).
  destruct (column_from_first_turn _ _ _ _ _ Hfirst Hcol Hne) as (v' & theta' & Hv' & ->).
  assert (v' = v) by congruence. subst v'.
  apply Hlost.
  pose proof (amax_ge _ _ v Hmx (or_introl eq_refl)).
  pose proof (amin_le _ _ v Hmn (or_introl eq_refl)).
  destruct Hend as [Hend | Hend]; [left | right]; Lqa.lra.
Qed.

(** When [frequency_calculation] returns, each of the four result arrays
    has one slot per particle, the frequency array has [n_sampling/2 + 1]
    bins, and for every particle the stored minimum of the excursion is not
    above the stored maximum. *)
Theorem frequency_calculation_result_shape
    (self self' : synchrotron_frequency_tracker)
    (n_sampling : nat) (start_turn end_turn : option Z) :
  frequency_calculation abs_rfft self n_sampling start_turn end_turn = Return self' ->
  length (frequency_theta_save self') = n_macroparticles self
  /\ length (frequency_dE_save self') = n_macroparticles self
  /\ length (max_theta_save self') = n_macroparticles self
  /\ length (min_theta_save self') = n_macroparticles self
  /\ length (frequency_array self') = S (n_sampling / 2)
  /\ forall i : nat, (i < n_macroparticles self)%nat ->
       nth i (min_theta_save self') 0 <= nth i (max_theta_save self') 0.
Proof.
  intros H.
  destruct (frequency_calculation_returns _ _ _ _ _ H)
    as (ft & M & m & _ & _ & _ & Hfa & _ & (L1 & L2 & L3 & L4) & Hset).
  do 4 (split; [assumption |]). split.
  - unfold rfftfreq in Hfa. cbv zeta in Hfa.
    destruct (Qeq_bool (inject_Z (Z.of_nat n_sampling) * timeStep self) 0);
      [discriminate Hfa |].
    injection Hfa as Hfa. rewrite <- Hfa. cbn [length].
    rewrite length_map, length_seq. reflexivity.
  - intros i Hi.
    destruct (Hset i Hi) as (theta & mx & mn & _ & Hmx & Hmn & -> & -> & _).
    destruct theta as [| v theta]; [discriminate Hmx |].
    pose proof (amax_ge _ _ v Hmx (or_introl eq_refl)).
    pose proof (amin_le _ _ v Hmn (or_introl eq_refl)).
    Lqa.lra.
Qed.

End Results.

Lemma outermost_particles_are_lost_witness :
  exists self' : synchrotron_frequency_tracker,
    frequency_calculation abs_rfft_two_samples three_particles 2 None None
    = Return self'
    /\ nth 2 (frequency_theta_save self') 0 = 0
    /\ nth 2 (frequency_dE_save self') 0 = 0.
Proof.
  eexists. split; [vm_compute; reflexivity |].
  apply (outermost_particles_are_lost abs_rfft_two_samples three_particles _ 2
           None None [-1; 0; 1] 1 (-1) 1 2).
  - vm_compute. reflexivity.
  - reflexivity.
  - reflexivity.
  - reflexivity.
  - reflexivity.
  - cbn. lia.
  - reflexivity.
  - left. reflexivity.
Defined.

Lemma frequency_calculation_result_shape_witness :
  exists self' : synchrotron_frequency_tracker,
    frequency_calculation abs_rfft_two_samples three_particles 2 None None
    = Return self'
    /\ length (frequency_theta_save self') = 3%nat
    /\ length (frequency_array self') = 2%nat.
Proof.
  eexists. split; [vm_compute; reflexivity |].
  destruct (frequency_calculation_result_shape abs_rfft_two_samples three_particles _ 2
              None None ltac:(vm_compute; reflexivity)) as (H1 & _ & _ & _ & H5 & _).
  split; [exact H1 | exact H5].
Defined.

End TrackerMoreFacts.


(* ================================================================== *)
(** * Properties of the comb filter and of the moving average *)

Module SignalProcessingFacts.
Import Py Np SignalProcessing PotentialWellFacts ExtremaFacts.
Local Open Scope Q_scope.



Lemma cumsum_from_length (a : list Q) : forall t : Q, length (cumsum_from t a) = length a.
Proof. induction a as [| v a IH]; intros t; cbn; auto. Qed.

(** An entry of a cumulative sum is the running total plus the samples up
    to it. *)
Lemma nth_error_cumsum_from (a : list Q) :
  forall (t : Q) (k : nat) (v : Q),
    nth_error (cumsum_from t a) k = Some v ->
    v == t + fold_right Qplus 0 (firstn (S k) a).
Proof.
  induction a as [| w a IH]; intros t k v H.
  - destruct k; discriminate H.
  - destruct k as [| k].
    + cbn in H. injection H as <-. cbn. ring.
    + cbn [cumsum_from nth_error] in H. apply IH in H. rewrite H.
      change (firstn (S (S k)) (w :: a)) with (w :: firstn (S k) a).
      cbn [fold_right]. ring.
Qed.

Lemma nth_error_cumsum_insert (x : list Q) (k : nat) (v : Q) :
  nth_error (cumsum (0 :: x)) k = Some v ->
  v == fold_right Qplus 0 (firstn k x).
Proof.
  intros H. apply nth_error_cumsum_from in H. rewrite H.
  cbn [firstn fold_right]. ring.
Qed.

Lemma sum_firstn_add (x : list Q) :
  forall i n : nat,
    fold_right Qplus 0 (firstn (i + n) x)
    == fold_right Qplus 0 (firstn i x) + window_sum x i n.
Proof.
  unfold window_sum.
  induction x as [| v x IH]; intros [| i] n; cbn [Nat.add firstn skipn fold_right].
  - rewrite firstn_nil. cbn. ring.
  - rewrite firstn_nil. cbn. ring.
  - ring.
  - rewrite IH. ring.
Qed.

(** The two slices of the cumulative sum for a window of [n] samples,
    [1 <= n <= len(x)]. *)
Lemma from_index_window (cs : list Q) (n : nat) :
  (n <= length cs)%nat -> from_index cs (Z.of_nat n) = skipn n cs.
Proof.
  intros Hn. unfold from_index, Tracker.slice, Tracker.slice_bound.
  destruct (Z.of_nat n <? 0)%Z eqn:E1; [apply Z.ltb_lt in E1; lia |].
  destruct (Z.of_nat (length cs) <? 0)%Z eqn:E2; [apply Z.ltb_lt in E2; lia |].
  rewrite !Nat2Z.id, Nat.min_id, (Nat.min_l n) by exact Hn.
  apply firstn_all2. rewrite length_skipn. lia.
Qed.

Lemma up_to_minus_window (cs : list Q) (n : nat) :
  (1 <= n)%nat -> up_to_minus cs (Z.of_nat n) = firstn (length cs - n) cs.
Proof.
  intros Hn. unfold up_to_minus, Tracker.slice, Tracker.slice_bound.
  destruct (0 <? 0)%Z eqn:E1; [discriminate E1 |].
  destruct (- Z.of_nat n <? 0)%Z eqn:E2; [| apply Z.ltb_ge in E2; lia].
  cbn [Z.to_nat Nat.min skipn]. rewrite Nat.sub_0_r.
  f_equal. lia.
Qed.

(** The part of [moving_average] after the padding, for a window that fits
    in the array. *)
Lemma running_mean (x : list Q) (n : nat) :
  (1 <= n <= length x)%nat ->
  exists r : list Q,
    bind (subtract (from_index (cumsum (0 :: x)) (Z.of_nat n))
                   (up_to_minus (cumsum (0 :: x)) (Z.of_nat n)))
         (fun d => Return (map (fun v => v / inject_Z (Z.of_nat n)) d))
    = Return r
    /\ length r = (length x - n + 1)%nat
    /\ forall (i : nat) (v : Q),
        nth_error r i = Some v ->
        v == window_sum x i n / inject_Z (Z.of_nat n).
Proof.
  intros [Hn1 Hn2].
  set (cs := cumsum (0 :: x)).
  assert (Hcs : length cs = S (length x)).
  { unfold cs, cumsum. now rewrite cumsum_from_length. }
  rewrite from_index_window by lia.
  rewrite up_to_minus_window by lia.
  unfold subtract.
  assert (Hlen : length (skipn n cs) = length (firstn (length cs - n) cs)).
  { rewrite length_skipn, length_firstn. lia. }
  rewrite Hlen, Nat.eqb_refl. cbn [bind].
  eexists. split; [reflexivity | split].
  - rewrite !length_map, length_combine, length_skipn, length_firstn. lia.
  - intros i v Hv.
    rewrite !nth_error_map in Hv.
    destruct (nth_error (combine (skipn n cs) (firstn (length cs - n) cs)) i)
      as [[hi lo] |] eqn:Ep; [| discriminate Hv].
    cbn in Hv. injection Hv as <-.
    apply nth_error_combine in Ep. destruct Ep as [Hhi Hlo].
    rewrite nth_error_skipn in Hhi.
    rewrite nth_error_firstn in Hlo.
    destruct (i <? length cs - n)%nat; [| discriminate Hlo].
    apply nth_error_cumsum_insert in Hhi, Hlo.
    rewrite Hhi, Hlo, (Nat.add_comm n i), sum_firstn_add.
    assert (Hz : ~ inject_Z (Z.of_nat n) == 0).
    { intros Hc. unfold Qeq in Hc. cbn in Hc. lia. }
    field. exact Hz.
Qed.


Lemma sum_bounds (l : list Q) (lo hi : Q) :
  (forall w : Q, In w l -> lo <= w <= hi) ->
  inject_Z (Z.of_nat (length l)) * lo <= fold_right Qplus 0 l
  /\ fold_right Qplus 0 l <= inject_Z (Z.of_nat (length l)) * hi.
Proof.
  induction l as [| v l IH]; intros H.
  - cbn [length fold_right Z.of_nat]. change (inject_Z 0) with 0. split; Lqa.lra.
  - destruct IH as [IH1 IH2]; [intros w Hw; apply H; now right |].
    destruct (H v (or_introl eq_refl)) as [Hv1 Hv2].
    cbn [length fold_right]. rewrite Nat2Z.inj_succ, <- Z.add_1_r, inject_Z_plus.
    change (inject_Z 1) with 1.
    split; Lqa.lra.
Qed.

Lemma In_firstn {A : Type} (n : nat) (l : list A) (w : A) :
  In w (firstn n l) -> In w l.
Proof.
  intros H. rewrite <- (firstn_skipn n l). apply in_or_app. now left.
Qed.

Lemma In_skipn {A : Type} (n : nat) (l : list A) (w : A) :
  In w (skipn n l) -> In w l.
Proof.
  intros H. rewrite <- (firstn_skipn n l). apply in_or_app. now right.
Qed.

(** A mean over a full window of samples between [lo] and [hi] is between
    [lo] and [hi]. *)
Lemma window_mean_bounds (x : list Q) (i n : nat) (lo hi v : Q) :
  (1 <= n)%nat -> (i + n <= length x)%nat ->
  (forall w : Q, In w x -> lo <= w <= hi) ->
  v == window_sum x i n / inject_Z (Z.of_nat n) ->
  lo <= v <= hi.
Proof.
  intros Hn Hin Hx Hv.
  assert (Hw : forall w : Q, In w (firstn n (skipn i x)) -> lo <= w <= hi).
  { intros w Hw. apply Hx. apply (In_skipn i). apply (In_firstn n). exact Hw. }
  pose proof (sum_bounds _ lo hi Hw) as [H1 H2].
  rewrite length_firstn, length_skipn, Nat.min_l in H1, H2 by lia.
  fold (window_sum x i n) in H1, H2.
  assert (Hpos : 0 < inject_Z (Z.of_nat n)).
  { unfold Qlt. cbn. lia. }
  rewrite Hv. split.
  - apply Qle_shift_div_l; [exact Hpos | Lqa.lra].
  - apply Qle_shift_div_r; [exact Hpos | Lqa.lra].
Qed.



(** The degenerate windows.  A window of 0 samples on a non-empty array is
    refused with [ValueError] (the two slices of the cumulative sum have
    different lengths); a window longer than the array gives the empty
    array, not an error. *)
Theorem moving_average_degenerate_windows (x : list Q) (n : nat) :
  (x <> [] ->
   exists msg : string, moving_average x 0 None = ([], Raise (ValueError msg)))
  /\ ((length x < n)%nat -> moving_average x (Z.of_nat n) None = ([], Return [])).
Proof.
  split.
  - intros Hx. unfold moving_average. cbn [bind].
    destruct x as [| v x]; [congruence |].
    set (cs := cumsum (0 :: v :: x)).
    assert (H1 : from_index cs 0 = cs).
    { exact (from_index_window cs 0 (Nat.le_0_l _)). }
    assert (H2 : up_to_minus cs 0 = []).
    { unfold up_to_minus, Tracker.slice, Tracker.slice_bound. cbn. reflexivity. }
    rewrite H1, H2. unfold cs, cumsum. cbn [cumsum_from].
    unfold subtract. cbn [length Nat.eqb bind]. eauto.
  - intros Hn. unfold moving_average. cbn [bind].
    set (cs := cumsum (0 :: x)).
    assert (Hcs : length cs = S (length x)).
    { unfold cs, cumsum. now rewrite cumsum_from_length. }
    assert (H1 : from_index cs (Z.of_nat n) = []).
    { unfold from_index, Tracker.slice, Tracker.slice_bound.
      destruct (Z.of_nat n <? 0)%Z eqn:E1; [apply Z.ltb_lt in E1; lia |].
      destruct (Z.of_nat (length cs) <? 0)%Z eqn:E2; [apply Z.ltb_lt in E2; lia |].
      rewrite !Nat2Z.id, Nat.min_id, (Nat.min_r n) by lia.
      now rewrite Nat.sub_diag. }
    assert (H2 : up_to_minus cs (Z.of_nat n) = []).
    { unfold up_to_minus, Tracker.slice, Tracker.slice_bound.
      destruct (0 <? 0)%Z eqn:E1; [discriminate E1 |].
      destruct (- Z.of_nat n <? 0)%Z eqn:E2; [| apply Z.ltb_ge in E2; lia].
      replace (Z.to_nat (Z.max 0 (- Z.of_nat n + Z.of_nat (length cs)))) with 0%nat by lia.
      reflexivity. }
    rewrite H1, H2. reflexivity.
Qed.

Lemma moving_average_degenerate_windows_witness :
  (exists msg : string, moving_average [1; 2] 0 None = ([], Raise (ValueError msg)))
  /\ moving_average [1; 2] (Z.of_nat 5) None = ([], Return []).
Proof.
  destruct (moving_average_degenerate_windows [1; 2] 5) as [H1 H2].
  split; [apply H1; discriminate | apply H2; cbn; lia].
Defined.




End SignalProcessingFacts.


(* ================================================================== *)
(** * Properties of the (I,Q) conversions and of the modulator *)

Module IQFacts.
Import Py IQ.
Local Open Scope R_scope.

Lemma absolute_polar (a phi : R) : np_absolute (polar_to_cartesian a phi) = Rabs a.
Proof.
  unfold np_absolute, polar_to_cartesian. cbn [fst snd].
  replace ((a * cos phi) ^ 2 + (a * sin phi) ^ 2)
    with (Rsqr a * (Rsqr (sin phi) + Rsqr (cos phi))) by (unfold Rsqr; ring).
  rewrite sin2_cos2, Rmult_1_r. apply sqrt_Rsqr_abs.
Qed.

Lemma tan_scaled (a phi : R) :
  a <> 0 -> cos phi <> 0 -> a * sin phi / (a * cos phi) = tan phi.
Proof. intros Ha Hc. unfold tan. field. split; assumption. Qed.

(** The angle of a point at a positive distance [a] in the direction
    [phi], for [phi] in [(-pi, pi]]. *)
Lemma angle_polar (a phi : R) :
  0 < a -> - PI < phi <= PI -> np_angle (polar_to_cartesian a phi) = phi.
Proof.
  intros Ha [Hlo Hhi]. pose proof PI_RGT_0 as Hpi.
  unfold np_angle, np_arctan2, polar_to_cartesian. cbn [fst snd].
  destruct (Rlt_dec phi (- (PI / 2))) as [H1 | H1].
  - (* third quadrant *)
    assert (Hc : cos phi < 0).
    { rewrite <- cos_neg. apply cos_lt_0; lra. }
    assert (Hs : sin phi < 0) by (apply sin_lt_0_var; lra).
    destruct (Rlt_dec 0 (a * cos phi)) as [H | _]; [nra |].
    destruct (Rlt_dec (a * cos phi) 0) as [_ | H]; [| nra].
    destruct (Rle_dec 0 (a * sin phi)) as [H | _]; [nra |].
    rewrite tan_scaled by lra.
    rewrite <- (Rtrigo_facts.tan_pi_plus phi) by lra.
    rewrite atan_tan by lra. ring.
  - destruct (Req_dec phi (- (PI / 2))) as [H2 | H2].
    + (* straight down *)
      subst phi. rewrite cos_neg, sin_neg, cos_PI2, sin_PI2.
      replace (a * 0) with 0 by ring.
      destruct (Rlt_dec 0 0) as [H | _]; [lra |].
      destruct (Rlt_dec 0 (a * - (1))) as [H | _]; [lra |].
      destruct (Rlt_dec (a * - (1)) 0) as [_ | H]; [reflexivity | lra].
    + destruct (Rlt_dec phi (PI / 2)) as [H3 | H3].
      * (* right half plane *)
        assert (Hc : 0 < cos phi) by (apply cos_gt_0; lra).
        destruct (Rlt_dec 0 (a * cos phi)) as [_ | H]; [| nra].
        rewrite tan_scaled by lra.
        apply atan_tan. lra.
      * destruct (Req_dec phi (PI / 2)) as [H4 | H4].
        -- (* straight up *)
           subst phi. rewrite cos_PI2, sin_PI2.
           replace (a * 0) with 0 by ring.
           destruct (Rlt_dec 0 0) as [H | _]; [lra |].
           destruct (Rlt_dec 0 (a * 1)) as [_ | H]; [reflexivity | lra].
        -- (* second quadrant *)
           assert (Hc : cos phi < 0) by (apply cos_lt_0; lra).
           assert (Hs : 0 <= sin phi).
           { destruct (Req_dec phi PI) as [-> | H5]; [rewrite sin_PI; lra |].
             left. apply sin_gt_0; lra. }
           destruct (Rlt_dec 0 (a * cos phi)) as [H | _]; [nra |].
           destruct (Rlt_dec (a * cos phi) 0) as [_ | H]; [| nra].
           destruct (Rle_dec 0 (a * sin phi)) as [_ | H]; [| nra].
           rewrite tan_scaled by lra.
           replace (tan phi) with (tan (phi - PI)).
           ++ rewrite atan_tan by lra. ring.
           ++ rewrite <- (Rtrigo_facts.tan_pi_plus (phi - PI)).
              ** f_equal. ring.
              ** replace (phi - PI) with (- (PI - phi)) by ring.
                 rewrite cos_neg, Rtrigo_facts.cos_pi_minus. lra.
Qed.




(** The samples of a modulated array, from index [s] on. *)
Lemma modulated_samples (delta : R) (signal : list complex) :
  forall s : nat,
    map (fun p : nat * complex =>
           let '(k, z) := p in
           (cos (delta * INR k) * fst z - sin (delta * INR k) * snd z,
            sin (delta * INR k) * fst z + cos (delta * INR k) * snd z))
        (combine (seq s (length signal)) signal)
    = map (fun p : nat * complex => turned (delta * INR (fst p)) (snd p))
          (combine (seq s (length signal)) signal).
Proof.
  intros s. apply map_ext. intros [k z]. reflexivity.
Qed.

Lemma turned_samples_length (delta : R) (signal : list complex) (s : nat) :
  length (map (fun p : nat * complex => turned (delta * INR (fst p)) (snd p))
              (combine (seq s (length signal)) signal))
  = length signal.
Proof. rewrite length_map, length_combine, length_seq. apply Nat.min_id. Qed.

Lemma turned_samples_nth (delta : R) (signal : list complex) :
  forall (s k : nat) (w : complex),
    nth_error (map (fun p : nat * complex => turned (delta * INR (fst p)) (snd p))
                   (combine (seq s (length signal)) signal)) k = Some w ->
    exists z : complex,
      nth_error signal k = Some z /\ w = turned (delta * INR (s + k)) z.
Proof.
  induction signal as [| z0 signal IH]; intros s k w H.
  - destruct k; discriminate H.
  - cbn [length seq combine map] in H. destruct k as [| k].
    + cbn in H. injection H as <-. exists z0. rewrite Nat.add_0_r. auto.
    + cbn [nth_error] in H. apply IH in H. destruct H as (z & Hz & ->).
      exists z. split; [exact Hz |]. f_equal. f_equal. f_equal. lia.
Qed.

Lemma absolute_turned (alpha : R) (z : complex) :
  np_absolute (turned alpha z) = np_absolute z.
Proof.
  unfold np_absolute, turned. cbn [fst snd]. f_equal.
  replace ((cos alpha * fst z - sin alpha * snd z) ^ 2
           + (sin alpha * fst z + cos alpha * snd z) ^ 2)
    with ((Rsqr (sin alpha) + Rsqr (cos alpha)) * (fst z ^ 2 + snd z ^ 2))
    by (unfold Rsqr; ring).
  rewrite sin2_cos2. ring.
Qed.

Lemma turned_turned (alpha beta : R) (z : complex) :
  turned beta (turned alpha z) = turned (alpha + beta) z.
Proof.
  unfold turned. cbn [fst snd]. rewrite cos_plus, sin_plus. f_equal; ring.
Qed.

Lemma turned_0 (z : complex) : turned 0 z = z.
Proof.
  unfold turned. rewrite cos_0, sin_0. destruct z as [x y]. cbn [fst snd].
  f_equal; ring.
Qed.

Lemma modulator_Return (signal : list complex) (omega_i omega_f T_sampling : R) :
  (2 <= length signal)%nat ->
  modulator signal omega_i omega_f T_sampling
  = Return (map (fun p : nat * complex =>
                   turned (2 * PI * (omega_i - omega_f) * T_sampling * INR (fst p)) (snd p))
                (combine (seq 0 (length signal)) signal)).
Proof.
  intros Hlen. unfold modulator.
  destruct (length signal <? 2)%nat eqn:E; [apply Nat.ltb_lt in E; lia |].
  cbv zeta. now rewrite modulated_samples.
Qed.






Lemma fold_left_Rmax_ge (l : list R) :
  forall init : R,
    init <= fold_left Rmax l init
    /\ forall v : R, In v l -> v <= fold_left Rmax l init.
Proof.
  induction l as [| w l IH]; intros init; cbn [fold_left].
  - split; [lra | intros v []].
  - destruct (IH (Rmax init w)) as [H1 H2].
    pose proof (Rmax_l init w). pose proof (Rmax_r init w).
    split; [lra |].
    intros v [<- | Hv]; [lra | auto].
Qed.

Lemma amax_upper (a : list R) (m v : R) : amax a = Return m -> In v a -> v <= m.
Proof.
  destruct a as [| w a]; [discriminate |]. cbn [amax]. intros [= <-].
  destruct (fold_left_Rmax_ge a w) as [H1 H2].
  intros [<- | Hv]; auto.
Qed.



End IQFacts.
(* ================================================================== *)
(** * Properties of the frequency offsets *)

Module OffsetFrequencyFacts.
Import Py Np OffsetFrequency SignalProcessing.
Import PotentialWellFacts ExtremaFacts SignalProcessingFacts.
Local Open Scope Q_scope.

Lemma broadcast_same {A B : Type} (a : list A) (b : list B) :
  length a = length b -> broadcast a b = Return (combine a b).
Proof. intros H. unfold broadcast. now rewrite H, Nat.eqb_refl. Qed.

Lemma broadcast_one_l {A B : Type} (v : A) (b : list B) :
  broadcast [v] b = Return (map (fun w => (v, w)) b).
Proof.
  unfold broadcast. destruct (Nat.eqb _ _) eqn:E; [| reflexivity].
  apply Nat.eqb_eq in E. destruct b as [| w [| w' b]]; try discriminate E.
  reflexivity.
Qed.

Lemma broadcast_one_r {A B : Type} (a : list A) (w : B) :
  broadcast a [w] = Return (map (fun v => (v, w)) a).
Proof.
  unfold broadcast. destruct (Nat.eqb _ _) eqn:E.
  - apply Nat.eqb_eq in E. destruct a as [| v [| v' a]]; try discriminate E.
    reflexivity.
  - destruct a as [| v [| v' a]]; reflexivity.
Qed.

Lemma for_each_Return {A B : Type} (f : A -> outcome B) (g : A -> B) (l : list A) :
  (forall a : A, In a l -> f a = Return (g a)) ->
  Tracker.for_each f l = Return (map g l).
Proof.
  induction l as [| a l IH]; intros H; [reflexivity |].
  cbn [Tracker.for_each map]. rewrite (H a (or_introl eq_refl)). cbn [bind].
  rewrite IH by (intros; apply H; now right). reflexivity.
Qed.


Lemma elementwise_scalar (op : Q -> Q -> Q) (v : Q) (b : list (list Q)) :
  elementwise op [[v]] b = Return (map (map (op v)) b).
Proof.
  unfold elementwise. rewrite broadcast_one_l. cbn [bind].
  rewrite (for_each_Return _ (fun rr => map (fun e => op (fst e) (snd e))
                                          (map (fun w => (v, w)) (snd rr)))).
  - rewrite map_map. f_equal. apply map_ext. intros r. cbn [snd].
    rewrite map_map. reflexivity.
  - intros [r s] Hin. apply in_map_iff in Hin. destruct Hin as (s' & [= <- <-] & _).
    cbn [fst snd]. rewrite broadcast_one_l. reflexivity.
Qed.

Lemma elementwise_row (op : Q -> Q -> Q) (a : list (list Q)) (f : list Q) :
  Forall (fun r => length r = length f) a ->
  elementwise op a [f]
  = Return (map (fun r => map (fun e => op (fst e) (snd e)) (combine r f)) a).
Proof.
  intros Ha. unfold elementwise. rewrite broadcast_one_r. cbn [bind].
  rewrite (for_each_Return _ (fun rr => map (fun e => op (fst e) (snd e))
                                          (combine (fst rr) (snd rr)))).
  - rewrite map_map. reflexivity.
  - intros [r s] Hin. apply in_map_iff in Hin. destruct Hin as (r' & [= <- <-] & Hr).
    cbn [fst snd]. rewrite Forall_forall in Ha.
    rewrite broadcast_same by now apply Ha. reflexivity.
Qed.

Lemma elementwise_same (op : Q -> Q -> Q) (a b : list (list Q)) (rows cols : nat) :
  table rows cols a -> table rows cols b ->
  elementwise op a b
  = Return (map (fun rr => map (fun e => op (fst e) (snd e))
                             (combine (fst rr) (snd rr)))
                (combine a b)).
Proof.
  intros [Ha1 Ha2] [Hb1 Hb2]. unfold elementwise.
  rewrite broadcast_same by congruence. cbn [bind].
  apply for_each_Return. intros [r s] Hin.
  rewrite Forall_forall in Ha2, Hb2.
  pose proof (in_combine_l _ _ _ _ Hin) as Hr.
  pose proof (in_combine_r _ _ _ _ Hin) as Hs.
  cbn [fst snd]. rewrite broadcast_same; [reflexivity |].
  rewrite (Ha2 _ Hr), (Hb2 _ Hs). reflexivity.
Qed.

(** Entries of arrays combined entry by entry. *)
Lemma nth_map_combine {A B C : Type} (F : A * B -> C) (da : A) (db : B) (dc : C) :
  forall (a : list A) (b : list B) (n : nat),
    (n < length a)%nat -> (n < length b)%nat ->
    nth n (map F (combine a b)) dc = F (nth n a da, nth n b db).
Proof.
  induction a as [| x a IH]; intros [| y b] n Ha Hb; cbn in Ha, Hb; try lia.
  destruct n as [| n]; [reflexivity |].
  cbn [combine map nth]. apply IH; lia.
Qed.

Lemma table_map_combine (F : list Q * list Q -> list Q) (a b : list (list Q))
    (rows cols cols' : nat) :
  table rows cols a -> table rows cols b ->
  (forall r s : list Q, length r = cols -> length s = cols -> length (F (r, s)) = cols') ->
  table rows cols' (map F (combine a b)).
Proof.
  intros [Ha1 Ha2] [Hb1 Hb2] HF. split.
  - rewrite length_map, length_combine. lia.
  - apply Forall_forall. intros r Hr. apply in_map_iff in Hr.
    destruct Hr as ([x y] & <- & Hin).
    rewrite Forall_forall in Ha2, Hb2.
    apply HF; [apply Ha2 | apply Hb2].
    + exact (in_combine_l _ _ _ _ Hin).
    + exact (in_combine_r _ _ _ _ Hin).
Qed.

Lemma table_columns_before (a : list (list Q)) (rows cols k : nat) :
  table rows cols a -> (k <= cols)%nat -> table rows k (columns_before a k).
Proof.
  intros [H1 H2] Hk. split.
  - unfold columns_before. now rewrite length_map.
  - unfold columns_before. apply Forall_forall. intros r Hr.
    apply in_map_iff in Hr. destruct Hr as (r' & <- & Hin).
    rewrite Forall_forall in H2. rewrite length_firstn, (H2 _ Hin). lia.
Qed.

Lemma table_row (a : list (list Q)) (rows cols n : nat) :
  table rows cols a -> (n < rows)%nat -> length (nth n a []) = cols.
Proof.
  intros [H1 H2] Hn. rewrite Forall_forall in H2. apply H2.
  apply nth_In. lia.
Qed.


Lemma nth_map_lt {A B : Type} (g : A -> B) (da : A) (db : B) :
  forall (l : list A) (n : nat),
    (n < length l)%nat -> nth n (map g l) db = g (nth n l da).
Proof.
  induction l as [| x l IH]; intros n Hn; cbn in Hn; [lia |].
  destruct n as [| n]; [reflexivity |]. cbn [map nth]. apply IH. lia.
Qed.

Lemma table_map_rows (g : list Q -> list Q) (a : list (list Q)) (rows cols cols' : nat) :
  table rows cols a ->
  (forall r : list Q, length r = cols -> length (g r) = cols') ->
  table rows cols' (map g a).
Proof.
  intros [H1 H2] Hg. split; [now rewrite length_map |].
  apply Forall_forall. intros r Hr. apply in_map_iff in Hr.
  destruct Hr as (r' & <- & Hin). rewrite Forall_forall in H2. auto.
Qed.

Lemma length_zip (op : Q -> Q -> Q) (r s : list Q) (cols : nat) :
  length r = cols -> length s = cols ->
  length (map (fun e => op (fst e) (snd e)) (combine r s)) = cols.
Proof. intros Hr Hs. rewrite length_map, length_combine. lia. Qed.

(** The slippage of the turns of one RF system, before the cumulative
    sum. *)
Lemma slip_row (np_pi : Q) (hr dr f : list Q) :
  length hr = length f -> length dr = length f ->
  map (fun e => fst e / snd e)
    (combine
       (map (fun e => fst e * snd e)
          (combine (map (Qmult (2 * np_pi)) hr)
             (map (fun e => fst e - snd e)
                (combine (map (fun e => fst e * snd e) (combine hr f)) dr))))
       dr)
  = map (turn_slip np_pi hr dr f) (seq 0 (length f)).
Proof.
  intros Hh Hd.
  apply (nth_ext _ _ 0 0).
  - repeat (rewrite length_map || rewrite length_combine).
    rewrite length_seq. lia.
  - intros j Hj.
    assert (Hjf : (j < length f)%nat).
    { rewrite length_map, length_combine in Hj. lia. }
    rewrite (nth_map_combine _ 0 0) by
      (repeat (rewrite length_map || rewrite length_combine); lia).
    rewrite (nth_map_combine _ 0 0) by
      (repeat (rewrite length_map || rewrite length_combine); lia).
    rewrite (nth_map_lt _ 0) by lia.
    rewrite (nth_map_combine _ 0 0) by
      (repeat (rewrite length_map || rewrite length_combine); lia).
    rewrite (nth_map_combine _ 0 0) by lia.
    rewrite (nth_map_lt _ 0%nat) by (rewrite length_seq; lia).
    rewrite seq_nth by lia. cbn [fst snd Nat.add]. reflexivity.
Qed.

Lemma sum_zero (l : list Q) :
  (forall v : Q, In v l -> v == 0) -> fold_right Qplus 0 l == 0.
Proof.
  induction l as [| v l IH]; intros H; cbn [fold_right]; [reflexivity |].
  rewrite (H v (or_introl eq_refl)), IH by (intros; apply H; now right).
  reflexivity.
Qed.

Lemma nth_cumsum (l : list Q) (k : nat) :
  (k < length l)%nat ->
  nth k (cumsum l) 0 == fold_right Qplus 0 (firstn (S k) l).
Proof.
  intros Hk.
  assert (H : nth_error (cumsum l) k = Some (nth k (cumsum l) 0)).
  { apply nth_error_nth'. unfold cumsum. now rewrite cumsum_from_length. }
  apply nth_error_cumsum_from in H. rewrite H. ring.
Qed.

(** What [calculate_phase_slip] computes on a station of tables. *)
Lemma calculate_phase_slip_rows (np_pi : Q) (station : rf_station) (f : list Q) (cols : nat) :
  well_shaped station cols -> (length f <= cols)%nat ->
  calculate_phase_slip np_pi station f (length f)
    (columns_before (omega_rf_d station) (length f))
  = Return (map (fun hd : list Q * list Q =>
                   cumsum (map (turn_slip np_pi (firstn (length f) (fst hd))
                                  (firstn (length f) (snd hd)) f)
                             (seq 0 (length f))))
              (combine (harmonic station) (omega_rf_d station))).
Proof.
  intros (Hh & Hd & _ & _) Hf.
  unfold calculate_phase_slip.
  set (e := length f).
  pose proof (table_columns_before _ _ _ e Hh Hf) as Hh'.
  pose proof (table_columns_before _ _ _ e Hd Hf) as Hd'.
  set (h := columns_before (harmonic station) e) in *.
  set (d := columns_before (omega_rf_d station) e) in *.
  rewrite elementwise_scalar. cbn [bind].
  rewrite elementwise_row by (destruct Hh' as [_ Hh']; exact Hh'). cbn [bind].
  set (left := map (map (Qmult (2 * np_pi))) h).
  set (scaled := map _ h).
  assert (Hleft : table (n_rf station) e left).
  { apply (table_map_rows _ _ _ e e Hh'). intros r Hr. now rewrite length_map. }
  assert (Hscaled : table (n_rf station) e scaled).
  { apply (table_map_rows _ _ _ e e Hh'). intros r Hr. now apply length_zip. }
  rewrite (elementwise_same _ scaled d _ _ Hscaled Hd'). cbn [bind].
  set (offset := map _ (combine scaled d)).
  assert (Hoffset : table (n_rf station) e offset).
  { apply (table_map_combine _ _ _ _ e e Hscaled Hd').
    intros r s' Hr Hs'. cbn [fst snd]. now apply length_zip. }
  rewrite (elementwise_same _ left offset _ _ Hleft Hoffset). cbn [bind].
  set (product := map _ (combine left offset)).
  assert (Hproduct : table (n_rf station) e product).
  { apply (table_map_combine _ _ _ _ e e Hleft Hoffset).
    intros r s' Hr Hs'. cbn [fst snd]. now apply length_zip. }
  rewrite (elementwise_same _ product d _ _ Hproduct Hd'). cbn [bind].
  f_equal. unfold cumsum_rows.
  apply (nth_ext _ _ [] []).
  - rewrite !length_map, !length_combine.
    destruct Hproduct as [-> _]. destruct Hd' as [-> _].
    destruct Hh as [-> _]. destruct Hd as [-> _]. reflexivity.
  - intros n Hn.
    assert (Hn' : (n < n_rf station)%nat).
    { rewrite !length_map, length_combine in Hn.
      destruct Hproduct as [Hp _]. lia. }
    pose proof Hh as [Hh1 _]. pose proof Hd as [Hd1 _].
    pose proof Hh' as [Hh1' _]. pose proof Hd' as [Hd1' _].
    pose proof Hleft as [Hl1 _]. pose proof Hscaled as [Hs1 _].
    pose proof Hoffset as [Ho1 _]. pose proof Hproduct as [Hp1 _].
    rewrite (nth_map_lt _ []) by (rewrite length_map, length_combine; lia).
    rewrite (nth_map_lt _ ([], [])) by (rewrite length_combine; lia).
    rewrite (nth_map_combine _ [] []) by lia.
    rewrite combine_nth by lia. cbn [fst snd].
    f_equal.
    unfold product. rewrite (nth_map_combine _ [] []) by lia. cbn [fst snd].
    unfold offset. rewrite (nth_map_combine _ [] []) by lia. cbn [fst snd].
    unfold left, scaled. rewrite !(nth_map_lt _ []) by lia.
    unfold h, d, columns_before. rewrite !(nth_map_lt _ []) by lia.
    apply slip_row.
    + rewrite length_firstn, (table_row _ _ _ n Hh Hn'). fold e. lia.
    + rewrite length_firstn, (table_row _ _ _ n Hd Hn'). fold e. lia.
Qed.


Lemma firstn_seq_prefix (k : nat) :
  forall start n : nat, (k <= n)%nat -> firstn k (seq start n) = seq start k.
Proof.
  induction k as [| k IH]; intros start [| n] H; try reflexivity; [lia |].
  cbn [seq firstn]. f_equal. apply IH. lia.
Qed.

(** The entries of the phase slippage. *)
Lemma phase_slip_entries
    (np_pi : Q) (station : rf_station) (f : list Q) (cols : nat) :
  well_shaped station cols -> (length f <= cols)%nat ->
  exists slip : list (list Q),
    calculate_phase_slip np_pi station f (length f)
      (columns_before (omega_rf_d station) (length f)) = Return slip
    /\ table (n_rf station) (length f) slip
    /\ (forall n k : nat, (n < n_rf station)%nat -> (k < length f)%nat ->
          nth k (nth n slip []) 0
          == fold_right Qplus 0
               (map (turn_slip np_pi (nth n (harmonic station) [])
                       (nth n (omega_rf_d station) []) f)
                  (seq 0 (S k))))
    /\ ((forall n j : nat, (n < n_rf station)%nat -> (j < length f)%nat ->
           nth j (nth n (harmonic station) []) 0 * nth j f 0
           == nth j (nth n (omega_rf_d station) []) 0) ->
        forall n k : nat, (n < n_rf station)%nat -> (k < length f)%nat ->
          nth k (nth n slip []) 0 == 0).
Proof.
  intros Hws Hf.
  rewrite (calculate_phase_slip_rows np_pi station f cols Hws Hf).
  destruct Hws as (Hh & Hd & _ & _).
  pose proof Hh as [Hh1 _]. pose proof Hd as [Hd1 _].
  eexists. split; [reflexivity |].
  assert (Hentry : forall n k : nat, (n < n_rf station)%nat -> (k < length f)%nat ->
            nth k (nth n (map (fun hd : list Q * list Q =>
                   cumsum (map (turn_slip np_pi (firstn (length f) (fst hd))
                                  (firstn (length f) (snd hd)) f)
                             (seq 0 (length f))))
              (combine (harmonic station) (omega_rf_d station))) []) 0
            == fold_right Qplus 0
                 (map (turn_slip np_pi (nth n (harmonic station) [])
                         (nth n (omega_rf_d station) []) f)
                    (seq 0 (S k)))).
  { intros n k Hn Hk.
    rewrite (nth_map_lt _ ([], [])) by (rewrite length_combine; lia).
    rewrite combine_nth by lia. cbn [fst snd].
    rewrite nth_cumsum by (rewrite length_map, length_seq; lia).
    rewrite firstn_map, firstn_seq_prefix by lia.
    rewrite (map_ext_in _ (turn_slip np_pi (nth n (harmonic station) [])
                             (nth n (omega_rf_d station) []) f)).
    - reflexivity.
    - intros j Hj. apply in_seq in Hj. unfold turn_slip.
      rewrite !nth_firstn.
      destruct (Nat.ltb_spec j (length f)) as [_ | Hge]; [reflexivity | lia]. }
  split; [| split].
  - split.
    + rewrite length_map, length_combine. lia.
    + apply Forall_forall. intros r Hr. apply in_map_iff in Hr.
      destruct Hr as (hd & <- & _). unfold cumsum.
      now rewrite cumsum_from_length, length_map, length_seq.
  - exact Hentry.
  - intros Hzero n k Hn Hk. rewrite (Hentry n k Hn Hk).
    apply sum_zero. intros v Hv. apply in_map_iff in Hv.
    destruct Hv as (j & <- & Hj). apply in_seq in Hj.
    unfold turn_slip. rewrite (Hzero n j Hn) by lia.
    unfold Qdiv. ring.
Qed.

(** The phase slippage is the running sum, turn by turn, of the slippage
    of each turn.  On a station whose arrays are tables of [n_rf] rows and
    [cols] columns, for a program of at most [cols] turns and design
    frequencies that are not zero, [calculate_phase_slip] returns one row
    per RF system and one column per turn of the program; the entry of
    system [n] at turn [k] is the sum over the turns [j <= k] of
    [2*pi*h*(h*f - omega_d)/omega_d]; and where [h*f] equals the design
    frequency at every turn, the slippage is zero throughout. *)
Theorem calculate_phase_slip_running_sum
    (np_pi : Q) (station : rf_station) (f : list Q) (cols : nat) :
  well_shaped station cols -> (length f <= cols)%nat ->
  (forall n j : nat, (n < n_rf station)%nat -> (j < length f)%nat ->
     ~ nth j (nth n (omega_rf_d station) []) 0 == 0) ->
  exists slip : list (list Q),
    calculate_phase_slip np_pi station f (length f)
      (columns_before (omega_rf_d station) (length f)) = Return slip
    /\ table (n_rf station) (length f) slip
    /\ (forall n k : nat, (n < n_rf station)%nat -> (k < length f)%nat ->
          nth k (nth n slip []) 0
          == fold_right Qplus 0
               (map (turn_slip np_pi (nth n (harmonic station) [])
                       (nth n (omega_rf_d station) []) f)
                  (seq 0 (S k))))
    /\ ((forall n j : nat, (n < n_rf station)%nat -> (j < length f)%nat ->
           nth j (nth n (harmonic station) []) 0 * nth j f 0
           == nth j (nth n (omega_rf_d station) []) 0) ->
        forall n k : nat, (n < n_rf station)%nat -> (k < length f)%nat ->
          nth k (nth n slip []) 0 == 0).
Proof.
  intros Hws Hf _. exact (phase_slip_entries np_pi station f cols Hws Hf).
Qed.

Lemma calculate_phase_slip_running_sum_witness :
  exists slip : list (list Q),
    calculate_phase_slip (22 # 7) one_system [4; 4; 11; 18] 4
      (columns_before (omega_rf_d one_system) 4) = Return slip
    /\ table 1 4 slip.
Proof.
  destruct (calculate_phase_slip_running_sum (22 # 7) one_system [4; 4; 11; 18] 6)
    as (slip & H1 & H2 & _).
  - cbn. repeat split; repeat constructor.
  - cbn. lia.
  - intros n j Hn Hj. cbn in Hn, Hj.
    assert (n = 0%nat) as -> by lia.
    destruct j as [| [| [| [| j]]]]; cbn; try discriminate; lia.
  - exists slip. split; assumption.
Defined.


Lemma map_snd_combine {A B : Type} (a : list A) :
  forall b : list B, length a = length b -> map snd (combine a b) = b.
Proof.
  induction a as [| x a IH]; intros [| y b] H; try discriminate H; [reflexivity |].
  cbn [combine map snd]. f_equal. apply IH. now injection H.
Qed.

(** [a[:, :k] = b] for a [b] of the shape of the part replaced. *)
Lemma set_columns_before_same (a b : list (list Q)) (rows cols k : nat) :
  table rows cols a -> table rows (Nat.min k cols) b ->
  set_columns_before a k b
  = Return (map (fun rr => snd rr ++ skipn k (fst rr)) (combine a b)).
Proof.
  intros [Ha1 Ha2] [Hb1 Hb2]. unfold set_columns_before.
  rewrite broadcast_same by congruence. cbn [bind].
  rewrite length_combine, Ha1, Hb1, Nat.min_id, Nat.eqb_refl.
  apply for_each_Return. intros [r s'] Hin.
  rewrite Forall_forall in Ha2, Hb2.
  pose proof (Ha2 _ (in_combine_l _ _ _ _ Hin)) as Hr.
  pose proof (Hb2 _ (in_combine_r _ _ _ _ Hin)) as Hs.
  cbn [fst snd].
  assert (Hlen : length (firstn k r) = length s').
  { rewrite length_firstn. lia. }
  rewrite broadcast_same by exact Hlen. cbn [bind].
  rewrite length_combine, <- Hlen, Nat.min_id, Nat.eqb_refl.
  now rewrite map_snd_combine.
Qed.

Lemma combine_append {A B : Type} (a a' : list A) :
  forall b b' : list B,
    length a = length b -> combine (a ++ a') (b ++ b') = combine a b ++ combine a' b'.
Proof.
  induction a as [| x a IH]; intros [| y b] b' H; try discriminate H; [reflexivity |].
  cbn [app combine]. f_equal. apply IH. now injection H.
Qed.

(** The row that one pass of the loop leaves. *)
Lemma hold_last_slip_row (e : nat) (slip phi : list (list Q)) (n : nat) :
  (n < length phi)%nat -> (n < length slip)%nat -> nth n slip [] <> [] ->
  hold_last_slip e slip phi n
  = Return (firstn n phi
            ++ [firstn e (nth n phi [])
                ++ map (fun v => v + last (nth n slip []) 0) (skipn e (nth n phi []))]
            ++ skipn (S n) phi).
Proof.
  intros Hphi Hslip Hrow. unfold hold_last_slip, item.
  rewrite (nth_error_nth' phi [] Hphi), (nth_error_nth' slip [] Hslip). cbn [bind].
  rewrite (last_item_last _ 0) by exact Hrow. reflexivity.
Qed.

(** The loop of [apply_new_frequency] over the first [m] RF systems. *)
Lemma hold_last_slip_loop (e : nat) (slip phi : list (list Q)) :
  length slip = length phi -> Forall (fun r => r <> []) slip ->
  forall m : nat, (m <= length phi)%nat ->
    fold_left
      (fun (acc : outcome (list (list Q))) (n : nat) =>
         bind acc (fun p => hold_last_slip e slip p n))
      (seq 0 m) (Return phi)
    = Return (map (fun rs : list Q * list Q =>
                     firstn e (fst rs)
                     ++ map (fun v => v + last (snd rs) 0) (skipn e (fst rs)))
                (combine (firstn m phi) (firstn m slip))
              ++ skipn m phi).
Proof.
  intros Hlen Hne. induction m as [| m IH]; intros Hm.
  - reflexivity.
  - rewrite seq_S, fold_left_app, IH by lia. cbn [Nat.add fold_left bind].
    set (done := map _ (combine (firstn m phi) (firstn m slip))).
    assert (Hdone : length done = m).
    { unfold done. rewrite length_map, length_combine, !length_firstn. lia. }
    rewrite hold_last_slip_row.
    + rewrite firstn_app, Hdone, Nat.sub_diag, firstn_O, app_nil_r.
      rewrite firstn_all2 by lia.
      rewrite app_nth2 by lia. rewrite Hdone, Nat.sub_diag.
      assert (Hskip : skipn (S m) (done ++ skipn m phi) = skipn (S m) phi).
      { rewrite skipn_app, Hdone. rewrite (skipn_all2 done) by lia.
        replace (S m - m)%nat with 1%nat by lia.
        rewrite skipn_skipn. reflexivity. }
      rewrite Hskip.
      assert (Hphi : firstn (S m) phi = firstn m phi ++ [nth m phi []]).
      { clear - Hm. revert m Hm. induction phi as [| r phi IHp]; intros m Hm.
        - cbn in Hm. lia.
        - destruct m as [| m]; [reflexivity |].
          cbn [firstn app nth]. f_equal. apply IHp. cbn in Hm. lia. }
      assert (Hslip : firstn (S m) slip = firstn m slip ++ [nth m slip []]).
      { assert (Hm' : (S m <= length slip)%nat) by lia.
        clear - Hm'. revert m Hm'. induction slip as [| r slip IHp]; intros m Hm.
        - cbn in Hm. lia.
        - destruct m as [| m]; [reflexivity |].
          cbn [firstn app nth]. f_equal. apply IHp. cbn in Hm. lia. }
      rewrite Hphi, Hslip.
      rewrite combine_append by (rewrite !length_firstn; lia).
      rewrite map_app. cbn [combine map fst snd].
      assert (Hhead : nth 0 (skipn m phi) [] = nth m phi []).
      { rewrite nth_skipn. f_equal. lia. }
      rewrite Hhead. rewrite <- app_assoc. reflexivity.
    + rewrite length_app, Hdone, length_skipn. lia.
    + lia.
    + rewrite Forall_forall in Hne. apply Hne. apply nth_In. lia.
Qed.


Lemma nth_last (l : list Q) : nth (length l - 1) l 0 = last l 0.
Proof.
  induction l as [| v l IH]; [reflexivity |].
  destruct l as [| w l]; [reflexivity |].
  cbn [length Nat.sub] in *. rewrite Nat.sub_0_r in IH.
  cbn [nth]. exact IH.
Qed.

(** What [apply_new_frequency] leaves on a station of tables, row by
    row. *)
Lemma apply_new_frequency_rows (station : rf_station) (f : list Q)
    (slip : list (list Q)) (cols : nat) :
  well_shaped station cols -> (1 <= length f <= cols)%nat ->
  table (n_rf station) (length f) slip ->
  apply_new_frequency station f (length f) slip
  = Return
      {| n_rf := n_rf station;
         harmonic := harmonic station;
         omega_rf_d := omega_rf_d station;
         omega_rf :=
           map (fun oh : list Q * list Q =>
                  map (fun e => fst e * snd e) (combine (firstn (length f) (snd oh)) f)
                  ++ skipn (length f) (fst oh))
             (combine (omega_rf station) (harmonic station));
         phi_rf :=
           map (fun ps : list Q * list Q =>
                  map (fun e => fst e + snd e)
                    (combine (firstn (length f) (fst ps)) (snd ps))
                  ++ map (fun v => v + last (snd ps) 0) (skipn (length f) (fst ps)))
             (combine (phi_rf station) slip) |}.
Proof.
  intros (Hh & Hd & Ho & Hp) [Hf1 Hf2] Hslip.
  unfold apply_new_frequency.
  set (e := length f) in *.
  pose proof (table_columns_before _ _ _ e Hh Hf2) as Hh'.
  pose proof (table_columns_before _ _ _ e Hp Hf2) as Hp'.
  pose proof Hh as [Hh1 Hh2]. pose proof Ho as [Ho1 Ho2].
  pose proof Hp as [Hp1 Hp2]. pose proof Hslip as [Hs1 Hs2].
  rewrite elementwise_row by (destruct Hh' as [_ Hh']; exact Hh'). cbn [bind].
  set (product := map _ (columns_before (harmonic station) e)).
  assert (Hproduct : table (n_rf station) (Nat.min e cols) product).
  { rewrite Nat.min_l by lia.
    apply (table_map_rows _ _ _ e e Hh'). intros r Hr. now apply length_zip. }
  rewrite (set_columns_before_same _ _ _ _ _ Ho Hproduct). cbn [bind].
  rewrite (elementwise_same _ _ _ _ _ Hp' Hslip). cbn [bind].
  set (shifted := map _ (combine (columns_before (phi_rf station) e) slip)).
  assert (Hshifted : table (n_rf station) (Nat.min e cols) shifted).
  { rewrite Nat.min_l by lia.
    apply (table_map_combine _ _ _ _ e e Hp' Hslip).
    intros r s' Hr Hs'. cbn [fst snd]. now apply length_zip. }
  rewrite (set_columns_before_same _ _ _ _ _ Hp Hshifted). cbn [bind].
  set (phi' := map _ (combine (phi_rf station) shifted)).
  assert (Hphi' : length phi' = n_rf station).
  { unfold phi'. destruct Hshifted as [Hsh _].
    rewrite length_map, length_combine. lia. }
  assert (Hne : Forall (fun r : list Q => r <> []) slip).
  { apply Forall_forall. intros r Hr. rewrite Forall_forall in Hs2.
    specialize (Hs2 r Hr). destruct r; [cbn in Hs2; lia | discriminate]. }
  rewrite <- Hphi' at 1.
  rewrite (hold_last_slip_loop e slip phi') by (try assumption; lia).
  cbn [bind].
  rewrite !firstn_all2, skipn_all2, app_nil_r by lia.
  f_equal. f_equal.
  - unfold product, columns_before.
    apply (nth_ext _ _ [] []).
    + rewrite !length_map, !length_combine, !length_map. reflexivity.
    + intros n Hn. rewrite length_map, length_combine, !length_map in Hn.
      rewrite (nth_map_combine _ [] []) by (rewrite ?length_map; lia).
      rewrite (nth_map_lt _ ([], [])) by (rewrite length_combine; lia).
      rewrite combine_nth by lia. cbn [fst snd].
      rewrite !(nth_map_lt _ []) by (rewrite ?length_map; lia).
      reflexivity.
  - unfold phi', shifted, columns_before.
    apply (nth_ext _ _ [] []).
    + repeat (rewrite length_map || rewrite length_combine). lia.
    + intros n Hn. rewrite length_map, length_combine in Hn.
      assert (Hn' : (n < n_rf station)%nat) by lia.
      rewrite (nth_map_combine _ [] []) by lia. cbn [fst snd].
      rewrite (nth_map_combine _ [] [])
        by (rewrite ?length_map, ?length_combine, ?length_map; lia).
      cbn [fst snd].
      rewrite (nth_map_combine _ [] []) by (rewrite ?length_map; lia).
      cbn [fst snd].
      rewrite (nth_map_lt _ []) by lia.
      rewrite (nth_map_lt _ ([], [])) by (rewrite length_combine; lia).
      rewrite combine_nth by lia. cbn [fst snd].
      set (zipped := map _ (combine (firstn e _) _)).
      assert (Hz : length zipped = e).
      { unfold zipped. apply length_zip.
        - rewrite length_firstn, (table_row _ _ _ n Hp Hn'). lia.
        - exact (table_row _ _ _ n Hslip Hn'). }
      rewrite firstn_app, Hz, Nat.sub_diag, firstn_O, app_nil_r.
      rewrite firstn_all2 by lia.
      rewrite skipn_app, Hz, Nat.sub_diag, skipn_all2 by lia.
      reflexivity.
Qed.


(** The entries that [apply_new_frequency] leaves. *)
Lemma new_frequency_entries (station : rf_station) (f : list Q)
    (slip : list (list Q)) (cols : nat) :
  well_shaped station cols -> (1 <= length f <= cols)%nat ->
  table (n_rf station) (length f) slip ->
  exists station' : rf_station,
    apply_new_frequency station f (length f) slip = Return station'
    /\ n_rf station' = n_rf station
    /\ harmonic station' = harmonic station
    /\ omega_rf_d station' = omega_rf_d station
    /\ well_shaped station' cols
    /\ forall n k : nat, (n < n_rf station)%nat -> (k < cols)%nat ->
         nth k (nth n (omega_rf station') []) 0
         = (if (k <? length f)%nat
            then nth k (nth n (harmonic station) []) 0 * nth k f 0
            else nth k (nth n (omega_rf station) []) 0)
         /\ nth k (nth n (phi_rf station') []) 0
            = nth k (nth n (phi_rf station) []) 0
              + nth (Nat.min k (length f - 1)) (nth n slip []) 0.
Proof.
  intros Hws Hf Hslip.
  rewrite (apply_new_frequency_rows station f slip cols Hws Hf Hslip).
  destruct Hws as (Hh & Hd & Ho & Hp). destruct Hf as [Hf1 Hf2].
  pose proof Hh as [Hh1 Hh2]. pose proof Ho as [Ho1 Ho2].
  pose proof Hp as [Hp1 Hp2]. pose proof Hslip as [Hs1 Hs2].
  eexists. split; [reflexivity |]. cbn [n_rf harmonic omega_rf_d omega_rf phi_rf].
  split; [reflexivity | split; [reflexivity | split; [reflexivity | split]]].
  - unfold well_shaped. cbn [n_rf harmonic omega_rf_d omega_rf phi_rf].
    split; [exact Hh | split; [exact Hd | split]].
    + apply (table_map_combine _ _ _ _ cols cols Ho Hh).
      intros r s' Hr Hs'. cbn [fst snd].
      rewrite length_app, length_map, length_combine, length_firstn, length_skipn.
      lia.
    + split.
      * rewrite length_map, length_combine. lia.
      * apply Forall_forall. intros r Hr. apply in_map_iff in Hr.
        destruct Hr as ([p s'] & <- & Hin).
        rewrite Forall_forall in Hp2, Hs2.
        pose proof (Hp2 _ (in_combine_l _ _ _ _ Hin)) as Hlp.
        pose proof (Hs2 _ (in_combine_r _ _ _ _ Hin)) as Hls.
        cbn [fst snd].
        rewrite length_app, !length_map, length_combine, length_firstn, length_skipn.
        lia.
  - intros n k Hn Hk.
    pose proof (table_row _ _ _ n Hh Hn) as Hhn.
    pose proof (table_row _ _ _ n Ho Hn) as Hon.
    pose proof (table_row _ _ _ n Hp Hn) as Hpn.
    pose proof (table_row _ _ _ n Hslip Hn) as Hsn.
    split.
    + rewrite (nth_map_combine _ [] []) by lia. cbn [fst snd].
      destruct (Nat.ltb_spec k (length f)) as [Hlt | Hge].
      * rewrite app_nth1 by (rewrite length_map, length_combine, length_firstn; lia).
        rewrite (nth_map_combine _ 0 0) by (rewrite ?length_firstn; lia).
        cbn [fst snd]. rewrite nth_firstn.
        destruct (Nat.ltb_spec k (length f)); [reflexivity | lia].
      * rewrite app_nth2 by (rewrite length_map, length_combine, length_firstn; lia).
        rewrite length_map, length_combine, length_firstn.
        rewrite nth_skipn. f_equal. lia.
    + rewrite (nth_map_combine _ [] []) by lia. cbn [fst snd].
      destruct (Nat.lt_ge_cases k (length f)) as [Hlt | Hge].
      * rewrite app_nth1 by (rewrite length_map, length_combine, length_firstn; lia).
        rewrite (nth_map_combine _ 0 0) by (rewrite ?length_firstn; lia).
        cbn [fst snd]. rewrite nth_firstn, Nat.min_l by lia.
        destruct (Nat.ltb_spec k (length f)); [reflexivity | lia].
      * rewrite app_nth2 by (rewrite length_map, length_combine, length_firstn; lia).
        rewrite length_map, length_combine, length_firstn.
        rewrite (nth_map_lt _ 0) by (rewrite length_skipn; lia).
        rewrite nth_skipn, <- nth_last, Hsn.
        f_equal; f_equal; lia.
Qed.

(** What [apply_new_frequency] writes.  On a station of tables of [cols]
    columns, for a program of at least 1 and at most [cols] turns and a
    slippage table of that many columns, it returns; the harmonics and the
    design frequencies are untouched and the arrays keep their shape; the
    RF frequency is [h*f] during the program and unchanged after it; and
    the RF phase of every turn is shifted by the slippage of that turn
    during the program and by the slippage of the last turn of the program
    at every later turn. *)
Theorem apply_new_frequency_result (station : rf_station) (f : list Q)
    (slip : list (list Q)) (cols : nat) :
  well_shaped station cols -> (1 <= length f <= cols)%nat ->
  table (n_rf station) (length f) slip ->
  exists station' : rf_station,
    apply_new_frequency station f (length f) slip = Return station'
    /\ n_rf station' = n_rf station
    /\ harmonic station' = harmonic station
    /\ omega_rf_d station' = omega_rf_d station
    /\ well_shaped station' cols
    /\ forall n k : nat, (n < n_rf station)%nat -> (k < cols)%nat ->
         nth k (nth n (omega_rf station') []) 0
         = (if (k <? length f)%nat
            then nth k (nth n (harmonic station) []) 0 * nth k f 0
            else nth k (nth n (omega_rf station) []) 0)
         /\ nth k (nth n (phi_rf station') []) 0
            = nth k (nth n (phi_rf station) []) 0
              + nth (Nat.min k (length f - 1)) (nth n slip []) 0.
Proof.
  exact (new_frequency_entries station f slip cols).
Qed.

Lemma apply_new_frequency_result_witness :
  exists station' : rf_station,
    apply_new_frequency one_system [4; 4; 11; 18] 4 [[1; 2; 3; 4]] = Return station'
    /\ nth 5 (nth 0 (phi_rf station') []) 0
       = nth 5 (nth 0 (phi_rf one_system) []) 0 + nth 3 (nth 0 [[1; 2; 3; 4]] []) 0.
Proof.
  destruct (apply_new_frequency_result one_system [4; 4; 11; 18] [[1; 2; 3; 4]] 6)
    as (station' & H1 & _ & _ & _ & _ & H2).
  - cbn. repeat split; repeat constructor.
  - cbn. lia.
  - cbn. repeat split; repeat constructor.
  - exists station'. split; [exact H1 |].
    apply (H2 0%nat 5%nat); cbn; lia.
Defined.


Lemma linspace_Return (start stop : Q) (m : nat) :
  linspace start stop (Z.of_nat m)
  = Return match m with
           | O => []
           | 1%nat => [start]
           | S n =>
               map (fun i => inject_Z (Z.of_nat i)
                              * ((stop - start) / inject_Z (Z.of_nat n)) + start)
                 (seq 0 n)
               ++ [stop]
           end.
Proof.
  unfold linspace.
  destruct (Z.of_nat m <? 0)%Z eqn:E; [apply Z.ltb_lt in E; lia |].
  rewrite Nat2Z.id. destruct m as [| [| n]]; reflexivity.
Qed.

Lemma linspace_length (start stop : Q) (m : nat) (l : list Q) :
  linspace start stop (Z.of_nat m) = Return l -> length l = m.
Proof.
  rewrite linspace_Return. intros [= <-].
  destruct m as [| [| n]]; [reflexivity | reflexivity |].
  rewrite length_app, length_map, length_seq. cbn [length]. lia.
Qed.

(** A point of the segment from [a] to [b]. *)
Lemma between_mix (a b t : Q) :
  0 <= t <= 1 -> Qmin a b <= a + t * (b - a) <= Qmax a b.
Proof.
  intros [Ht0 Ht1].
  pose proof (Q.le_min_l a b). pose proof (Q.le_min_r a b).
  pose proof (Q.le_max_l a b). pose proof (Q.le_max_r a b).
  split; Lqa.nra.
Qed.

Lemma linspace_between (start stop : Q) (m : nat) (l : list Q) (v : Q) :
  linspace start stop (Z.of_nat m) = Return l -> In v l ->
  Qmin start stop <= v <= Qmax start stop.
Proof.
  rewrite linspace_Return. intros [= <-] Hv.
  pose proof (between_mix start stop 0) as H0.
  pose proof (between_mix start stop 1) as H1.
  destruct m as [| [| n]].
  - destruct Hv.
  - destruct Hv as [<- | []]. Lqa.lra.
  - apply in_app_or in Hv. destruct Hv as [Hv | [<- | []]]; [| Lqa.lra].
    apply in_map_iff in Hv. destruct Hv as (i & <- & Hi). apply in_seq in Hi.
    set (n' := inject_Z (Z.of_nat (S n))).
    set (i' := inject_Z (Z.of_nat i)).
    assert (Hn : 0 < n').
    { unfold n'. change 0 with (inject_Z 0). rewrite <- Zlt_Qlt. lia. }
    assert (Hi0 : 0 <= i').
    { unfold i'. change 0 with (inject_Z 0). rewrite <- Zle_Qle. lia. }
    assert (Hin : i' <= n').
    { unfold i', n'. rewrite <- Zle_Qle. lia. }
    assert (Ht : 0 <= i' / n' <= 1).
    { split.
      - apply Qle_shift_div_l; [exact Hn | Lqa.lra].
      - apply Qle_shift_div_r; [exact Hn | Lqa.lra]. }
    pose proof (between_mix start stop (i' / n') Ht) as Hmix.
    assert (Heq : i' * ((stop - start) / n') + start
                  == start + i' / n' * (stop - start)).
    { field. Lqa.lra. }
    rewrite Heq. exact Hmix.
Qed.

Lemma calculate_frequency_prog_Return (a m : nat) (F E : Q) :
  exists ramp : list Q,
    linspace F E (Z.of_nat m) = Return ramp
    /\ calculate_frequency_prog a (a + m) F E
       = Return (map (fun o => o * F) (repeat 1 a) ++ ramp).
Proof.
  unfold calculate_frequency_prog.
  replace (Z.of_nat (a + m) - Z.of_nat a)%Z with (Z.of_nat m) by lia.
  rewrite linspace_Return. eexists. split; reflexivity.
Qed.

Lemma calculate_frequency_prog_length (a b : nat) (F E : Q) :
  (a <= b)%nat ->
  exists prog : list Q,
    calculate_frequency_prog a b F E = Return prog /\ length prog = b.
Proof.
  intros Hab.
  destruct (calculate_frequency_prog_Return a (b - a) F E) as (ramp & Hr & Hc).
  replace (a + (b - a))%nat with b in Hc by lia. rewrite Hc.
  eexists. split; [reflexivity |].
  rewrite length_app, length_map, repeat_length, (linspace_length _ _ _ _ Hr). lia.
Qed.

(** The frequency program of [FixedFrequency].  A transition that ends
    before the fixed part is refused with [ValueError].  Otherwise the
    program has one value per turn before [end_transition_turn]; it is at
    the fixed frequency up to and including turn [end_fixed_turn]; with two
    or more turns of transition its last value is [end_frequency] itself,
    with exactly one turn of transition the program ends at the fixed
    frequency; and every value lies between the fixed and the end
    frequency. *)
Theorem calculate_frequency_prog_shape
    (end_fixed_turn end_transition_turn : nat) (fixed_frequency end_frequency : Q) :
  ((end_transition_turn < end_fixed_turn)%nat ->
   exists msg : string,
     calculate_frequency_prog end_fixed_turn end_transition_turn
       fixed_frequency end_frequency = Raise (ValueError msg))
  /\ ((end_fixed_turn <= end_transition_turn)%nat ->
      exists prog : list Q,
        calculate_frequency_prog end_fixed_turn end_transition_turn
          fixed_frequency end_frequency = Return prog
        /\ length prog = end_transition_turn
        /\ (forall (k : nat) (v : Q),
               (k <= end_fixed_turn)%nat -> nth_error prog k = Some v ->
               v == fixed_frequency)
        /\ ((end_fixed_turn + 2 <= end_transition_turn)%nat ->
            nth_error prog (end_transition_turn - 1) = Some end_frequency)
        /\ (end_transition_turn = (end_fixed_turn + 1)%nat ->
            nth_error prog (end_transition_turn - 1) = Some fixed_frequency)
        /\ forall v : Q, In v prog ->
             Qmin fixed_frequency end_frequency <= v
             <= Qmax fixed_frequency end_frequency).
Proof.
  split.
  - intros Hlt. unfold calculate_frequency_prog, linspace.
    destruct (Z.of_nat end_transition_turn - Z.of_nat end_fixed_turn <? 0)%Z eqn:E;
      [| apply Z.ltb_ge in E; lia].
    cbn [bind]. eauto.
  - intros Hle.
    set (a := end_fixed_turn) in *. set (F := fixed_frequency).
    set (E := end_frequency).
    set (m := (end_transition_turn - a)%nat).
    assert (Hb : end_transition_turn = (a + m)%nat) by lia.
    clearbody m. subst end_transition_turn.
    destruct (calculate_frequency_prog_Return a m F E) as (ramp & Hr & ->).
    pose proof (linspace_length _ _ _ _ Hr) as Hlen.
    assert (Hfixed : length (map (fun o => o * F) (repeat 1 a)) = a).
    { now rewrite length_map, repeat_length. }
    eexists. split; [reflexivity |]. split; [| split; [| split; [| split]]].
    + rewrite length_app, Hfixed, Hlen. reflexivity.
    + intros k v Hk Hv.
      destruct (Nat.lt_ge_cases k a) as [Hlt | Hge].
      * rewrite nth_error_app1 in Hv by lia.
        apply nth_error_In, in_map_iff in Hv.
        destruct Hv as (o & <- & Ho). apply repeat_spec in Ho. subst o. ring.
      * assert (k = a) as -> by lia.
        rewrite nth_error_app2, Hfixed, Nat.sub_diag in Hv by lia.
        rewrite linspace_Return in Hr. injection Hr as Hr. subst ramp.
        destruct m as [| [| n]]; [discriminate Hv | |].
        -- injection Hv as <-. reflexivity.
        -- cbn [seq map app nth_error] in Hv. injection Hv as <-.
           cbn [Z.of_nat inject_Z]. ring.
    + intros Hm.
      rewrite nth_error_app2 by lia. rewrite Hfixed.
      rewrite linspace_Return in Hr. injection Hr as Hr. subst ramp.
      destruct m as [| [| n]]; [lia | lia |].
      replace (a + S (S n) - 1 - a)%nat with (S n + 0)%nat by lia.
      rewrite nth_error_app2 by (rewrite length_map, length_seq; lia).
      rewrite length_map, length_seq.
      replace (S n + 0 - S n)%nat with 0%nat by lia. reflexivity.
    + intros Hm.
      rewrite nth_error_app2 by lia. rewrite Hfixed.
      rewrite linspace_Return in Hr. injection Hr as Hr. subst ramp.
      assert (m = 1%nat) as -> by lia.
      replace (a + 1 - 1 - a)%nat with 0%nat by lia. reflexivity.
    + intros v Hv. apply in_app_or in Hv. destruct Hv as [Hv | Hv].
      * apply in_map_iff in Hv. destruct Hv as (o & <- & Ho).
        apply repeat_spec in Ho. subst o.
        pose proof (between_mix F E 0) as H0. Lqa.lra.
      * exact (linspace_between _ _ _ _ _ Hr Hv).
Qed.

Lemma calculate_frequency_prog_shape_witness :
  (exists msg : string, calculate_frequency_prog 3 1 4 18 = Raise (ValueError msg))
  /\ exists prog : list Q,
      calculate_frequency_prog 1 4 4 18 = Return prog
      /\ length prog = 4%nat /\ nth_error prog 3 = Some 18.
Proof.
  split.
  - apply (calculate_frequency_prog_shape 3 1 4 18). lia.
  - destruct (calculate_frequency_prog_shape 1 4 4 18) as [_ H].
    destruct H as (prog & H1 & H2 & _ & H3 & _); [lia |].
    exists prog. split; [exact H1 | split; [exact H2 |]].
    apply H3. lia.
Defined.


(** The first position at which an array reaches a level. *)
Lemma first_where_from (level : Q) (a : list Q) :
  forall i : nat,
    match item (where_from i (map (fun v => Qle_bool level v) a)) 0 with
    | Return k =>
        exists k' : nat,
          k = (i + k')%nat /\ (k' < length a)%nat /\ level <= nth k' a 0
          /\ forall j : nat, (j < k')%nat -> nth j a 0 < level
    | Raise e => e = IndexError /\ forall v : Q, In v a -> v < level
    end.
Proof.
  induction a as [| w a IH]; intros i.
  - cbn. split; [reflexivity | intros v []].
  - cbn [map where_from]. destruct (Qle_bool level w) eqn:E.
    + cbn [item nth_error]. exists 0%nat. apply Qle_bool_iff in E.
      split; [lia | split; [cbn; lia | split; [exact E | intros j Hj; lia]]].
    + specialize (IH (S i)).
      assert (Hw : w < level).
      { apply Qnot_le_lt. intros Hle. apply Qle_bool_iff in Hle. congruence. }
      destruct (item (where_from (S i) (map (fun v => Qle_bool level v) a)) 0)
        as [k | e].
      * destruct IH as (k' & -> & Hk' & Hle & Hbefore).
        exists (S k'). split; [lia | split; [cbn; lia | split; [exact Hle |]]].
        intros [| j] Hj; [exact Hw | apply Hbefore; lia].
      * destruct IH as [-> Hall]. split; [reflexivity |].
        intros v [<- | Hv]; [exact Hw | now apply Hall].
Qed.

Lemma first_reaching_Return (a : list Q) (level : Q) (k : nat) :
  first_reaching a level = Return k ->
  (k < length a)%nat /\ level <= nth k a 0
  /\ forall j : nat, (j < k)%nat -> nth j a 0 < level.
Proof.
  intros H. pose proof (first_where_from level a 0) as Hspec.
  unfold first_reaching, where_true in H. rewrite H in Hspec.
  destruct Hspec as (k' & -> & H1 & H2 & H3). cbn [Nat.add]. auto.
Qed.

Lemma first_reaching_Raise (a : list Q) (level : Q) :
  (forall v : Q, In v a -> v < level) -> first_reaching a level = Raise IndexError.
Proof.
  intros Hall. pose proof (first_where_from level a 0) as Hspec.
  unfold first_reaching, where_true.
  destruct (item (where_from 0 (map (fun v => Qle_bool level v) a)) 0) as [k | e].
  - destruct Hspec as (k' & _ & Hk' & Hle & _).
    specialize (Hall (nth k' a 0) (nth_In _ _ Hk')). Lqa.lra.
  - destruct Hspec as [-> _]. reflexivity.
Qed.

Lemma fold_left_Raise {A : Type} (g : A -> nat -> outcome A) (e : exn) (l : list nat) :
  fold_left (fun (acc : outcome A) (n : nat) => bind acc (fun p => g p n)) l (Raise e)
  = Raise e.
Proof. induction l as [| n l IH]; [reflexivity | exact IH]. Qed.

(** An empty program on a station with an RF system: the slippage of the
    last turn does not exist. *)
Lemma apply_new_frequency_empty (station : rf_station) (slip : list (list Q)) (cols : nat) :
  well_shaped station cols -> (1 <= n_rf station)%nat ->
  table (n_rf station) 0 slip ->
  apply_new_frequency station [] 0 slip = Raise IndexError.
Proof.
  intros (Hh & Hd & Ho & Hp) Hn Hslip.
  unfold apply_new_frequency.
  pose proof (table_columns_before _ _ _ 0 Hh (Nat.le_0_l _)) as Hh'.
  pose proof (table_columns_before _ _ _ 0 Hp (Nat.le_0_l _)) as Hp'.
  rewrite elementwise_row by (destruct Hh' as [_ Hh']; exact Hh'). cbn [bind].
  set (product := map _ (columns_before (harmonic station) 0)).
  assert (Hproduct : table (n_rf station) (Nat.min 0 cols) product).
  { rewrite Nat.min_l by lia.
    apply (table_map_rows _ _ _ 0 0 Hh'). intros r Hr. now apply length_zip. }
  rewrite (set_columns_before_same _ _ _ _ _ Ho Hproduct). cbn [bind].
  rewrite (elementwise_same _ _ _ _ _ Hp' Hslip). cbn [bind].
  set (shifted := map _ (combine (columns_before (phi_rf station) 0) slip)).
  assert (Hshifted : table (n_rf station) (Nat.min 0 cols) shifted).
  { rewrite Nat.min_l by lia.
    apply (table_map_combine _ _ _ _ 0 0 Hp' Hslip).
    intros r s' Hr Hs'. cbn [fst snd]. now apply length_zip. }
  rewrite (set_columns_before_same _ _ _ _ _ Hp Hshifted). cbn [bind].
  set (phi' := map _ (combine (phi_rf station) shifted)).
  assert (Hphi' : length phi' = n_rf station).
  { unfold phi'. destruct Hshifted as [Hsh _]. destruct Hp as [Hp1 _].
    rewrite length_map, length_combine. lia. }
  destruct (n_rf station) as [| n] eqn:En; [lia |].
  cbn [seq fold_left bind].
  assert (Hfirst : hold_last_slip 0 slip phi' 0 = Raise IndexError).
  { unfold hold_last_slip, item.
    destruct phi' as [| p phi']; [discriminate Hphi' |].
    destruct Hslip as [Hs1 Hs2].
    destruct slip as [| r slip]; [discriminate Hs1 |].
    apply Forall_inv in Hs2. destruct r; [| discriminate Hs2].
    reflexivity. }
  rewrite Hfirst, fold_left_Raise. reflexivity.
Qed.


Lemma calculate_frequency_prog_Raise (a b : nat) (F E : Q) :
  (b < a)%nat ->
  exists msg : string, calculate_frequency_prog a b F E = Raise (ValueError msg).
Proof.
  intros Hlt. unfold calculate_frequency_prog, linspace.
  destruct (Z.of_nat b - Z.of_nat a <? 0)%Z eqn:E'; [| apply Z.ltb_ge in E'; lia].
  cbn [bind]. eauto.
Qed.

Lemma item_in_range {A : Type} (a : list A) (i : nat) (d : A) :
  (i < length a)%nat -> item a i = Return (nth i a d).
Proof. intros H. unfold item. now rewrite (nth_error_nth' a d H). Qed.

(** The constructions of [FixedFrequency] that fail.  It raises
    [IndexError] when no cycle time reaches the fixed duration, when the
    transition ends at turn 2 (the program of two values is read as the
    rows [time] and [frequency]), and, on a station of tables with an RF
    system, when the transition ends at turn 0, as it does for durations
    that the first cycle time already reaches; and it raises [ValueError]
    when the transition ends before the fixed part. *)
Theorem FixedFrequency_init_errors (np_pi : Q) (cycle_time : list Q)
    (station : rf_station) (FixedFrequency FixedDuration TransitionDuration : Q) :
  ((forall v : Q, In v cycle_time -> v < FixedDuration) ->
   FixedFrequency_init np_pi cycle_time station FixedFrequency FixedDuration
     TransitionDuration = Raise IndexError)
  /\ (forall k : nat,
        first_reaching cycle_time FixedDuration = Return k -> (k <= 2)%nat ->
        first_reaching cycle_time (FixedDuration + TransitionDuration) = Return 2%nat ->
        FixedFrequency_init np_pi cycle_time station FixedFrequency FixedDuration
          TransitionDuration = Raise IndexError)
  /\ (forall cols : nat,
        first_reaching cycle_time FixedDuration = Return 0%nat ->
        first_reaching cycle_time (FixedDuration + TransitionDuration) = Return 0%nat ->
        well_shaped station cols -> (1 <= n_rf station)%nat ->
        FixedFrequency_init np_pi cycle_time station FixedFrequency FixedDuration
          TransitionDuration = Raise IndexError)
  /\ (forall k1 k2 cols : nat,
        first_reaching cycle_time FixedDuration = Return k1 ->
        first_reaching cycle_time (FixedDuration + TransitionDuration) = Return k2 ->
        (k2 < k1)%nat ->
        well_shaped station cols -> (1 <= n_rf station)%nat -> (k2 < cols)%nat ->
        exists msg : string,
          FixedFrequency_init np_pi cycle_time station FixedFrequency FixedDuration
            TransitionDuration = Raise (ValueError msg)).
Proof.
  split; [| split; [| split]].
  - intros Hall. unfold FixedFrequency_init.
    rewrite (first_reaching_Raise _ _ Hall). reflexivity.
  - intros k H1 Hk H2. unfold FixedFrequency_init. rewrite H1, H2. cbn [bind].
    destruct (item (omega_rf_d station) 0) as [row | e] eqn:E1;
      [| apply item_Raise in E1; now subst e].
    cbn [bind].
    destruct (item row 2) as [ef | e] eqn:E2;
      [| apply item_Raise in E2; now subst e].
    cbn [bind].
    destruct (calculate_frequency_prog_length k 2 FixedFrequency ef Hk)
      as (prog & -> & Hlen).
    cbn [bind]. unfold set_frequency. rewrite Hlen. reflexivity.
  - intros cols H1 H2 Hws Hn. unfold FixedFrequency_init. rewrite H1, H2. cbn [bind].
    destruct (item (omega_rf_d station) 0) as [row | e] eqn:E1;
      [| apply item_Raise in E1; now subst e].
    cbn [bind].
    destruct (item row 0) as [ef | e] eqn:E2;
      [| apply item_Raise in E2; now subst e].
    cbn [bind].
    change (calculate_frequency_prog 0 0 FixedFrequency ef) with (Return (@nil Q)).
    cbn [bind]. unfold set_frequency. cbn [length Nat.eqb bind].
    pose proof (calculate_phase_slip_rows np_pi station [] cols Hws (Nat.le_0_l _))
      as Hslip.
    cbn [length] in Hslip. rewrite Hslip. cbn [bind].
    rewrite (apply_new_frequency_empty station _ cols Hws Hn); [reflexivity |].
    destruct Hws as ([Hh1 _] & [Hd1 _] & _). split.
    + rewrite length_map, length_combine. lia.
    + apply Forall_forall. intros r Hr. apply in_map_iff in Hr.
      destruct Hr as (hd & <- & _). reflexivity.
  - intros k1 k2 cols H1 H2 Hlt Hws Hn Hk. unfold FixedFrequency_init.
    rewrite H1, H2. cbn [bind].
    pose proof Hws as (_ & Hd & _). pose proof Hd as [Hd1 _].
    rewrite (item_in_range _ 0 []) by lia. cbn [bind].
    rewrite (item_in_range _ k2 0) by (rewrite (table_row _ _ _ 0 Hd); lia).
    cbn [bind].
    destruct (calculate_frequency_prog_Raise k1 k2 FixedFrequency
                (nth k2 (nth 0 (omega_rf_d station) []) 0) Hlt) as (msg & ->).
    cbn [bind]. eauto.
Qed.

Lemma FixedFrequency_init_errors_witness :
  FixedFrequency_init (22 # 7) six_turns one_system 4 9 0 = Raise IndexError
  /\ FixedFrequency_init (22 # 7) six_turns one_system 4 1 1 = Raise IndexError
  /\ FixedFrequency_init (22 # 7) six_turns one_system 4 0 0 = Raise IndexError
  /\ exists msg : string,
      FixedFrequency_init (22 # 7) six_turns one_system 4 3 (-2) = Raise (ValueError msg).
Proof.
  assert (Hws : well_shaped one_system 6).
  { cbn. repeat split; repeat constructor. }
  split; [| split; [| split]].
  - apply (FixedFrequency_init_errors (22 # 7) six_turns one_system 4 9 0).
    intros v Hv. cbn in Hv.
    repeat (destruct Hv as [<- | Hv]; [reflexivity |]). destruct Hv.
  - apply (FixedFrequency_init_errors (22 # 7) six_turns one_system 4 1 1) with (k := 1%nat);
      [reflexivity | lia | reflexivity].
  - apply (FixedFrequency_init_errors (22 # 7) six_turns one_system 4 0 0) with (cols := 6%nat);
      [reflexivity | reflexivity | exact Hws | cbn; lia].
  - apply (FixedFrequency_init_errors (22 # 7) six_turns one_system 4 3 (-2))
      with (k1 := 3%nat) (k2 := 1%nat) (cols := 6%nat);
      [reflexivity | reflexivity | lia | exact Hws | cbn; lia | lia].
Defined.


(** The construction of [FixedFrequency] that succeeds.  On a station of
    tables of [cols] columns with an RF system and design frequencies that
    are not zero, when the fixed part ends at turn [k1] and the transition
    at turn [k2] with [k1 <= k2 < cols], [k2 >= 1] and [k2] other than 2,
    the construction returns.  [k1] and [k2] are the first turns whose
    cycle time reaches the fixed duration and the sum of the two durations;
    the program has [k2] turns and is used as it is; the end frequency is
    the design frequency of the first RF system at turn [k2]; the slippage
    has one row per system and one column per turn of the program; the
    station keeps its shape and its design frequencies; and from turn [k2]
    on the RF frequency is as before while the RF phase is shifted by the
    slippage reached at the last turn of the program. *)
Theorem FixedFrequency_init_result (np_pi : Q) (cycle_time : list Q)
    (station : rf_station) (FixedFrequency FixedDuration TransitionDuration : Q)
    (k1 k2 cols : nat) :
  well_shaped station cols -> (1 <= n_rf station)%nat ->
  first_reaching cycle_time FixedDuration = Return k1 ->
  first_reaching cycle_time (FixedDuration + TransitionDuration) = Return k2 ->
  (k1 <= k2)%nat -> (1 <= k2)%nat -> k2 <> 2%nat -> (k2 < cols)%nat ->
  (forall n j : nat, (n < n_rf station)%nat -> (j < k2)%nat ->
     ~ nth j (nth n (omega_rf_d station) []) 0 == 0) ->
  exists object : fixed_frequency,
    FixedFrequency_init np_pi cycle_time station FixedFrequency FixedDuration
      TransitionDuration = Return object
    /\ end_fixed_turn object = k1 /\ end_transition_turn object = k2
    /\ end_turn object = k2
    /\ FixedDuration <= nth k1 cycle_time 0
    /\ (forall j : nat, (j < k1)%nat -> nth j cycle_time 0 < FixedDuration)
    /\ FixedDuration + TransitionDuration <= nth k2 cycle_time 0
    /\ (forall j : nat, (j < k2)%nat ->
          nth j cycle_time 0 < FixedDuration + TransitionDuration)
    /\ end_frequency object = nth k2 (nth 0 (omega_rf_d station) []) 0
    /\ new_frequency object = frequency_prog object
    /\ length (frequency_prog object) = k2
    /\ design_frequency object = columns_before (omega_rf_d station) k2
    /\ table (n_rf station) k2 (phase_slippage object)
    /\ well_shaped (rf_station_after object) cols
    /\ omega_rf_d (rf_station_after object) = omega_rf_d station
    /\ forall n k : nat, (n < n_rf station)%nat -> (k2 <= k < cols)%nat ->
         nth k (nth n (omega_rf (rf_station_after object)) []) 0
         = nth k (nth n (omega_rf station) []) 0
         /\ nth k (nth n (phi_rf (rf_station_after object)) []) 0
            = nth k (nth n (phi_rf station) []) 0
              + nth (k2 - 1) (nth n (phase_slippage object) []) 0.
Proof.
  intros Hws Hn H1 H2 H12 Hk2 Hk2' Hcols _.
  pose proof (first_reaching_Return _ _ _ H1) as (_ & Hr1 & Hb1).
  pose proof (first_reaching_Return _ _ _ H2) as (_ & Hr2 & Hb2).
  unfold FixedFrequency_init. rewrite H1, H2. cbn [bind].
  pose proof Hws as (_ & Hd & _). pose proof Hd as [Hd1 _].
  rewrite (item_in_range _ 0 []) by lia. cbn [bind].
  rewrite (item_in_range _ k2 0) by (rewrite (table_row _ _ _ 0 Hd); lia).
  cbn [bind].
  destruct (calculate_frequency_prog_length k1 k2 FixedFrequency
              (nth k2 (nth 0 (omega_rf_d station) []) 0) H12) as (prog & -> & Hlen).
  cbn [bind]. unfold set_frequency.
  destruct (Nat.eqb_spec (length prog) 2) as [Heq | _]; [lia |].
  cbn [bind].
  destruct (phase_slip_entries np_pi station prog cols Hws) as (slip & -> & Hslip & _);
    [lia |].
  cbn [bind].
  destruct (new_frequency_entries station prog slip cols Hws) as
    (station' & -> & _ & _ & Hd' & Hws' & Hentries); [lia | exact Hslip |].
  cbn [bind].
  eexists. split; [reflexivity |].
  cbn [end_fixed_turn end_transition_turn end_turn end_frequency new_frequency
         frequency_prog design_frequency phase_slippage rf_station_after].
  rewrite Hlen in *.
  repeat (split; [first [reflexivity | assumption] |]).
  intros n k Hn' Hk.
  destruct (Hentries n k Hn') as [Ho Hp]; [lia |].
  destruct (Nat.ltb_spec k k2) as [Hlt | _]; [lia |].
  rewrite Nat.min_r in Hp by lia. split; assumption.
Qed.

Lemma FixedFrequency_init_result_witness :
  exists object : fixed_frequency,
    FixedFrequency_init (22 # 7) six_turns one_system 4 1 3 = Return object
    /\ end_fixed_turn object = 1%nat /\ end_transition_turn object = 4%nat
    /\ length (frequency_prog object) = 4%nat.
Proof.
  destruct (FixedFrequency_init_result (22 # 7) six_turns one_system 4 1 3 1 4 6)
    as (object & H & Ha & Hb & _ & _ & _ & _ & _ & _ & _ & Hc & _);
    try reflexivity; try (cbn; lia).
  - cbn. repeat split; repeat constructor.
  - intros n j Hn Hj. cbn in Hn.
    assert (n = 0%nat) as -> by lia.
    destruct j as [| [| [| [| j]]]]; cbn; try discriminate; lia.
  - exists object. repeat split; assumption.
Defined.




End OffsetFrequencyFacts.

(* ================================================================== *)
(** * Properties of the pre-processing of RF data *)

Module RFOptionsFacts.
Import Py Np RFOptions PotentialWellFacts ExtremaFacts.
Local Open Scope Q_scope.

Lemma Forall2_combine {A B : Type} (P : A -> B -> Prop) (a : list A) (b : list B) :
  Forall2 P a b -> forall (x : A) (y : B), In (x, y) (combine a b) -> P x y.
Proof.
  induction 1 as [| x0 y0 a b H0 _ IH]; intros x y Hin; [destruct Hin |].
  destruct Hin as [[= <- <-] | Hin]; [exact H0 | now apply IH].
Qed.

Section Linear.

Variable spline : Q -> list Q -> list Q -> list Q -> outcome (list Q).
Variable self : PreprocessRFParams.
Hypothesis Hlinear : interpolation self = linear.

Lemma interpolate_paired (cycle_time : list Q) (time_arrays data_arrays : list (list Q)) :
  Forall2 (fun time data => length time = length data /\ time <> [])
    time_arrays data_arrays ->
  forall more : list (list Q),
    interpolate_from spline self cycle_time time_arrays (data_arrays ++ more)
    = Return (map (fun td => map (interp1 (fst td) (snd td)) cycle_time)
                (combine time_arrays data_arrays)).
Proof.
  induction 1 as [| time data ts ds [Hlen Hne] _ IH]; intros more; [reflexivity |].
  cbn [app interpolate_from]. rewrite Hlen, Nat.eqb_refl. cbn [negb].
  rewrite Hlinear, interp_same_length by assumption. cbn [bind].
  rewrite IH. reflexivity.
Qed.

Lemma interpolate_Raise_later (cycle_time : list Q) (ts1 ds1 : list (list Q)) :
  Forall2 (fun time data => length time = length data /\ time <> []) ts1 ds1 ->
  forall (ts2 ds2 : list (list Q)) (e : exn),
    interpolate_from spline self cycle_time ts2 ds2 = Raise e ->
    interpolate_from spline self cycle_time (ts1 ++ ts2) (ds1 ++ ds2) = Raise e.
Proof.
  induction 1 as [| time data ts ds [Hlen Hne] _ IH]; intros ts2 ds2 e He;
    [exact He |].
  cbn [app interpolate_from]. rewrite Hlen, Nat.eqb_refl. cbn [negb].
  rewrite Hlinear, interp_same_length by assumption. cbn [bind].
  rewrite (IH _ _ _ He). reflexivity.
Qed.

End Linear.



End RFOptionsFacts.

